(** * Schelling segregation on a graph: the incremental happiness engine

    A shallow embedding of [Python_Version/agentsJ.py] (class
    [SchellingAgent]: [count], [recount], [move]) and of
    [Python_Version/modelJ.py] (class [Schelling]: [__init__], [step]),
    together with the parts of Mesa's [NetworkGrid], of [AgentSet.shuffle_do]
    and of Python's [random] module that these methods call; of the driver
    [run_schelling_process_py] of [Python_Version/py_api.py]; and of the
    integer helpers of [scripts/bench_hitting_time.py] and
    [scripts/py_schelling_mp_runner.py].

    Conventions of the embedding.
    - Python objects are mutable and shared: the model object and every agent
      object live in one store, the [world].  An agent reference is its index
      in the store [Schelling.agents] (Mesa's [model.agents] registry).
    - A method is a computation [M A]: it takes the world, returns the world
      as mutated so far and either a value or the exception that was raised.
    - Python ints are [Z].  The floats [density] and [minority_pc] are IEEE
      754 binary64 numbers, after the Standard Library's [SpecFloat]: their
      products are rounded, [round] raises on an infinity or a NaN, and an
      int is compared with a float by value.  The threshold [homophily] and
      the fraction [similar] are exact rationals ([Q]).
    - The attributes [height], [width], [radius] and [number_of_steps] are
      assigned by [__init__] and never read: they are left out.
    - Mesa wraps the [step] of a model: a call of [model.step()] increments
      the counter [steps], then runs the body written in [modelJ.py].
    - A pseudo-random generator is a tape of raw draws and a cursor.  The
      module-level generator of [random] is [global_random]; the generator
      owned by a model (Mesa's [self.random], built from [seed]) is the field
      [Schelling.random]. *)

From Stdlib Require Import ZArith QArith Qround Lia SpecFloat.
From stdpp Require Import base option list gmap sorting.

Close Scope Q_scope.

(** ** Python values, exceptions, generators *)

(** What a method call evaluates to: only [None] and booleans occur. *)
Inductive value := VNone | VBool (b : bool).

(** [Dangling] is not a Python exception: it marks a reference to an agent
    the store does not hold, which only an ill-formed world can contain.
    [Exhausted] marks a [while] loop that outlived its fuel. *)
Inductive exn :=
  IndexError | ValueError | OverflowError | KeyError | NetworkXError
| Dangling | Exhausted.

Inductive outcome (A : Type) :=
| Ok (v : A)
| Raise (e : exn).
Arguments Ok {A} v.
Arguments Raise {A} e.

Record Random := { tape : nat → nat; cursor : nat }.

(** [Random(seed)]: a seed is identified with the draws it determines. *)
Definition Random_seed (seed : nat → nat) : Random :=
  {| tape := seed; cursor := 0 |}.

(** [Random._randbelow(n)]. *)
Definition randbelow (r : Random) (n : nat) : nat * Random :=
  (tape r (cursor r) `mod` n, {| tape := tape r; cursor := S (cursor r) |}).

(** ** Floats *)

(** A Python float: IEEE 754 binary64. *)
Definition float : Type := spec_float.

Definition float_mul : float → float → float := SFmul 53 1024.

(** [float(n)] of an int [n], as [float * int] converts it: the nearest
    float, [OverflowError] when it is out of range. *)
Definition float_of_int (n : Z) : exn + float :=
  match binary_normalize 53 1024 n 0 false with
  | S754_infinity _ => inl OverflowError
  | f => inr f
  end.

(** [n / d] of two ints that convert exactly, [d] not 0: the float nearest
    to the fraction, which is also what the decimal literal of that
    fraction denotes. *)
Definition float_of_ratio (n d : Z) : float :=
  SFdiv 53 1024 (binary_normalize 53 1024 n 0 false)
                (binary_normalize 53 1024 d 0 false).

(** The number a float stands for; 0 for the infinities and NaN, which
    the functions below treat apart. *)
Definition float_value (x : float) : Q :=
  match x with
  | S754_finite s m e => (inject_Z (cond_Zopp s (Z.pos m)) * (2 # 1) ^ e)%Q
  | _ => 0%Q
  end.

Definition is_finite (x : float) : bool :=
  match x with
  | S754_zero _ | S754_finite _ _ _ => true
  | S754_infinity _ | S754_nan => false
  end.

(** ** The object store *)

Module SchellingAgent.
Record t := mk {
  type : Z;
  pos : option nat;
  happy : bool }.
End SchellingAgent.

Module Schelling.
Record t := mk {
  density : float;
  minority_pc : float;
  homophily : Q;
  (* the input graph: its nodes in iteration order, each with its
     adjacency list *)
  G : list (nat * list nat);
  (* Mesa's Model: the seeded generator, the run flag, the registry; the
     counter of calls of [step] is the last field *)
  random : Random;
  running : bool;
  agents : list SchellingAgent.t;
  (* NetworkGrid: G.nodes[n]["agent"] *)
  grid : gmap nat (list nat);
  happy : Z;
  addresses : gmap nat (list nat);
  empty : list nat;
  agent_list : list nat;
  n_agents : Z;
  unhappy_list : list nat;
  number_of_moves : Z;
  steps : Z }.
End Schelling.

Record world := World {
  global_random : Random;
  model : Schelling.t }.

(** ** The monad of methods *)

Definition M (A : Type) : Type := world → outcome A * world.

Definition ret {A} (v : A) : M A := λ w, (Ok v, w).
Definition raise {A} (e : exn) : M A := λ w, (Raise e, w).
Definition bind {A B} (c : M A) (k : A → M B) : M B :=
  λ w, match c w with
       | (Ok v, w1) => k v w1
       | (Raise e, w1) => (Raise e, w1)
       end.

Declare Scope py_scope.
Delimit Scope py_scope with py.
Notation "'let*' x := c 'in' k" := (bind c (λ x, k))
  (at level 10, x name, c at level 100, k at level 200) : py_scope.
Notation "c ;; k" := (bind c (λ _, k))
  (at level 100, k at level 200, right associativity) : py_scope.
Local Open Scope py_scope.

Definition get : M Schelling.t := λ w, (Ok (model w), w).
Definition put (m : Schelling.t) : M unit :=
  λ w, (Ok tt, {| global_random := global_random w; model := m |}).
Definition modify (f : Schelling.t → Schelling.t) : M unit :=
  λ w, (Ok tt, {| global_random := global_random w; model := f (model w) |}).

(** Lift a read that may raise. *)
Definition lift {A} (r : exn + A) : M A :=
  match r with inl e => raise e | inr v => ret v end.

(** [for x in l: body(x)]. *)
Fixpoint for_each {A B} (l : list A) (body : A → M B) : M unit :=
  match l with
  | [] => ret tt
  | x :: l' => body x ;; for_each l' body
  end.

(** ** Attribute assignment *)

Definition set_happy (b : bool) (a : SchellingAgent.t) : SchellingAgent.t :=
  SchellingAgent.mk (SchellingAgent.type a) (SchellingAgent.pos a) b.
Definition set_pos (p : option nat) (a : SchellingAgent.t) : SchellingAgent.t :=
  SchellingAgent.mk (SchellingAgent.type a) p (SchellingAgent.happy a).

Import Schelling.

Definition with_random (x : Random) (m : t) : t :=
  mk (density m) (minority_pc m) (homophily m) (G m) x (running m)
     (agents m) (grid m) (happy m) (addresses m) (empty m) (agent_list m)
     (n_agents m) (unhappy_list m) (number_of_moves m) (steps m).
Definition with_running (x : bool) (m : t) : t :=
  mk (density m) (minority_pc m) (homophily m) (G m) (random m) x
     (agents m) (grid m) (happy m) (addresses m) (empty m) (agent_list m)
     (n_agents m) (unhappy_list m) (number_of_moves m) (steps m).
Definition with_agents (x : list SchellingAgent.t) (m : t) : t :=
  mk (density m) (minority_pc m) (homophily m) (G m) (random m) (running m)
     x (grid m) (happy m) (addresses m) (empty m) (agent_list m)
     (n_agents m) (unhappy_list m) (number_of_moves m) (steps m).
Definition with_grid (x : gmap nat (list nat)) (m : t) : t :=
  mk (density m) (minority_pc m) (homophily m) (G m) (random m) (running m)
     (agents m) x (happy m) (addresses m) (empty m) (agent_list m)
     (n_agents m) (unhappy_list m) (number_of_moves m) (steps m).
Definition with_happy (x : Z) (m : t) : t :=
  mk (density m) (minority_pc m) (homophily m) (G m) (random m) (running m)
     (agents m) (grid m) x (addresses m) (empty m) (agent_list m)
     (n_agents m) (unhappy_list m) (number_of_moves m) (steps m).
Definition with_addresses (x : gmap nat (list nat)) (m : t) : t :=
  mk (density m) (minority_pc m) (homophily m) (G m) (random m) (running m)
     (agents m) (grid m) (happy m) x (empty m) (agent_list m)
     (n_agents m) (unhappy_list m) (number_of_moves m) (steps m).
Definition with_empty (x : list nat) (m : t) : t :=
  mk (density m) (minority_pc m) (homophily m) (G m) (random m) (running m)
     (agents m) (grid m) (happy m) (addresses m) x (agent_list m)
     (n_agents m) (unhappy_list m) (number_of_moves m) (steps m).
Definition with_agent_list (x : list nat) (m : t) : t :=
  mk (density m) (minority_pc m) (homophily m) (G m) (random m) (running m)
     (agents m) (grid m) (happy m) (addresses m) (empty m) x
     (n_agents m) (unhappy_list m) (number_of_moves m) (steps m).
Definition with_n_agents (x : Z) (m : t) : t :=
  mk (density m) (minority_pc m) (homophily m) (G m) (random m) (running m)
     (agents m) (grid m) (happy m) (addresses m) (empty m) (agent_list m)
     x (unhappy_list m) (number_of_moves m) (steps m).
Definition with_unhappy_list (x : list nat) (m : t) : t :=
  mk (density m) (minority_pc m) (homophily m) (G m) (random m) (running m)
     (agents m) (grid m) (happy m) (addresses m) (empty m) (agent_list m)
     (n_agents m) x (number_of_moves m) (steps m).
Definition with_number_of_moves (x : Z) (m : t) : t :=
  mk (density m) (minority_pc m) (homophily m) (G m) (random m) (running m)
     (agents m) (grid m) (happy m) (addresses m) (empty m) (agent_list m)
     (n_agents m) (unhappy_list m) x (steps m).
Definition with_steps (x : Z) (m : t) : t :=
  mk (density m) (minority_pc m) (homophily m) (G m) (random m) (running m)
     (agents m) (grid m) (happy m) (addresses m) (empty m) (agent_list m)
     (n_agents m) (unhappy_list m) (number_of_moves m) x.

(** ** Python built-ins *)

(** [l.remove(x)]: drops the first occurrence, [ValueError] when absent. *)
Fixpoint list_remove (x : nat) (l : list nat) : option (list nat) :=
  match l with
  | [] => None
  | y :: l' => if decide (y = x) then Some l'
               else cons y <$> list_remove x l'
  end.

(** [random.choice(seq)] on the module-level generator. *)
Definition random_choice (seq : list nat) : M nat :=
  λ w, match seq with
       | [] => (Raise IndexError, w)
       | _ :: _ =>
           let (i, r) := randbelow (global_random w) (length seq) in
           match seq !! i with
           | Some x => (Ok x, {| global_random := r; model := model w |})
           | None => (Raise IndexError, w)
           end
       end.

(** [round(x)] of a float: to the nearest integer, ties to the even one. *)
Definition py_round (x : Q) : Z :=
  let f := Qfloor x in
  match Qcompare (x - inject_Z f) (1 # 2) with
  | Lt => f
  | Gt => (f + 1)%Z
  | Eq => if Z.even f then f else (f + 1)%Z
  end.

(** [round(x)] of a float [x]: [ValueError] on a NaN, [OverflowError] on an
    infinity. *)
Definition float_round (x : float) : exn + Z :=
  match x with
  | S754_nan => inl ValueError
  | S754_infinity _ => inl OverflowError
  | _ => inr (py_round (float_value x))
  end.

(** [n < x] for an int [n] and a float [x]: the values are compared, a
    NaN compares false. *)
Definition int_lt_float (n : Z) (x : float) : bool :=
  match x with
  | S754_nan => false
  | S754_infinity s => negb s
  | _ => negb (Qle_bool (float_value x) (inject_Z n))
  end.

(** [x[i], x[j] = x[j], x[i]] *)
Definition swap (x : list nat) (i j : nat) : list nat :=
  match x !! i, x !! j with
  | Some xi, Some xj => <[j := xi]> (<[i := xj]> x)
  | _, _ => x
  end.

(** [Random.shuffle(x)]:
    [for i in reversed(range(1, len(x))): j = randbelow(i + 1); swap]. *)
Fixpoint shuffle_from (i : nat) (r : Random) (x : list nat) : list nat * Random :=
  match i with
  | O => (x, r)
  | S i' => let (j, r') := randbelow r (S i) in
            shuffle_from i' r' (swap x i j)
  end.

Definition shuffle (r : Random) (x : list nat) : list nat * Random :=
  shuffle_from (length x - 1) r x.

(** ** Agent dereference *)

Definition deref (m : t) (a : nat) : exn + SchellingAgent.t :=
  match agents m !! a with
  | Some ag => inr ag
  | None => inl Dangling
  end.

Definition agent (a : nat) : M SchellingAgent.t :=
  let* m := get in lift (deref m a).

Definition update_agent (a : nat) (f : SchellingAgent.t → SchellingAgent.t) : M unit :=
  let* ag := agent a in
  modify (λ m, with_agents (<[a := f ag]> (agents m)) m).

(** ** networkx and Mesa's NetworkGrid *)

(** [G.neighbors(node)] *)
Definition G_neighbors (g : list (nat * list nat)) (node : option nat)
  : exn + list nat :=
  match node with
  | None => inl NetworkXError
  | Some n => match (list_to_map g : gmap nat (list nat)) !! n with
              | Some l => inr l
              | None => inl NetworkXError
              end
  end.

(** [grid.get_neighborhood(node)] with radius 1 and no centre. *)
Definition get_neighborhood (m : t) (node : option nat) : exn + list nat :=
  G_neighbors (G m) node.

(** [grid.get_cell_list_contents(cell_list)]: the agents of the cells of
    [cell_list] that are not empty, chained. *)
Fixpoint get_cell_list_contents (m : t) (cell_list : list nat) : exn + list nat :=
  match cell_list with
  | [] => inr []
  | n :: ns =>
      match grid m !! n with
      | None => inl KeyError
      | Some c =>
          match get_cell_list_contents m ns with
          | inl e => inl e
          | inr r => inr (c ++ r)
          end
      end
  end.

(** [grid.get_neighbors(node, include_center=False)] *)
Definition get_neighbors (m : t) (node : option nat) : exn + list nat :=
  match get_neighborhood m node with
  | inl e => inl e
  | inr nb => get_cell_list_contents m nb
  end.

(** [grid.place_agent(agent, node)] *)
Definition place_agent (a : nat) (node : nat) : M unit :=
  let* m := get in
  match grid m !! node with
  | None => raise KeyError
  | Some c =>
      put (with_grid (<[node := c ++ [a]]> (grid m)) m) ;;
      update_agent a (set_pos (Some node))
  end.

(** [grid.remove_agent(agent)] *)
Definition remove_agent (a : nat) : M unit :=
  let* ag := agent a in
  let* m := get in
  match SchellingAgent.pos ag with
  | None => raise KeyError
  | Some node =>
      match grid m !! node with
      | None => raise KeyError
      | Some c =>
          match list_remove a c with
          | None => raise ValueError
          | Some c' =>
              put (with_grid (<[node := c']> (grid m)) m) ;;
              update_agent a (set_pos None)
          end
      end
  end.

(** [grid.move_agent(agent, node)] *)
Definition move_agent (a : nat) (node : nat) : M unit :=
  remove_agent a ;; place_agent a node.

(** [self.model.addresses[self.pos]] *)
Definition address (m : t) (p : option nat) : exn + list nat :=
  match p with
  | None => inl KeyError
  | Some n => match addresses m !! n with
              | Some l => inr l
              | None => inl KeyError
              end
  end.

(** ** SchellingAgent *)

(** The loop
    [for neighbor in neighbors: if neighbor.type == self.type: similar_total += 1]
    started from [acc]. *)
Fixpoint similar_total (m : t) (ty : Z) (neighbors : list nat) (acc : Z)
  : exn + Z :=
  match neighbors with
  | [] => inr acc
  | n :: ns =>
      match deref m n with
      | inl e => inl e
      | inr nb =>
          similar_total m ty ns
            (if (SchellingAgent.type nb =? ty)%Z then (acc + 1)%Z else acc)
      end
  end.

(** The value of [similar] that [count] and [recount] compute. *)
Definition similar (m : t) (a : nat) : exn + Q :=
  match deref m a with
  | inl e => inl e
  | inr self =>
      match get_neighbors m (SchellingAgent.pos self) with
      | inl e => inl e
      | inr neighbors =>
          if decide (0 < length neighbors) then
            match similar_total m (SchellingAgent.type self) neighbors 0 with
            | inl e => inl e
            | inr s => inr (inject_Z s / inject_Z (Z.of_nat (length neighbors)))%Q
            end
          else inr 1%Q
      end
  end.

(** [similar >= self.model.homophily] *)
Definition verdict (m : t) (a : nat) : exn + bool :=
  match similar m a with
  | inl e => inl e
  | inr s => inr (Qle_bool (homophily m) s)
  end.

Definition count (a : nat) : M value :=
  let* m := get in
  let* v := lift (verdict m a) in
  if v then
    update_agent a (set_happy true) ;;
    modify (λ m, with_happy (happy m + 1) m) ;;
    ret VNone
  else
    update_agent a (set_happy false) ;;
    modify (λ m, with_unhappy_list (unhappy_list m ++ [a]) m) ;;
    ret VNone.

Definition recount (a : nat) : M value :=
  let* m := get in
  let* v := lift (verdict m a) in
  let* self := agent a in
  if v then
    if bool_decide (SchellingAgent.happy self = false) then
      modify (λ m, with_happy (happy m + 1) m) ;;
      update_agent a (set_happy true) ;;
      let* m := get in
      match list_remove a (unhappy_list m) with
      | None => raise ValueError
      | Some l => put (with_unhappy_list l m) ;; ret VNone
      end
    else ret VNone
  else
    if bool_decide (SchellingAgent.happy self = true) then
      modify (λ m, with_happy (happy m - 1) m) ;;
      update_agent a (set_happy false) ;;
      modify (λ m, with_unhappy_list (unhappy_list m ++ [a]) m) ;;
      ret VNone
    else ret VNone.

Definition move (a : nat) : M value :=
  let* self := agent a in
  if bool_decide (SchellingAgent.happy self = false) then
    let* m := get in
    let* cells := lift (address m (SchellingAgent.pos self)) in
    let* neighbors := lift (get_cell_list_contents m cells) in
    let* pos := random_choice (empty m) in
    (* self.model.empty.append(self.pos) *)
    match SchellingAgent.pos self with
    | None => raise KeyError
    | Some old => modify (λ m, with_empty (empty m ++ [old]) m)
    end ;;
    move_agent a pos ;;
    let* m := get in
    match list_remove pos (empty m) with
    | None => raise ValueError
    | Some e => put (with_empty e m)
    end ;;
    modify (λ m, with_number_of_moves (number_of_moves m + 1) m) ;;
    let* self := agent a in
    let* m := get in
    let* cells := lift (address m (SchellingAgent.pos self)) in
    let* new_neighbors := lift (get_cell_list_contents m cells) in
    recount a ;;
    for_each neighbors recount ;;
    for_each new_neighbors recount ;;
    ret VNone
  else ret VNone.

(** ** Schelling *)

(** The body of [Schelling.step], as written in [modelJ.py]. *)
Definition Schelling_step : M value :=
  let* m := get in
  let* one_agent := random_choice (unhappy_list m) in
  move one_agent ;;
  modify (λ m, with_running (bool_decide (happy m < n_agents m)%Z) m) ;;
  ret VNone.

(** [model.step()].  Mesa's [Model.__init__] replaces the method by
    [_wrapped_step], which does [self.steps += 1], calls the body above
    and returns [None]. *)
Definition step : M value :=
  modify (λ m, with_steps (steps m + 1) m) ;;
  Schelling_step ;;
  ret VNone.

(** [while cond: body], cut off after [fuel] iterations. *)
Fixpoint while (fuel : nat) (cond : t → bool) (body : M unit) : M unit :=
  let* m := get in
  if cond m then
    match fuel with
    | O => raise Exhausted
    | S fuel' => body ;; while fuel' cond body
    end
  else ret tt.

(** The [seed] argument: [None] or an int, with the draws of the
    generator [random.Random(seed)] that Mesa builds from it. *)
Record Seed := {
  seed_value : option Z;
  seed_draws : nat → nat }.

(** [Model.__init__(seed=seed)] also seeds numpy's [default_rng], which
    refuses a negative int with [ValueError]. *)
Definition seed_ok (seed : Seed) : bool :=
  match seed_value seed with
  | Some z => (0 <=? z)%Z
  | None => true
  end.

(** The state of the object when the loops of [__init__] start: the
    attributes assigned so far, the generator Mesa seeds, its run flag and
    its counter of steps, and a grid with an empty cell on every node. *)
Definition new_model (input_graph : list (nat * list nat))
    (density minority_pc : float) (homophily : Q) (seed : Seed) : t :=
  mk density minority_pc homophily input_graph
     (Random_seed (seed_draws seed)) true []
     (list_to_map ((λ p, (p.1, [])) <$> input_graph))
     0 ∅ [] [] 0 [] 0 0.

(** The body of [for node in self.G.nodes()]. *)
Definition register_node (node : nat) : M unit :=
  modify (λ m, with_empty (empty m ++ [node]) m) ;;
  let* m := get in
  let* neighborhood := lift (get_neighborhood m (Some node)) in
  modify (λ m, with_addresses (<[node := neighborhood]> (addresses m)) m).

(** The common body of the two spawning loops. *)
Definition spawn (agent_type : Z) : M unit :=
  let* m := get in
  let a := length (agents m) in
  put (with_agents (agents m ++ [SchellingAgent.mk agent_type None false]) m) ;;
  let* m := get in
  let* node := random_choice (empty m) in
  place_agent a node ;;
  let* m := get in
  match list_remove node (empty m) with
  | None => raise ValueError
  | Some e => put (with_empty e m)
  end ;;
  modify (λ m, with_agent_list (agent_list m ++ [a]) m) ;;
  modify (λ m, with_n_agents (n_agents m + 1) m).

(** [self.agents.shuffle_do(method)] *)
Definition shuffle_do (method : nat → M value) : M unit :=
  let* m := get in
  let (order, r) := shuffle (random m) (seq 0 (length (agents m))) in
  put (with_random r m) ;;
  for_each order method.

(** [total_agents = self.density * self.G.number_of_nodes()] *)
Definition total_agents (m : t) : exn + float :=
  match float_of_int (Z.of_nat (length (G m))) with
  | inl e => inl e
  | inr n => inr (float_mul (density m) n)
  end.

(** [agents0_count = round(total_agents * minority_pc)] *)
Definition agents0_count (m : t) (total : float) : exn + Z :=
  float_round (float_mul total (minority_pc m)).

(** The conditions of the two spawning loops. *)
Definition cond0 (count0 : Z) : t → bool :=
  λ m', (n_agents m' <? count0)%Z.
Definition cond1 (total : float) : t → bool :=
  λ m', int_lt_float (n_agents m') total.

Definition init_body : M unit :=
  let* m := get in
  for_each (G m).*1 register_node ;;
  let* total := lift (total_agents m) in
  let* count0 := lift (agents0_count m total) in
  let fuel := S (length (G m)) in
  while fuel (cond0 count0) (spawn 0) ;;
  while fuel (cond1 total) (spawn 1) ;;
  shuffle_do count.

(** [Schelling(input_graph, density, minority_pc, homophily, seed)], run
    with the module-level generator in state [g].  When
    [super().__init__(seed=seed)] raises, no object is built: the store
    returned with the exception holds the attributes of no object a caller
    can reach. *)
Definition Schelling_init (input_graph : list (nat * list nat))
    (density minority_pc : float) (homophily : Q) (seed : Seed) (g : Random)
  : outcome unit * world :=
  let w := {| global_random := g;
              model := new_model input_graph density minority_pc homophily
                         seed |} in
  if seed_ok seed then init_body w else (Raise ValueError, w).

(** [k] calls of [step] in a row. *)
Fixpoint steps (k : nat) : M unit :=
  match k with
  | O => ret tt
  | S k' => step ;; steps k'
  end.

(** Construction followed by [k] calls of [step]. *)
Definition run (input_graph : list (nat * list nat))
    (density minority_pc : float) (homophily : Q) (seed : Seed) (g : Random)
    (k : nat) : outcome unit * world :=
  match Schelling_init input_graph density minority_pc homophily seed g with
  | (Ok _, w) => steps k w
  | r => r
  end.

(** ** Concrete worlds *)

(** The path on five nodes and the complete graph on four. *)
Definition path5 : list (nat * list nat) :=
  [(0, [1]); (1, [0; 2]); (2, [1; 3]); (3, [2; 4]); (4, [3])]%nat.

Definition K4 : list (nat * list nat) :=
  [(0, [1; 2; 3]); (1, [0; 2; 3]); (2, [0; 1; 3]); (3, [0; 1; 2])]%nat.

(** Five nodes and no edge. *)
Definition isolated5 : list (nat * list nat) :=
  [(0, []); (1, []); (2, []); (3, []); (4, [])]%nat.

(** Twenty-five nodes and no edge. *)
Definition isolated25 : list (nat * list nat) :=
  (λ n, (n, [])) <$> seq 0 25.

(** The tape that starts with the draws of [l] and goes on with zeros. *)
Definition draws (l : list nat) : nat → nat := λ i, nth i l 0%nat.

(** The seed [z], the generator seeded with it drawing [l]. *)
Definition seeded (z : Z) (l : list nat) : Seed :=
  {| seed_value := Some z; seed_draws := draws l |}.

(** Three agents on [path5]: agent 0 of type 0 on node 1, agent 1 of type 1
    on node 0, agent 2 of type 1 on node 3; agents 0 and 1 are unhappy. *)
Definition path5_world : world :=
  (Schelling_init path5 (float_of_ratio 3 5) (float_of_ratio 1 3) (1 # 2)
     (seeded 42 []) (Random_seed (draws [1; 0; 1; 1]))).2.

(** The same placement, with draws that make [step] move agent 1 to
    node 4, after which every agent is happy. *)
Definition unsettled_world : world :=
  (Schelling_init path5 (float_of_ratio 3 5) (float_of_ratio 1 3) (1 # 2)
     (seeded 42 []) (Random_seed (draws [1; 0; 1; 0; 1]))).2.

Definition settled_world : world :=
  (run path5 (float_of_ratio 3 5) (float_of_ratio 1 3) (1 # 2)
     (seeded 42 []) (Random_seed (draws [1; 0; 1; 0; 1])) 1).2.

(** [path5_world] with the threshold lowered to 0: the counters are still
    consistent, and the unhappy agents 0 and 1 are due to become happy. *)
Definition relaxed_world : world :=
  let m := model path5_world in
  {| global_random := global_random path5_world;
     model := mk (density m) (minority_pc m) 0 (G m) (random m) (running m)
                (agents m) (grid m) (happy m) (addresses m) (empty m)
                (agent_list m) (n_agents m) (unhappy_list m)
                (number_of_moves m) (Schelling.steps m) |}.

(** Three agents on [K4], after two steps. *)
Definition K4_world : world :=
  (run K4 (float_of_ratio 3 4) (float_of_ratio 1 3) (1 # 2) (seeded 42 [])
     (Random_seed (draws [0; 1; 2; 3; 4; 5; 6])) 2).2.

(** * Vocabulary of the properties *)

(** ** The effect of one [recount] *)

(** The store once [recount] has found the unhappy agent [a] happy: the
    counter is up, the flag is set and [a] is out of [unhappy_list], which
    now is [l]. *)
Definition flip_to_happy (a : nat) (self : SchellingAgent.t) (l : list nat)
    (m : t) : t :=
  with_unhappy_list l
    (with_agents (<[a := set_happy true self]> (agents m))
       (with_happy (happy m + 1) m)).

(** The store once [recount] has found the happy agent [a] unhappy. *)
Definition flip_to_unhappy (a : nat) (self : SchellingAgent.t) (m : t) : t :=
  with_unhappy_list (unhappy_list m ++ [a])
    (with_agents (<[a := set_happy false self]> (agents m))
       (with_happy (happy m - 1) m)).

(** The three ways a [recount] of agent [a] can return: nothing to do, a
    flip to happy, a flip to unhappy. *)
Inductive recount_effect (a : nat) (m : t) : t → Prop :=
| recount_same self b :
    agents m !! a = Some self → verdict m a = inr b →
    SchellingAgent.happy self = b →
    recount_effect a m m
| recount_up self l :
    agents m !! a = Some self → verdict m a = inr true →
    SchellingAgent.happy self = false →
    list_remove a (unhappy_list m) = Some l →
    recount_effect a m (flip_to_happy a self l m)
| recount_down self :
    agents m !! a = Some self → verdict m a = inr false →
    SchellingAgent.happy self = true →
    recount_effect a m (flip_to_unhappy a self m).

(** Unfold the monad in a hypothesis and reduce. *)
Ltac mred H :=
  cbv beta iota delta
    [bind modify update_agent agent get lift deref put ret raise] in H;
  cbn in H.

(** ** Occupancy, flags and positions *)

(** What a verdict reads of an agent: its type and its position. *)
Definition key (ag : SchellingAgent.t) : Z * option nat :=
  (SchellingAgent.type ag, SchellingAgent.pos ag).

(** Two stores have the same occupancy when they agree on the topology, on
    the threshold, on the cells and on the type and position of every agent:
    they may differ in flags, counters and lists. *)
Definition same_occupancy (m m' : t) : Prop :=
  homophily m' = homophily m ∧ G m' = G m ∧ grid m' = grid m ∧
  key <$> agents m' = key <$> agents m.

(** The [happy] flag and the position of agent [a], if the store holds it. *)
Definition flag (m : t) (a : nat) : option bool :=
  SchellingAgent.happy <$> agents m !! a.

Definition position (m : t) (a : nat) : option (option nat) :=
  SchellingAgent.pos <$> agents m !! a.

(** ** Invariants *)

(** [happy] counts the agents that are not listed as unhappy, and
    [unhappy_list] lists, once each, the agents whose flag is [False]. *)
Definition counters_consistent (m : t) : Prop :=
  n_agents m = Z.of_nat (length (agents m)) ∧
  (happy m + Z.of_nat (length (unhappy_list m)))%Z = n_agents m ∧
  NoDup (unhappy_list m) ∧
  Forall (λ a, flag m a = Some false) (unhappy_list m) ∧
  Forall (λ a, flag m a = Some false → a ∈ unhappy_list m)
    (seq 0 (length (agents m))).

(** Every cell lists each of its agents once, and an agent listed in the
    cell of node [n] has [pos == n]. *)
Definition grid_consistent (m : t) : Prop :=
  map_Forall (λ n c, NoDup c ∧ Forall (λ b, position m b = Some (Some n)) c)
    (grid m).

(** ** The effect of one [move] *)

(** The store once the agent [a] has left the cell of [old] (that now holds
    [c']) for the cell of [pos] (that held [c2]) and the bookkeeping of the
    empty nodes and of the number of moves is done, before any recount. *)
Definition relocated (a : nat) (self : SchellingAgent.t) (old pos : nat)
    (c' c2 e : list nat) (m : t) : t :=
  with_number_of_moves (number_of_moves m + 1)
    (with_empty e
       (with_agents (<[a := set_pos (Some pos) self]> (agents m))
          (with_grid (<[pos := c2 ++ [a]]> (<[old := c']> (grid m))) m))).

(** Everything a [move] of an unhappy agent [a] that returns has gone
    through, from the world [w] to the world [w']. *)
Record relocation (a : nat) (w w' : world) := {
  rl_self : SchellingAgent.t;
  rl_old : nat;
  rl_pos : nat;
  rl_neighbors : list nat;
  rl_new_neighbors : list nat;
  rl_cells : list nat;
  rl_new_cells : list nat;
  rl_c : list nat;
  rl_c' : list nat;
  rl_c2 : list nat;
  rl_e : list nat;
  rl_w0 : world;
  rl_w1 : world;
  rl_w2 : world;
  rl_w3 : world;
  rl_agent : agents (model w) !! a = Some rl_self;
  rl_unhappy : SchellingAgent.happy rl_self = false;
  rl_at : SchellingAgent.pos rl_self = Some rl_old;
  rl_address : addresses (model w) !! rl_old = Some rl_cells;
  rl_contents : get_cell_list_contents (model w) rl_cells = inr rl_neighbors;
  rl_choice : random_choice (empty (model w)) w = (Ok rl_pos, rl_w0);
  rl_cell : grid (model w) !! rl_old = Some rl_c;
  rl_leave : list_remove a rl_c = Some rl_c';
  rl_target : <[rl_old := rl_c']> (grid (model w)) !! rl_pos = Some rl_c2;
  rl_taken : list_remove rl_pos (empty (model w) ++ [rl_old]) = Some rl_e;
  rl_moved : rl_w1 =
    {| global_random := global_random rl_w0;
       model := relocated a rl_self rl_old rl_pos rl_c' rl_c2 rl_e (model w) |};
  rl_new_address : addresses (model w) !! rl_pos = Some rl_new_cells;
  rl_new_contents :
    get_cell_list_contents (model rl_w1) rl_new_cells = inr rl_new_neighbors;
  rl_recount_self : recount a rl_w1 = (Ok VNone, rl_w2);
  rl_recount_old : for_each rl_neighbors recount rl_w2 = (Ok tt, rl_w3);
  rl_recount_new : for_each rl_new_neighbors recount rl_w3 = (Ok tt, w') }.


(** Name the parts of a relocation. *)
Ltac open_relocation r :=
  destruct r as [self src dst nbs nnbs cells ncells c c' c2 e w0 w1 w2 w3
                 Hag Hunh Hat Hadr Hcont Hch Hcell Hleave Htarget Htaken
                 Hmoved Hnadr Hncont Hr1 Hr2 Hr3].

(** The invariant of the worlds the simulation goes through. *)
Definition Inv (m : t) : Prop := counters_consistent m ∧ grid_consistent m.

(** The world once Mesa's wrapper has counted a call of [step]. *)
Definition ticked (w : world) : world :=
  {| global_random := global_random w;
     model := with_steps (Schelling.steps (model w) + 1) (model w) |}.

(** ** Construction *)

(** The store after one pass through the body of a spawning loop. *)
Definition spawned (agent_type : Z) (node : nat) (c e : list nat) (m : t) : t :=
  with_n_agents (n_agents m + 1)
    (with_agent_list (agent_list m ++ [length (agents m)])
       (with_empty e
          (with_agents
             (agents m ++ [SchellingAgent.mk agent_type (Some node) false])
             (with_grid (<[node := c ++ [length (agents m)]]> (grid m)) m)))).

(** The store after [count] on agent [a], whose object was [self], when the
    verdict is [b]. *)
Definition counted (a : nat) (self : SchellingAgent.t) (b : bool) (m : t) : t :=
  if b then
    with_happy (happy m + 1)
      (with_agents (<[a := set_happy true self]> (agents m)) m)
  else
    with_unhappy_list (unhappy_list m ++ [a])
      (with_agents (<[a := set_happy false self]> (agents m)) m).

(** Before the initial counting: nobody is counted and the grid is
    consistent. *)
Definition PreInv (m : t) : Prop :=
  n_agents m = Z.of_nat (length (agents m)) ∧ happy m = 0%Z ∧
  unhappy_list m = [] ∧ grid_consistent m.

(** During the initial counting, [done] being the agents counted so far. *)
Definition CInv (done : list nat) (m : t) : Prop :=
  n_agents m = Z.of_nat (length (agents m)) ∧
  (happy m + Z.of_nat (length (unhappy_list m)))%Z = Z.of_nat (length done) ∧
  NoDup (unhappy_list m) ∧
  ∀ a, a ∈ unhappy_list m ↔ a ∈ done ∧ flag m a = Some false.

(** ** Decidability

    The invariants are decidable, so they can be checked on a given
    world. *)
#[global] Instance counters_consistent_dec m : Decision (counters_consistent m).
Proof. unfold counters_consistent. apply _. Defined.

#[global] Instance grid_consistent_dec m : Decision (grid_consistent m).
Proof. unfold grid_consistent. apply _. Defined.

#[global] Instance Inv_dec m : Decision (Inv m).
Proof. unfold Inv. apply _. Defined.

(** ** Counting and topology *)

(** The number of agents of [neighbors] whose type is [ty]. *)
Definition same_type_count (m : t) (ty : Z) (neighbors : list nat) : nat :=
  length (filter (λ n, SchellingAgent.type <$> agents m !! n = Some ty) neighbors).

(** The agent that stands on node [n], if any: the first agent of the store
    whose [pos] is [n]. *)
Definition occupant (m : t) (n : nat) : option nat :=
  fst <$> list_find (λ ag, SchellingAgent.pos ag = Some n) (agents m).

(** The occupied neighbours of agent [a]: the agents that stand on the
    nodes adjacent, in the graph, to the node [a] stands on, in the order
    of its adjacency list. *)
Definition occupied_neighbors (m : t) (a : nat) : list nat :=
  match agents m !! a with
  | Some self =>
      match SchellingAgent.pos self with
      | Some p =>
          omap (occupant m)
               (default [] ((list_to_map (G m) : gmap nat (list nat)) !! p))
      | None => []
      end
  | None => []
  end.

(** The fraction of the occupied neighbours of [a] that have its type, and 1
    when it has none. *)
Definition similarity_fraction (m : t) (a : nat) : Q :=
  let neighbors := occupied_neighbors m a in
  if decide (neighbors = []) then 1%Q
  else (inject_Z (Z.of_nat (length
          (filter (λ b, SchellingAgent.type <$> agents m !! b
                        = SchellingAgent.type <$> agents m !! a) neighbors)))
        / inject_Z (Z.of_nat (length neighbors)))%Q.

(** A well-formed topology: no node is listed twice and adjacency lists
    mention nodes of the graph only. *)
Definition graph_ok (g : list (nat * list nat)) : Prop :=
  NoDup g.*1 ∧ Forall (λ nl, Forall (λ p, p ∈ g.*1) nl.2) g.

#[global] Instance graph_ok_dec g : Decision (graph_ok g).
Proof. unfold graph_ok. apply _. Defined.

(** The store fits the topology: the graph is well formed, the grid is
    consistent and has a cell for every node, every agent is listed in the
    cell of the node it stands on, [addresses] caches a neighbourhood made
    of nodes for every node, and the empty nodes are nodes. *)
Record Located (m : t) : Prop := {
  lo_graph : graph_ok (G m);
  lo_grid : grid_consistent m;
  lo_cells : ∀ n, n ∈ (G m).*1 → is_Some (grid m !! n);
  lo_agents : ∀ a ag, agents m !! a = Some ag →
              ∃ p c, SchellingAgent.pos ag = Some p ∧ p ∈ (G m).*1 ∧
                     grid m !! p = Some c ∧ a ∈ c;
  lo_addresses : ∀ n, n ∈ (G m).*1 →
                 ∃ l, addresses m !! n = Some l ∧ ∀ p, p ∈ l → p ∈ (G m).*1;
  lo_empty : ∀ n, n ∈ empty m → n ∈ (G m).*1 }.

(** What every world of a run satisfies. *)
Definition Sound (m : t) : Prop := counters_consistent m ∧ Located m.

(** Same occupancy, same cache of neighbourhoods, same empty nodes. *)
Definition same_frame (m m' : t) : Prop :=
  same_occupancy m m' ∧ addresses m' = addresses m ∧ empty m' = empty m.

(** While agents are being placed. *)
Record Placing (m : t) : Prop := {
  pl_pre : PreInv m;
  pl_located : Located m;
  pl_nodup : NoDup (empty m);
  pl_free : ∀ n, n ∈ empty m → grid m !! n = Some [];
  pl_placed : ∀ a ag, agents m !! a = Some ag →
              ∃ p, SchellingAgent.pos ag = Some p ∧ p ∈ (G m).*1 ∧ p ∉ empty m;
  pl_distinct : NoDup (SchellingAgent.pos <$> agents m);
  pl_room : length (empty m) + length (agents m) = length (G m);
  pl_cells : ∀ n, n ∈ (G m).*1 → is_Some (grid m !! n);
  pl_nodes : ∀ n, n ∈ empty m → n ∈ (G m).*1 }.

(** The store [m'] is [m] after [k] more agents of type [ty] were
    spawned. *)
Definition placed_since (ty : Z) (k : nat) (m m' : t) : Prop :=
  Placing m' ∧
  (∃ new, agents m' = agents m ++ new ∧ length new = k ∧
          Forall (λ ag, SchellingAgent.type ag = ty) new) ∧
  n_agents m' = (n_agents m + Z.of_nat k)%Z ∧
  length (empty m) = length (empty m') + k ∧
  G m' = G m ∧ density m' = density m ∧ minority_pc m' = minority_pc m ∧
  homophily m' = homophily m ∧ random m' = random m.

(** What the two spawning loops aim at, for a graph [g], a density [d] and
    a minority fraction [mp]: [agents0_count] for the first, and for the
    second the ceiling of the float [total_agents], up to which
    [n_agents < total_agents] holds; or the exception that computing them
    raises. *)
Definition wanted (g : list (nat * list nat)) (d mp : float) : exn + Z * Z :=
  match float_of_int (Z.of_nat (length g)) with
  | inl e => inl e
  | inr n =>
      let total := float_mul d n in
      match float_round (float_mul total mp) with
      | inl e => inl e
      | inr count0 => inr (count0, Qceiling (float_value total))
      end
  end.

(** How many agents the first and the second spawning loop create. *)
Definition first_count (count0 : Z) : nat := Z.to_nat count0.
Definition rest_count (count0 ceiling : Z) : nat :=
  Z.to_nat (ceiling - Z.of_nat (first_count count0)).

(** How construction ends. *)
Definition construction_outcome (g : list (nat * list nat)) (d mp : float)
    (seed : Seed) : outcome unit :=
  if seed_ok seed then
    match wanted g d mp with
    | inl e => Raise e
    | inr (count0, ceiling) =>
        if first_count count0 + rest_count count0 ceiling <=? length g
        then Ok tt else Raise IndexError
    end
  else Raise ValueError.

(** [k0] agents of type 0 were created first, then [k1] agents of type 1;
    every agent stands on a node of [g] and no two share a node. *)
Definition placement (g : list (nat * list nat)) (k0 k1 : nat) (m : t) : Prop :=
  n_agents m = Z.of_nat (k0 + k1) ∧
  SchellingAgent.type <$> agents m = replicate k0 0%Z ++ replicate k1 1%Z ∧
  NoDup (SchellingAgent.pos <$> agents m) ∧
  Forall (λ p, ∃ n, p = Some n ∧ n ∈ g.*1) (SchellingAgent.pos <$> agents m).

(** The agents that stand elsewhere in [m'] than in [m], each with its new
    position: after one [step], the agent that moved and its destination. *)
Definition moves_between (m m' : t) : list (nat * option nat) :=
  filter (λ ap, position m ap.1 ≠ Some ap.2)
         (imap (λ a ag, (a, SchellingAgent.pos ag)) (agents m')).

(** * Vocabulary of the further properties *)

(** ** The driver of [py_api.py] *)

(** [run_schelling_process_py(cs, pl, density, homophily, seed)], from the
    graph [G1] that networkx builds for [cs] and [pl] on: construction with
    [minority_pc=0.5], then [while m.happy < m.n_agents: m.step()], cut off
    after [fuel] iterations, then [return m.number_of_moves]. *)
Definition run_schelling_process_py (G1 : list (nat * list nat))
    (density : float) (homophily : Q) (seed : Seed) (fuel : nat) (g : Random)
  : outcome Z * world :=
  match Schelling_init G1 density (float_of_ratio 1 2) homophily seed g with
  | (Ok _, w) =>
      (while fuel (λ m, (happy m <? n_agents m)%Z) (step ;; ret tt) ;;
       let* m := get in
       ret (number_of_moves m)) w
  | (Raise e, w) => (Raise e, w)
  end.

(** ** Occupancy of the nodes *)

(** An undirected topology: a node is listed by each of its neighbours. *)
Definition graph_sym (g : list (nat * list nat)) : Prop :=
  Forall (λ nl,
            Forall (λ p, nl.1 ∈ default [] ((list_to_map g : gmap nat (list nat)) !! p))
                   nl.2) g.

#[global] Instance graph_sym_dec g : Decision (graph_sym g).
Proof. unfold graph_sym. apply _. Defined.

(** The bookkeeping of the empty nodes: [empty] lists, once each, the nodes
    whose cell holds nobody, a cell holds one agent at most, and the empty
    nodes and the agents add up to the nodes of the graph. *)
Record Occupancy (m : t) : Prop := {
  oc_nodup : NoDup (empty m);
  oc_empty : ∀ n, n ∈ empty m ↔ grid m !! n = Some [];
  oc_single : ∀ n c, grid m !! n = Some c → length c ≤ 1;
  oc_count : length (empty m) + length (agents m) = length (G m) }.

(** [addresses] caches, for every node, the neighbourhood the graph gives. *)
Definition Agree (m : t) : Prop :=
  ∀ n, n ∈ (G m).*1 →
       addresses m !! n = (list_to_map (G m) : gmap nat (list nat)) !! n.

(** Soundness together with the bookkeeping of the empty nodes and of the
    neighbourhoods. *)
Definition Tidy (m : t) : Prop := Sound m ∧ Occupancy m ∧ Agree m.

(** ** Flags against a count from scratch *)

#[global] Instance exn_eq_dec : EqDecision exn.
Proof. solve_decision. Defined.

(** The flag of agent [a] is what a recount from scratch would find. *)
Definition fresh_at (m : t) (a : nat) : Prop :=
  ∃ self, agents m !! a = Some self ∧
          verdict m a = inr (SchellingAgent.happy self).

Definition Fresh (m : t) : Prop :=
  ∀ a, a < length (agents m) → fresh_at m a.

(** The agents a count from scratch finds happy. *)
Definition satisfied (m : t) : list nat :=
  filter (λ a, verdict m a = inr true) (seq 0 (length (agents m))).

(** Every agent is flagged unhappy. *)
Definition all_unhappy (m : t) : Prop :=
  ∀ a self, agents m !! a = Some self → SchellingAgent.happy self = false.

(** ** Generators and the attributes a step leaves alone *)

(** The attributes no recount touches: the number of moves, the population
    and the model's own generator. *)
Definition ledger (m : t) : Z * Z * list nat * Random * list Z :=
  (number_of_moves m, n_agents m, agent_list m, random m,
   SchellingAgent.type <$> agents m).

(** The generator after one more draw. *)
Definition advance (r : Random) : Random :=
  {| tape := tape r; cursor := S (cursor r) |}.

(** The index [random.choice] draws for a sequence of length [n]. *)
Definition drawn (r : Random) (n : nat) : nat := tape r (cursor r) `mod` n.

(** The nodes that [k] rounds of [node = random.choice(empty)] and
    [empty.remove(node)] take from the list [empty] with the generator [r],
    with the list and the generator they leave. *)
Fixpoint draw_nodes (r : Random) (empty : list nat) (k : nat)
  : list nat * list nat * Random :=
  match k with
  | O => ([], empty, r)
  | S k' =>
      match empty !! drawn r (length empty) with
      | Some node =>
          let '(nodes, e, r') :=
            draw_nodes (advance r) (default empty (list_remove node empty)) k' in
          (node :: nodes, e, r')
      | None => ([], empty, r)
      end
  end.

(** The agents stand, in the order of their creation, on the nodes drawn
    from [e0] with [r0]. *)
Definition Drawn (r0 : Random) (e0 : list nat) (w : world) : Prop :=
  ∃ nodes,
    draw_nodes r0 e0 (length (agents (model w)))
      = (nodes, empty (model w), global_random w) ∧
    SchellingAgent.pos <$> agents (model w) = Some <$> nodes.

(** A computation that neither reads nor writes the model's own
    generator: run with another generator in the model, it does the same
    and leaves that generator in place. *)
Definition blind {A} (c : M A) : Prop :=
  ∀ gr m x,
    c {| global_random := gr; model := with_random x m |} =
    let (o, w) := c {| global_random := gr; model := m |} in
    (o, {| global_random := global_random w;
           model := with_random x (model w) |}).

(** * The benchmark scripts *)

(** ** [scripts/bench_hitting_time.py] *)

Module bench_hitting_time.

Definition milestones : list Z :=
  [50; 100; 200; 500; 1000; 2000; 5000; 10000;
   25000; 50000; 100000; 250000; 500000]%Z.

(** [sorted(set(xs))] for integers. *)
Definition sorted_set (xs : list Z) : list Z :=
  merge_sort Z.le (elements (list_to_set xs : gset Z)).

(** [compute_sizes(min_total, max_total)] *)
Definition compute_sizes (min_total max_total : Z) : list Z :=
  sorted_set
    (filter (λ x, (min_total <= x)%Z ∧ (x <= max_total)%Z) milestones).

(** [derive_lollipop(total)] *)
Definition derive_lollipop (total : Z) : Z * Z :=
  if (total <? 10)%Z then (1, 9)%Z
  else
    let c := Z.max 1 (total / 10) in
    let p := (9 * c)%Z in
    (c, p).

End bench_hitting_time.

(** ** [scripts/py_schelling_mp_runner.py] *)

Module py_schelling_mp_runner.

Inductive family := lollipop | clique_only.

(** The options [parse_args] returns that the sweep reads. *)
Record Namespace := {
  args_family : family;
  cs0 : Z;
  step : Z;
  count : Z;
  num : Z;
  den : Z;
  off : Z;
  pl_fixed : Z;
  iterations : Z;
  density : Q;
  homophily : Q;
  seed : Z;
  batch : Z }.

(** The defaults of [parse_args]. *)
Definition defaults : Namespace :=
  {| args_family := lollipop; cs0 := 50; step := 50; count := 10;
     num := 9; den := 1; off := 0; pl_fixed := 10000; iterations := 10;
     density := 8 # 10; homophily := 1 # 2; seed := 42; batch := 1 |}.

Inductive error := ZeroDivisionError.

(** [a // b] *)
Definition floordiv (a b : Z) : error + Z :=
  if (b =? 0)%Z then inl ZeroDivisionError else inr (a / b)%Z.

(** The body of the loop of [gen_sizes], for the index [i]. *)
Definition size_at (args : Namespace) (i : Z) : error + Z * Z :=
  let cs := (cs0 args + i * step args)%Z in
  match args_family args with
  | lollipop =>
      match floordiv (cs * num args) (den args) with
      | inl e => inl e
      | inr q => inr (cs, (q + off args)%Z)
      end
  | clique_only => inr (cs, pl_fixed args)
  end.

(** [for i in range(n): ... sizes.append((cs, pl))], from index [i] on. *)
Fixpoint gen_sizes_from (args : Namespace) (i : Z) (n : nat)
    (sizes : list (Z * Z)) : error + list (Z * Z) :=
  match n with
  | O => inr sizes
  | S n' =>
      match size_at args i with
      | inl e => inl e
      | inr s => gen_sizes_from args (i + 1) n' (sizes ++ [s])
      end
  end.

(** [gen_sizes(args)] *)
Definition gen_sizes (args : Namespace) : error + list (Z * Z) :=
  gen_sizes_from args 0 (Z.to_nat (count args)) [].

Record Chunk := {
  chunk_cs : Z;
  chunk_pl : Z;
  runs : Z;
  chunk_density : Q;
  chunk_homophily : Q;
  seed0 : Z }.

(** The [while remaining > 0] loop of [main], cut off after [fuel]
    iterations ([None]). *)
Fixpoint chunk_loop (fuel : nat) (args : Namespace) (cs pl seed0 : Z)
    (remaining : Z) (chunks : list Chunk) : option (list Chunk) :=
  if (0 <? remaining)%Z then
    match fuel with
    | O => None
    | S fuel' =>
        let b := Z.min (Z.max 1 (batch args)) remaining in
        chunk_loop fuel' args cs pl seed0 (remaining - b)
          (chunks ++ [{| chunk_cs := cs; chunk_pl := pl; runs := b;
                         chunk_density := density args;
                         chunk_homophily := homophily args;
                         seed0 := seed0 |}])
    end
  else Some chunks.

(** The body of [for idx, (cs, pl) in enumerate(sizes)] in [main]. *)
Definition chunks_of_size (fuel : nat) (args : Namespace) (size : Z * Z)
    (chunks : list Chunk) : option (list Chunk) :=
  let (cs, pl) := size in
  let remaining := iterations args in
  let seed0 :=
    Z.lxor (Z.lxor (seed args) (cs * 1315423911)) (pl * 2654435761) in
  chunk_loop fuel args cs pl seed0 remaining chunks.

(** "Build work chunks" in [main]. *)
Fixpoint build_chunks (fuel : nat) (args : Namespace) (sizes : list (Z * Z))
    (chunks : list Chunk) : option (list Chunk) :=
  match sizes with
  | [] => Some chunks
  | size :: sizes' =>
      match chunks_of_size fuel args size chunks with
      | None => None
      | Some chunks' => build_chunks fuel args sizes' chunks'
      end
  end.

(** The seeds [_worker(chunk)] passes to [run_schelling_process_py], call
    after call. *)
Definition worker_seeds (chunk : Chunk) : list Z :=
  (λ j, (seed0 chunk + Z.of_nat j)%Z) <$> seq 0 (Z.to_nat (runs chunk)).

End py_schelling_mp_runner.

(** The pair [gen_sizes] computes for the index [i], when no division
    fails. *)
Definition sweep_size (args : py_schelling_mp_runner.Namespace) (i : nat)
  : Z * Z :=
  let cs := (py_schelling_mp_runner.cs0 args
             + Z.of_nat i * py_schelling_mp_runner.step args)%Z in
  (cs, match py_schelling_mp_runner.args_family args with
       | py_schelling_mp_runner.lollipop =>
           (cs * py_schelling_mp_runner.num args
            / py_schelling_mp_runner.den args
            + py_schelling_mp_runner.off args)%Z
       | py_schelling_mp_runner.clique_only =>
           py_schelling_mp_runner.pl_fixed args
       end).

(** The runs of a list of chunks, added up. *)
Definition total_runs (chunks : list py_schelling_mp_runner.Chunk) : Z :=
  foldr Z.add 0%Z (py_schelling_mp_runner.runs <$> chunks).

(** * Reasoning about methods *)

Lemma bind_Ok {A B} (c : M A) (k : A → M B) w v w' :
  bind c k w = (Ok v, w') ↔ ∃ u w1, c w = (Ok u, w1) ∧ k u w1 = (Ok v, w').
Proof.
  unfold bind. split.
  - destruct (c w) as [[u|e] w1]; [eauto | discriminate].
  - intros (u & w1 & -> & Hk). exact Hk.
Qed.

Lemma bind_eq {A B} (c : M A) (k : A → M B) w u w1 :
  c w = (Ok u, w1) → bind c k w = k u w1.
Proof. unfold bind. now intros ->. Qed.

Lemma bind_Raise {A B} (c : M A) (k : A → M B) w e w1 :
  c w = (Raise e, w1) → bind c k w = (Raise e, w1).
Proof. unfold bind. now intros ->. Qed.

Lemma lift_Ok {A} (r : exn + A) w v w' :
  lift r w = (Ok v, w') ↔ r = inr v ∧ w' = w.
Proof.
  destruct r; unfold lift, raise, ret; split.
  - discriminate.
  - intros [? _]; discriminate.
  - intros [= -> ->]; auto.
  - intros [[= ->] ->]; auto.
Qed.

Lemma agent_Ok a w self w' :
  agent a w = (Ok self, w') ↔ agents (model w) !! a = Some self ∧ w' = w.
Proof.
  unfold agent, get. rewrite bind_Ok. split.
  - intros (m & w1 & [= <- <-] & H). apply lift_Ok in H as [H ->].
    unfold deref in H. destruct (agents (model w) !! a); naive_solver.
  - intros [H ->]. exists (model w), w. split; [done|].
    apply lift_Ok. unfold deref. now rewrite H.
Qed.

(** * Moving a happy agent *)

Lemma move_flag_set w a self :
  agents (model w) !! a = Some self →
  SchellingAgent.happy self = true →
  move a w = (Ok VNone, w).
Proof.
  intros Ha Hh. unfold move.
  rewrite (bind_eq _ _ w self w) by now apply agent_Ok.
  rewrite Hh. reflexivity.
Qed.

(** C10.  [move] on an agent whose [happy] flag is set returns at once:
    the world it leaves is the world it was given, so no position, no flag,
    no counter, no list and no generator has changed. *)
Theorem move_happy_is_noop (w : world) (a : nat) (self : SchellingAgent.t) :
  agents (model w) !! a = Some self →
  SchellingAgent.happy self = true →
  move a w = (Ok VNone, w).
Proof. apply move_flag_set. Qed.

(** * What one [recount] does *)

Lemma recount_Ok a w v w' :
  recount a w = (Ok v, w') →
  v = VNone ∧ global_random w' = global_random w ∧
  recount_effect a (model w) (model w').
Proof.
  unfold recount. rewrite bind_Ok. intros (m & w1 & [= <- <-] & H).
  apply bind_Ok in H as (b & w1 & Hb & H). apply lift_Ok in Hb as [Hb ->].
  apply bind_Ok in H as (self & w1 & Hs & H). apply agent_Ok in Hs as [Hs ->].
  destruct b, (SchellingAgent.happy self) eqn:Hh;
    repeat case_bool_decide; try done.
  - injection H as <- <-. eauto using recount_same.
  - mred H. rewrite Hs in H. mred H.
    destruct (list_remove a (unhappy_list (model w))) as [l|] eqn:Hl;
      mred H; [|discriminate].
    injection H as <- <-. cbn. eauto using recount_up.
  - mred H. rewrite Hs in H. mred H.
    injection H as <- <-. cbn. eauto using recount_down.
  - injection H as <- <-. eauto using recount_same.
Qed.

Lemma recount_same_run a w self b :
  agents (model w) !! a = Some self → verdict (model w) a = inr b →
  SchellingAgent.happy self = b →
  recount a w = (Ok VNone, w).
Proof.
  intros Hs Hb Hh. unfold recount.
  rewrite (bind_eq _ _ w (model w) w) by done.
  rewrite (bind_eq _ _ w b w) by now apply lift_Ok.
  rewrite (bind_eq _ _ w self w) by now apply agent_Ok.
  rewrite Hh. destruct b; repeat case_bool_decide; done.
Qed.

Lemma recount_up_run a w self l :
  agents (model w) !! a = Some self → verdict (model w) a = inr true →
  SchellingAgent.happy self = false →
  list_remove a (unhappy_list (model w)) = Some l →
  recount a w =
    (Ok VNone, {| global_random := global_random w;
                  model := flip_to_happy a self l (model w) |}).
Proof.
  intros Hs Hb Hh Hl. unfold recount.
  rewrite (bind_eq _ _ w (model w) w) by done.
  rewrite (bind_eq _ _ w true w) by now apply lift_Ok.
  rewrite (bind_eq _ _ w self w) by now apply agent_Ok.
  rewrite Hh. case_bool_decide; [|done].
  cbv beta iota delta
    [bind modify update_agent agent get lift deref put ret raise]; cbn.
  rewrite Hs; cbn. now rewrite Hl.
Qed.

Lemma recount_down_run a w self :
  agents (model w) !! a = Some self → verdict (model w) a = inr false →
  SchellingAgent.happy self = true →
  recount a w =
    (Ok VNone, {| global_random := global_random w;
                  model := flip_to_unhappy a self (model w) |}).
Proof.
  intros Hs Hb Hh. unfold recount.
  rewrite (bind_eq _ _ w (model w) w) by done.
  rewrite (bind_eq _ _ w false w) by now apply lift_Ok.
  rewrite (bind_eq _ _ w self w) by now apply agent_Ok.
  rewrite Hh. case_bool_decide; [|done].
  cbv beta iota delta
    [bind modify update_agent agent get lift deref put ret raise]; cbn.
  now rewrite Hs.
Qed.

(** ** What the verdict depends on *)

Lemma same_occupancy_refl m : same_occupancy m m.
Proof. by repeat split. Qed.

Lemma same_occupancy_trans m1 m2 m3 :
  same_occupancy m1 m2 → same_occupancy m2 m3 → same_occupancy m1 m3.
Proof. intros (?&?&?&?) (?&?&?&?). repeat split; congruence. Qed.

Lemma same_occupancy_lookup m m' a :
  same_occupancy m m' → key <$> agents m' !! a = key <$> agents m !! a.
Proof. intros (_&_&_&H). by rewrite <-!list_lookup_fmap, H. Qed.

Lemma key_set_happy b ag : key (set_happy b ag) = key ag.
Proof. done. Qed.

Lemma fmap_key_set_happy (l : list SchellingAgent.t) a self b :
  l !! a = Some self → key <$> <[a := set_happy b self]> l = key <$> l.
Proof.
  intros H. rewrite list_fmap_insert, key_set_happy.
  apply list_insert_id. by rewrite list_lookup_fmap, H.
Qed.

Lemma recount_effect_occupancy a m m' :
  recount_effect a m m' → same_occupancy m m'.
Proof.
  destruct 1; [apply same_occupancy_refl| |];
    repeat split; cbn; by apply fmap_key_set_happy.
Qed.

Lemma similar_total_occupancy m m' ty l acc :
  same_occupancy m m' → similar_total m' ty l acc = similar_total m ty l acc.
Proof.
  intros Hs. revert acc. induction l as [|n l IH]; intros acc; [done|].
  cbn. unfold deref. pose proof (same_occupancy_lookup m m' n Hs) as Hn.
  destruct (agents m' !! n) as [x|], (agents m !! n) as [y|];
    try done. injection Hn as Hty _. rewrite Hty. apply IH.
Qed.

Lemma get_cell_list_contents_grid m m' l :
  grid m' = grid m → get_cell_list_contents m' l = get_cell_list_contents m l.
Proof. intros Hg. induction l as [|n l IH]; cbn; [done|]. by rewrite Hg, IH. Qed.

Lemma similar_occupancy m m' a :
  same_occupancy m m' → similar m' a = similar m a.
Proof.
  intros Hs. unfold similar, deref.
  pose proof (same_occupancy_lookup m m' a Hs) as Ha.
  destruct Hs as (Hh & HG & Hg & Hk).
  destruct (agents m' !! a) as [x|], (agents m !! a) as [y|]; try done.
  injection Ha as Hty Hpos. rewrite Hty, Hpos.
  unfold get_neighbors, get_neighborhood. rewrite HG.
  destruct (G_neighbors (G m) (SchellingAgent.pos y)) as [e|nb]; [done|].
  rewrite (get_cell_list_contents_grid m m') by done.
  destruct (get_cell_list_contents m nb) as [e|ns]; [done|].
  case_decide; [|done].
  by rewrite (similar_total_occupancy m m').
Qed.

Lemma verdict_occupancy m m' a :
  same_occupancy m m' → verdict m' a = verdict m a.
Proof.
  intros Hs. unfold verdict. rewrite (similar_occupancy m m') by done.
  destruct Hs as (-> & _). done.
Qed.

(** ** The invariant of the counters *)

Lemma unhappy_iff m a :
  counters_consistent m → a ∈ unhappy_list m ↔ flag m a = Some false.
Proof.
  intros (_ & _ & _ & H1 & H2). rewrite Forall_forall in H1, H2. split.
  - apply H1.
  - intros Hf. apply H2; [|done]. apply elem_of_seq. split; [lia|].
    unfold flag in Hf. destruct (agents m !! a) eqn:E; [|done].
    apply lookup_lt_Some in E. lia.
Qed.

Lemma list_remove_perm x l l' : list_remove x l = Some l' → l ≡ₚ x :: l'.
Proof.
  revert l'. induction l as [|y l IH]; intros l'; cbn; [done|].
  case_decide as E.
  - intros [= <-]. by subst.
  - destruct (list_remove x l) as [k|]; cbn; [|done].
    intros [= <-]. rewrite (IH k eq_refl). apply Permutation_swap.
Qed.

Lemma list_remove_is_Some x l : x ∈ l → is_Some (list_remove x l).
Proof.
  induction l as [|y l IH]; [by intros ?%elem_of_nil|].
  cbn. case_decide; [eauto|].
  intros [?|Hx]%elem_of_cons; [congruence|].
  destruct (IH Hx) as [k ->]. cbn. eauto.
Qed.

Lemma flag_insert m m' a ag x :
  agents m' = <[a := ag]> (agents m) → a < length (agents m) →
  flag m' x = if decide (x = a) then Some (SchellingAgent.happy ag)
              else flag m x.
Proof.
  intros Hm Hlt. unfold flag. rewrite Hm. case_decide as E.
  - subst. by rewrite list_lookup_insert_eq.
  - by rewrite list_lookup_insert_ne.
Qed.

Lemma counters_intro m :
  n_agents m = Z.of_nat (length (agents m)) →
  (happy m + Z.of_nat (length (unhappy_list m)))%Z = n_agents m →
  NoDup (unhappy_list m) →
  (∀ a, a ∈ unhappy_list m ↔ flag m a = Some false) →
  counters_consistent m.
Proof.
  intros H1 H2 H3 H4. repeat split; try done.
  - apply Forall_forall. intros a. apply H4.
  - apply Forall_forall. intros a _. apply H4.
Qed.

Lemma recount_effect_counters a m m' :
  recount_effect a m m' → counters_consistent m → counters_consistent m'.
Proof.
  intros He Hc.
  assert (∀ x, x ∈ unhappy_list m ↔ flag m x = Some false) as Hiff
    by (intros x; by apply unhappy_iff).
  destruct Hc as (Hn & Hsum & Hnd & _).
  destruct He as [self b Hs Hb Hh|self l Hs Hb Hh Hl|self Hs Hb Hh].
  - by apply counters_intro.
  - pose proof (list_remove_perm _ _ _ Hl) as Hp.
    pose proof (lookup_lt_Some _ _ _ Hs) as Hlt.
    assert (NoDup (a :: l)) as [Hal Hndl]%NoDup_cons by by rewrite <-Hp.
    apply counters_intro; cbn.
    + by rewrite length_insert.
    + rewrite Hp in Hsum. cbn in Hsum. lia.
    + done.
    + intros x.
      rewrite (flag_insert m _ a (set_happy true self) x) by done.
      case_decide as E; cbn.
      * subst. split; [done|discriminate].
      * rewrite <-Hiff, Hp, elem_of_cons. intuition congruence.
  - pose proof (lookup_lt_Some _ _ _ Hs) as Hlt.
    assert (a ∉ unhappy_list m) as Hna.
    { rewrite Hiff. unfold flag. rewrite Hs. cbn. congruence. }
    apply counters_intro; cbn.
    + by rewrite length_insert.
    + rewrite length_app. cbn. lia.
    + apply NoDup_app. split_and!; [done| |apply NoDup_singleton].
      intros x Hx ->%list_elem_of_singleton. done.
    + intros x.
      rewrite (flag_insert m _ a (set_happy false self) x) by done.
      rewrite elem_of_app, list_elem_of_singleton.
      case_decide as E; cbn.
      * subst. intuition.
      * rewrite <-Hiff. intuition congruence.
Qed.

Lemma same_occupancy_position m m' a :
  same_occupancy m m' → position m' a = position m a.
Proof.
  intros Hs%(same_occupancy_lookup _ _ a). unfold position.
  destruct (agents m' !! a), (agents m !! a); try done.
  injection Hs as _ Hp. cbn. by rewrite Hp.
Qed.

Lemma same_occupancy_grid_consistent m m' :
  same_occupancy m m' → grid_consistent m → grid_consistent m'.
Proof.
  intros Hs Hg. pose proof Hs as (_ & _ & Hgrid & _).
  unfold grid_consistent in *. rewrite Hgrid.
  eapply map_Forall_impl; [exact Hg|]. cbn. intros n c [Hnd Hc].
  split; [done|]. eapply Forall_impl; [exact Hc|]. cbn. intros b Hb.
  by rewrite (same_occupancy_position m m').
Qed.

(** ** What one [move] does *)

Lemma random_choice_Ok seq w x w' :
  random_choice seq w = (Ok x, w') →
  model w' = model w ∧ x ∈ seq.
Proof.
  unfold random_choice. destruct seq as [|y l]; [done|].
  destruct (randbelow _ _) as [i r].
  destruct ((y :: l) !! i) as [z|] eqn:E; [|done].
  intros [= <- <-]. split; [done|]. by eapply list_elem_of_lookup_2.
Qed.

Lemma move_Ok a w v w' :
  move a w = (Ok v, w') →
  v = VNone ∧
  ((∃ self, agents (model w) !! a = Some self ∧
            SchellingAgent.happy self = true ∧ w' = w) ∨
   ∃ r : relocation a w w', True).
Proof.
  unfold move. intros H.
  apply bind_Ok in H as (self & ? & [Hs ->]%agent_Ok & H).
  destruct (SchellingAgent.happy self) eqn:Hh; case_bool_decide; try done.
  { injection H as <- <-. split; [done|]. left. eauto. }
  apply bind_Ok in H as (m & ? & [= <- <-] & H).
  apply bind_Ok in H as (cells & ? & [Hcells ->]%lift_Ok & H).
  apply bind_Ok in H as (neighbors & ? & [Hnb ->]%lift_Ok & H).
  apply bind_Ok in H as (pos & w0 & Hch & H).
  pose proof (random_choice_Ok _ _ _ _ Hch) as [Hm0 _].
  unfold address in Hcells.
  destruct (SchellingAgent.pos self) as [old|] eqn:Hpos; [|done].
  destruct (addresses (model w) !! old) as [cs|] eqn:Hadr; [|done].
  injection Hcells as ->.
  apply bind_Ok in H as ([] & w1 & [= <-] & H).
  apply bind_Ok in H as ([] & w2 & Hmv & H).
  unfold move_agent in Hmv.
  apply bind_Ok in Hmv as ([] & w3 & Hrm & Hpl).
  unfold remove_agent in Hrm.
  apply bind_Ok in Hrm as (self1 & ? & [Hs1 ->]%agent_Ok & Hrm).
  cbn in Hs1. rewrite Hm0, Hs in Hs1. injection Hs1 as <-.
  apply bind_Ok in Hrm as (? & ? & [= <- <-] & Hrm).
  rewrite Hpos in Hrm. cbn in Hrm. rewrite Hm0 in Hrm.
  destruct (grid (model w) !! old) as [c|] eqn:Hc; [|done].
  destruct (list_remove a c) as [c'|] eqn:Hc'; [|done].
  mred Hrm. rewrite Hs in Hrm. mred Hrm. injection Hrm as <-.
  unfold place_agent in Hpl.
  apply bind_Ok in Hpl as (? & ? & [= <- <-] & Hpl). cbn in Hpl.
  destruct (<[old:=c']> (grid (model w)) !! pos) as [c2|] eqn:Hc2; [|done].
  mred Hpl.
  rewrite list_lookup_insert_eq in Hpl by (by eapply lookup_lt_Some).
  mred Hpl. injection Hpl as <-.
  apply bind_Ok in H as (? & ? & [= <- <-] & H). cbn in H.
  apply bind_Ok in H as ([] & w4 & He & H).
  destruct (list_remove pos (empty (model w) ++ [old])) as [e|] eqn:Hrme;
    [|done].
  mred He. injection He as <-.
  apply bind_Ok in H as ([] & w5 & [= <-] & H).
  apply bind_Ok in H as (self2 & ? & [Hs2 ->]%agent_Ok & H).
  cbn in Hs2. rewrite list_insert_insert_eq in Hs2.
  rewrite list_lookup_insert_eq in Hs2 by (by eapply lookup_lt_Some).
  injection Hs2 as <-.
  apply bind_Ok in H as (? & ? & [= <- <-] & H).
  apply bind_Ok in H as (ncells & ? & [Hncells ->]%lift_Ok & H).
  cbn in Hncells.
  destruct (addresses (model w) !! pos) as [ncs|] eqn:Hnadr; [|done].
  injection Hncells as ->.
  apply bind_Ok in H as (new_neighbors & ? & [Hnnb ->]%lift_Ok & H).
  apply bind_Ok in H as (v1 & w6 & Hr1 & H).
  apply bind_Ok in H as ([] & w7 & Hr2 & H).
  apply bind_Ok in H as ([] & w8 & Hr3 & H).
  injection H as <- <-. split; [done|]. right.
  pose proof (recount_Ok _ _ _ _ Hr1) as (-> & _).
  rewrite list_insert_insert_eq in *.
  unshelve eexists; [|done].
  econstructor; try eassumption; try reflexivity. exact Hnnb.
Qed.

(** ** Loops of recounts *)

Lemma for_each_recount_ind (P : t → Prop) (l : list nat) :
  (∀ a m m', a ∈ l → recount_effect a m m' → P m → P m') →
  ∀ w u w', for_each l recount w = (Ok u, w') →
            P (model w) → P (model w').
Proof.
  induction l as [|a l IH]; intros HP w u w' H Hw.
  - by injection H as <- <-.
  - cbn in H. apply bind_Ok in H as (v & w1 & Hr & H).
    apply recount_Ok in Hr as (_ & _ & He).
    eapply IH; [|exact H|].
    + intros a' m m' Ha'. apply HP. by right.
    + eapply HP; [by left|exact He|exact Hw].
Qed.



Lemma for_each_recount_occupancy l w u w' :
  for_each l recount w = (Ok u, w') → same_occupancy (model w) (model w').
Proof.
  intros H.
  apply (for_each_recount_ind (same_occupancy (model w)) l) in H;
    [done| |apply same_occupancy_refl].
  intros a m m' _ He Hm. eapply same_occupancy_trans; [exact Hm|].
  by eapply recount_effect_occupancy.
Qed.

Lemma get_cell_list_contents_elem m cells l b :
  get_cell_list_contents m cells = inr l → b ∈ l →
  ∃ n c, n ∈ cells ∧ grid m !! n = Some c ∧ b ∈ c.
Proof.
  revert l. induction cells as [|n ns IH]; intros l; cbn.
  - intros [= <-] ?%elem_of_nil. done.
  - destruct (grid m !! n) as [c|] eqn:Hc; [|done].
    destruct (get_cell_list_contents m ns) as [|r]; [done|].
    intros [= <-] [Hb|Hb]%elem_of_app.
    + exists n, c. split_and!; [by left|done|done].
    + destruct (IH r eq_refl Hb) as (n' & c' & ? & ? & ?).
      exists n', c'. split_and!; [by right|done|done].
Qed.

Lemma grid_consistent_position m n c b :
  grid_consistent m → grid m !! n = Some c → b ∈ c →
  position m b = Some (Some n).
Proof.
  intros Hg Hc Hb. destruct (Hg n c Hc) as [_ Hall].
  rewrite Forall_forall in Hall. by apply Hall.
Qed.

(** * Locality of a move *)

Lemma list_remove_subseteq x l l' b :
  list_remove x l = Some l' → b ∈ l' → b ∈ l.
Proof. intros Hp%list_remove_perm Hb. rewrite Hp. by right. Qed.

Lemma relocation_position a w w' (r : relocation a w w') :
  position (model w') a = Some (Some (rl_pos _ _ _ r)).
Proof.
  open_relocation r; cbn.
  apply recount_Ok in Hr1 as (_ & _ & He1).
  apply recount_effect_occupancy in He1.
  apply for_each_recount_occupancy in Hr2, Hr3.
  rewrite (same_occupancy_position _ _ a Hr3).
  rewrite (same_occupancy_position _ _ a Hr2).
  rewrite (same_occupancy_position _ _ a He1).
  subst w1. unfold position. cbn.
  rewrite list_lookup_insert_eq by (by eapply lookup_lt_Some). done.
Qed.


(** * The invariant and its preservation *)

Lemma for_each_recount_Inv l w u w' :
  for_each l recount w = (Ok u, w') → Inv (model w) → Inv (model w').
Proof.
  intros H HI. eapply (for_each_recount_ind Inv l); [|exact H|exact HI].
  intros a m m' _ He [Hc Hg]. split.
  - by eapply recount_effect_counters.
  - eapply same_occupancy_grid_consistent; [|done].
    by eapply recount_effect_occupancy.
Qed.

Lemma position_relocated a self src dst c' c2 e m b :
  agents m !! a = Some self →
  position (relocated a self src dst c' c2 e m) b =
    if decide (b = a) then Some (Some dst) else position m b.
Proof.
  intros Hs. unfold position. cbn. case_decide as E.
  - subst. by rewrite list_lookup_insert_eq by (by eapply lookup_lt_Some).
  - by rewrite list_lookup_insert_ne.
Qed.

Lemma flag_relocated a self src dst c' c2 e m b :
  agents m !! a = Some self →
  flag (relocated a self src dst c' c2 e m) b = flag m b.
Proof.
  intros Hs. unfold flag. cbn. destruct (decide (b = a)) as [->|E].
  - rewrite list_lookup_insert_eq by (by eapply lookup_lt_Some).
    by rewrite Hs.
  - by rewrite list_lookup_insert_ne.
Qed.

Lemma relocated_counters a self src dst c' c2 e m :
  agents m !! a = Some self →
  counters_consistent m → counters_consistent (relocated a self src dst c' c2 e m).
Proof.
  intros Hs Hc.
  assert (∀ x, x ∈ unhappy_list m ↔ flag m x = Some false) as Hiff
    by (intros x; by apply unhappy_iff).
  destruct Hc as (Hn & Hsum & Hnd & _).
  apply counters_intro; cbn; try done.
  - by rewrite length_insert.
  - intros x. rewrite Hiff.
    by rewrite <-(flag_relocated a self src dst c' c2 e m x Hs).
Qed.

Lemma relocated_grid a self src dst c c' c2 e m :
  agents m !! a = Some self →
  SchellingAgent.pos self = Some src →
  grid m !! src = Some c →
  list_remove a c = Some c' →
  <[src := c']> (grid m) !! dst = Some c2 →
  grid_consistent m → grid_consistent (relocated a self src dst c' c2 e m).
Proof.
  intros Hs Hpos Hc Hc' Hc2 Hg.
  assert (position m a = Some (Some src)) as Hpa
    by (unfold position; by rewrite Hs, <-Hpos).
  pose proof (list_remove_perm _ _ _ Hc') as Hp.
  destruct (Hg src c Hc) as [Hndc Hallc].
  assert (NoDup (a :: c')) as [Hac' Hndc']%NoDup_cons by by rewrite <-Hp.
  assert (∀ n cn, grid m !! n = Some cn → n ≠ src → a ∉ cn) as Hna.
  { intros n cn Hcn Hne Ha.
    pose proof (grid_consistent_position m n cn a Hg Hcn Ha). congruence. }
  assert (∀ n cn b, grid m !! n = Some cn → b ∈ cn → b ≠ a →
            position (relocated a self src dst c' c2 e m) b = Some (Some n))
    as Hother.
  { intros n cn b Hcn Hb Hne. rewrite position_relocated by done.
    rewrite decide_False by done. by eapply grid_consistent_position. }
  assert (∀ b, b ∈ c' → b ∈ c ∧ b ≠ a) as Hc'c.
  { intros b Hb. split; [rewrite Hp; by right|]. intros ->. done. }
  intros n cn Hcn. cbn in Hcn.
  destruct (decide (dst = n)) as [->|Hdn].
  - rewrite lookup_insert_eq in Hcn. injection Hcn as <-.
    assert (NoDup c2 ∧ (a ∉ c2) ∧
            (∀ b, b ∈ c2 → ∃ c0, grid m !! n = Some c0 ∧ b ∈ c0))
      as (Hnd2 & Ha2 & Hsub).
    { destruct (decide (src = n)) as [->|Hsn].
      - rewrite lookup_insert_eq in Hc2. injection Hc2 as <-.
        split_and!; [done|done|]. intros b Hb. exists c.
        split; [done|]. by apply Hc'c.
      - rewrite lookup_insert_ne in Hc2 by done.
        destruct (Hg n c2 Hc2) as [? _]. split_and!; [done|by eapply Hna|].
        eauto. }
    split.
    + apply NoDup_app. split_and!; [done| |apply NoDup_singleton].
      intros x Hx ->%list_elem_of_singleton. done.
    + apply Forall_app. split.
      * apply Forall_forall. intros b Hb.
        destruct (Hsub b Hb) as (c0 & Hc0 & Hb0).
        eapply Hother; [done|done|]. intros ->. done.
      * apply Forall_singleton. rewrite position_relocated by done.
        by rewrite decide_True.
  - rewrite lookup_insert_ne in Hcn by done.
    destruct (decide (src = n)) as [->|Hsn].
    + rewrite lookup_insert_eq in Hcn. injection Hcn as <-.
      split; [done|]. apply Forall_forall. intros b Hb.
      destruct (Hc'c b Hb). by eapply Hother.
    + rewrite lookup_insert_ne in Hcn by done.
      destruct (Hg n cn Hcn) as [? _]. split; [done|].
      apply Forall_forall. intros b Hb. eapply Hother; [done|done|].
      intros ->. by eapply Hna.
Qed.

Lemma move_Inv a w v w' :
  move a w = (Ok v, w') → Inv (model w) → Inv (model w').
Proof.
  intros Hmove [Hc Hg].
  apply move_Ok in Hmove as (_ & [(self & _ & _ & ->)|[r _]]); [done|].
  open_relocation r.
  eapply for_each_recount_Inv; [exact Hr3|].
  eapply for_each_recount_Inv; [exact Hr2|].
  apply recount_Ok in Hr1 as (_ & _ & He).
  assert (Inv (model w1)) as [Hc1 Hg1].
  { subst w1. cbn. split.
    - by apply relocated_counters.
    - by eapply relocated_grid. }
  split.
  - by eapply recount_effect_counters.
  - eapply same_occupancy_grid_consistent; [|done].
    by eapply recount_effect_occupancy.
Qed.

(** What [model.step()] amounts to: the counter, then the body. *)
Lemma step_unfold w :
  step w = match Schelling_step (ticked w) with
           | (Ok _, w') => (Ok VNone, w')
           | (Raise e, w') => (Raise e, w')
           end.
Proof.
  unfold step, bind at 1, modify. fold (ticked w). unfold bind at 1.
  by destruct (Schelling_step (ticked w)) as [[v|e] w'].
Qed.

Lemma step_Ok w v w' :
  step w = (Ok v, w') →
  v = VNone ∧
  ∃ one_agent w0 u w1,
    random_choice (unhappy_list (model w)) (ticked w) = (Ok one_agent, w0) ∧
    move one_agent w0 = (Ok u, w1) ∧
    w' = {| global_random := global_random w1;
            model := with_running
                       (bool_decide (happy (model w1) < n_agents (model w1))%Z)
                       (model w1) |}.
Proof.
  rewrite step_unfold.
  destruct (Schelling_step (ticked w)) as [[v0|e] w2] eqn:H; [|done].
  intros [= <- <-]. unfold Schelling_step in H.
  apply bind_Ok in H as (m & ? & [= <- <-] & H).
  apply bind_Ok in H as (one_agent & w0 & Hch & H).
  apply bind_Ok in H as (u & w1 & Hmv & H).
  apply bind_Ok in H as ([] & w3 & [= <-] & H).
  injection H as <- <-. split; [done|]. by exists one_agent, w0, u, w1.
Qed.

Lemma step_Inv w v w' :
  step w = (Ok v, w') → Inv (model w) → Inv (model w').
Proof.
  intros (_ & a & w0 & u & w1 & Hch & Hmv & ->)%step_Ok HI.
  apply random_choice_Ok in Hch as [Hm _].
  change (Inv (model (ticked w))) in HI.
  rewrite <-Hm in HI. apply (move_Inv _ _ _ _ Hmv) in HI as [Hc Hg].
  split.
  - destruct Hc as (?&?&?&?&?). by repeat split.
  - exact Hg.
Qed.

Lemma steps_Inv k w u w' :
  steps k w = (Ok u, w') → Inv (model w) → Inv (model w').
Proof.
  revert w. induction k as [|k IH]; intros w H HI.
  - by injection H as <- <-.
  - cbn in H. apply bind_Ok in H as (v & w1 & Hs & H).
    eapply IH; [exact H|]. by eapply step_Inv.
Qed.

(** * Construction establishes the invariant *)

Lemma for_each_ind {A B} (P : world → Prop) (l : list A) (body : A → M B) :
  (∀ x w v w', x ∈ l → body x w = (Ok v, w') → P w → P w') →
  ∀ w u w', for_each l body w = (Ok u, w') → P w → P w'.
Proof.
  induction l as [|x l IH]; intros HP w u w' H Hw.
  - by injection H as <- <-.
  - cbn in H. apply bind_Ok in H as (v & w1 & Hb & H).
    eapply IH; [|exact H|].
    + intros y ? ? ? Hy. apply HP. by right.
    + eapply HP; [by left|exact Hb|exact Hw].
Qed.

Lemma while_ind (P : world → Prop) fuel cond body :
  (∀ w v w', cond (model w) = true → body w = (Ok v, w') → P w → P w') →
  ∀ w u w', while fuel cond body w = (Ok u, w') →
            P w → P w' ∧ cond (model w') = false.
Proof.
  intros HP. induction fuel as [|fuel IH]; intros w u w' H Hw.
  - apply bind_Ok in H as (m & ? & [= <- <-] & H).
    destruct (cond (model w)) eqn:E; [done|]. by injection H as <- <-.
  - apply bind_Ok in H as (m & ? & [= <- <-] & H).
    destruct (cond (model w)) eqn:E; [|by injection H as <- <-].
    apply bind_Ok in H as (v & w1 & Hb & H).
    eapply IH; [exact H|]. by eapply HP.
Qed.

Lemma spawn_Ok agent_type w u w' :
  spawn agent_type w = (Ok u, w') →
  ∃ node c e,
    node ∈ empty (model w) ∧
    grid (model w) !! node = Some c ∧
    list_remove node (empty (model w)) = Some e ∧
    model w' = spawned agent_type node c e (model w).
Proof.
  unfold spawn. intros H.
  apply bind_Ok in H as (m & ? & [= <- <-] & H).
  apply bind_Ok in H as ([] & ? & [= <-] & H).
  apply bind_Ok in H as (? & ? & [= <- <-] & H). cbn in H.
  apply bind_Ok in H as (node & w0 & Hch & H).
  apply random_choice_Ok in Hch as [Hm0 Hnode]. cbn in Hm0.
  apply bind_Ok in H as ([] & w1 & Hpl & H).
  unfold place_agent in Hpl.
  apply bind_Ok in Hpl as (? & ? & [= <- <-] & Hpl).
  rewrite Hm0 in Hpl. cbn in Hpl.
  destruct (grid (model w) !! node) as [c|] eqn:Hc; [|done].
  mred Hpl. rewrite lookup_app_r in Hpl by done.
  rewrite Nat.sub_diag in Hpl. mred Hpl. injection Hpl as <-.
  apply bind_Ok in H as (? & ? & [= <- <-] & H). cbn in H.
  apply bind_Ok in H as ([] & w2 & He & H).
  destruct (list_remove node (empty (model w))) as [e|] eqn:Hrm; [|done].
  mred He. injection He as <-.
  mred H. injection H as _ <-. cbn.
  exists node, c, e. split_and!; try done.
  unfold spawned. rewrite insert_app_r_alt by done.
  by rewrite Nat.sub_diag.
Qed.

Lemma count_Ok a w v w' :
  count a w = (Ok v, w') →
  ∃ self b,
    agents (model w) !! a = Some self ∧ verdict (model w) a = inr b ∧
    w' = {| global_random := global_random w;
            model := counted a self b (model w) |}.
Proof.
  unfold count. intros H.
  apply bind_Ok in H as (m & ? & [= <- <-] & H).
  apply bind_Ok in H as (b & ? & [Hb ->]%lift_Ok & H).
  assert (∃ self, agents (model w) !! a = Some self) as [self Hs].
  { unfold verdict, similar, deref in Hb.
    destruct (agents (model w) !! a); [eauto|done]. }
  exists self, b. split_and!; [done|done|].
  destruct b; mred H; rewrite Hs in H; mred H; by injection H as _ <-.
Qed.

Lemma count_run a w self b :
  agents (model w) !! a = Some self → verdict (model w) a = inr b →
  count a w = (Ok VNone, {| global_random := global_random w;
                            model := counted a self b (model w) |}).
Proof.
  intros Hs Hb. unfold count.
  rewrite (bind_eq _ _ w (model w) w) by done.
  rewrite (bind_eq _ _ w b w) by now apply lift_Ok.
  destruct b;
    cbv beta iota delta
      [bind modify update_agent agent get lift deref put ret raise]; cbn;
    by rewrite Hs.
Qed.

Lemma counted_occupancy a self b m :
  agents m !! a = Some self → same_occupancy m (counted a self b m).
Proof.
  intros Hs. destruct b; repeat split; cbn; by apply fmap_key_set_happy.
Qed.

Lemma register_node_Ok node w u w' :
  register_node node w = (Ok u, w') →
  ∃ nb, G_neighbors (G (model w)) (Some node) = inr nb ∧
        w' = {| global_random := global_random w;
                model := with_addresses (<[node := nb]> (addresses (model w)))
                           (with_empty (empty (model w) ++ [node]) (model w)) |}.
Proof.
  unfold register_node. intros H.
  apply bind_Ok in H as ([] & ? & [= <-] & H).
  apply bind_Ok in H as (? & ? & [= <- <-] & H).
  apply bind_Ok in H as (nb & ? & [Hnb ->]%lift_Ok & H).
  injection H as _ <-. by exists nb.
Qed.

Lemma position_lt m b p : position m b = Some p → b < length (agents m).
Proof.
  unfold position. destruct (agents m !! b) eqn:E; [|done].
  intros _. by eapply lookup_lt_Some.
Qed.

Lemma spawned_PreInv ty node c e m :
  grid m !! node = Some c → PreInv m → PreInv (spawned ty node c e m).
Proof.
  intros Hc (Hn & Hh & Hu & Hg). (split; [|split; [|split]]); cbn; try done.
  - rewrite length_app. cbn. lia.
  - intros n cn Hcn. cbn in Hcn.
    assert (∀ n' c' b, grid m !! n' = Some c' → b ∈ c' →
              b < length (agents m) ∧
              position (spawned ty node c e m) b = Some (Some n')) as Hold.
    { intros n' c' b Hc' Hb.
      pose proof (grid_consistent_position m n' c' b Hg Hc' Hb) as Hp.
      pose proof (position_lt _ _ _ Hp) as Hlt. split; [done|].
      unfold position in *. cbn. by rewrite lookup_app_l. }
    destruct (decide (node = n)) as [->|Hne].
    + rewrite lookup_insert_eq in Hcn. injection Hcn as <-.
      destruct (Hg n c Hc) as [Hnd _]. split.
      * apply NoDup_app. split_and!; [done| |apply NoDup_singleton].
        intros x Hx ->%list_elem_of_singleton.
        destruct (Hold n c _ Hc Hx). lia.
      * apply Forall_app. split.
        -- apply Forall_forall. intros b Hb. by eapply Hold.
        -- apply Forall_singleton. unfold position. cbn.
           rewrite lookup_app_r by done. by rewrite Nat.sub_diag.
    + rewrite lookup_insert_ne in Hcn by done.
      destruct (Hg n cn Hcn) as [Hnd _]. split; [done|].
      apply Forall_forall. intros b Hb. by eapply Hold.
Qed.

Lemma counted_CInv a self b done m :
  agents m !! a = Some self → a ∉ done →
  CInv done m → CInv (a :: done) (counted a self b m).
Proof.
  intros Hs Ha (Hn & Hsum & Hnd & Hiff).
  pose proof (lookup_lt_Some _ _ _ Hs) as Hlt.
  assert (a ∉ unhappy_list m) as Hau by (rewrite Hiff; tauto).
  destruct b; (split; [|split; [|split]]); cbn.
  - by rewrite length_insert.
  - lia.
  - done.
  - intros x.
    rewrite (flag_insert m _ a (set_happy true self) x) by done.
    rewrite Hiff, elem_of_cons. case_decide; cbn; [|tauto].
    subst. split; [tauto|]. intros [_ [=]].
  - by rewrite length_insert.
  - rewrite length_app. cbn. lia.
  - apply NoDup_app. split_and!; [done| |apply NoDup_singleton].
    intros x Hx ->%list_elem_of_singleton. done.
  - intros x.
    rewrite (flag_insert m _ a (set_happy false self) x) by done.
    rewrite elem_of_app, list_elem_of_singleton, Hiff, elem_of_cons.
    case_decide; cbn; tauto.
Qed.

Lemma same_occupancy_length m m' :
  same_occupancy m m' → length (agents m') = length (agents m).
Proof.
  intros (_ & _ & _ & H). apply (f_equal length) in H.
  by rewrite !length_fmap in H.
Qed.

Lemma for_each_count_CInv order :
  ∀ done w u w',
    NoDup order → (∀ a, a ∈ order → a ∉ done) →
    for_each order count w = (Ok u, w') →
    CInv done (model w) → grid_consistent (model w) →
    CInv (reverse order ++ done) (model w') ∧ grid_consistent (model w') ∧
    same_occupancy (model w) (model w').
Proof.
  induction order as [|a order IH]; intros done w u w' Hnd Hfresh H HC Hg.
  - injection H as <- <-. split_and!; [done|done|apply same_occupancy_refl].
  - cbn in H. apply bind_Ok in H as (v & w1 & Hc & H).
    apply count_Ok in Hc as (self & b & Hs & Hb & ->).
    apply NoDup_cons in Hnd as [Ha Hnd].
    rewrite reverse_cons, <-app_assoc. cbn.
    pose proof (counted_occupancy a self b (model w) Hs) as Hocc.
    eapply IH in H as (? & ? & ?); [| done | | |].
    + split_and!; [done|done|]. by eapply same_occupancy_trans.
    + intros x Hx [->|Hd]%elem_of_cons; [done|].
      eapply Hfresh; [by right|done].
    + cbn. apply counted_CInv; [done| |done]. apply Hfresh. by left.
    + cbn. by eapply same_occupancy_grid_consistent.
Qed.

Lemma swap_perm x i j : swap x i j ≡ₚ x.
Proof.
  unfold swap. destruct (x !! i) eqn:Ei; [|done].
  destruct (x !! j) eqn:Ej; [|done]. by apply Permutation_insert_swap.
Qed.

Lemma shuffle_from_perm i : ∀ r x, (shuffle_from i r x).1 ≡ₚ x.
Proof.
  induction i as [|i IH]; intros r x; cbn; [done|].
  rewrite IH. apply swap_perm.
Qed.

Lemma shuffle_perm r x : (shuffle r x).1 ≡ₚ x.
Proof. apply shuffle_from_perm. Qed.

Lemma shuffle_do_count_Inv w u w' :
  shuffle_do count w = (Ok u, w') → PreInv (model w) → Inv (model w').
Proof.
  unfold shuffle_do. intros H (Hn & Hh & Hu & Hg).
  apply bind_Ok in H as (m & ? & [= <- <-] & H).
  pose proof (shuffle_perm (random (model w)) (seq 0 (length (agents (model w)))))
    as Hperm.
  destruct (shuffle _ _) as [order r]. cbn in Hperm.
  apply bind_Ok in H as ([] & ? & [= <-] & H).
  apply (for_each_count_CInv order []) in H
    as ((Hn' & Hsum & Hnd & Hiff) & Hg' & Hlen%same_occupancy_length).
  cbn in Hlen.
  - split; [|done]. rewrite app_nil_r, length_reverse, Hperm, length_seq in Hsum.
    apply counters_intro; try done; [lia|].
    intros a. rewrite Hiff, app_nil_r, elem_of_reverse, Hperm, elem_of_seq.
    split; [tauto|]. intros Hf. split; [|done].
    unfold flag in Hf. destruct (agents (model w') !! a) eqn:E; [|done].
    apply lookup_lt_Some in E. lia.
  - rewrite Hperm. apply NoDup_seq.
  - intros a _ ?%elem_of_nil. done.
  - cbn. (split; [|split; [|split]]); cbn; try done.
    + rewrite Hh, Hu. cbn. lia.
    + rewrite Hu. apply NoDup_nil_2.
    + intros a. rewrite Hu. split; [by intros ?%elem_of_nil|].
      by intros [?%elem_of_nil _].
  - done.
Qed.

Lemma init_body_Ok w u w' :
  init_body w = (Ok u, w') →
  ∃ w1 w2 w3 count0 total,
    for_each (G (model w)).*1 register_node w = (Ok tt, w1) ∧
    while (S (length (G (model w)))) (cond0 count0) (spawn 0) w1 = (Ok tt, w2) ∧
    while (S (length (G (model w)))) (cond1 total) (spawn 1) w2 = (Ok tt, w3) ∧
    shuffle_do count w3 = (Ok u, w') ∧
    total_agents (model w) = inr total ∧
    agents0_count (model w) total = inr count0.
Proof.
  unfold init_body. intros H.
  apply bind_Ok in H as (m & ? & [= <- <-] & H).
  apply bind_Ok in H as ([] & w1 & H1 & H).
  apply bind_Ok in H as (total & ? & [Htot ->]%lift_Ok & H).
  apply bind_Ok in H as (count0 & ? & [Hc0 ->]%lift_Ok & H).
  apply bind_Ok in H as ([] & w2 & H2 & H).
  apply bind_Ok in H as ([] & w3 & H3 & H).
  by exists w1, w2, w3, count0, total.
Qed.

Lemma Schelling_init_Ok g d mp h seed r u w :
  Schelling_init g d mp h seed r = (Ok u, w) →
  seed_ok seed = true ∧
  init_body {| global_random := r; model := new_model g d mp h seed |}
    = (Ok u, w).
Proof. unfold Schelling_init. by destruct (seed_ok seed). Qed.

Lemma Schelling_init_run g d mp h seed r :
  seed_ok seed = true →
  Schelling_init g d mp h seed r =
    init_body {| global_random := r; model := new_model g d mp h seed |}.
Proof. unfold Schelling_init. by intros ->. Qed.

Lemma new_model_grid g d mp h seed n c :
  grid (new_model g d mp h seed) !! n = Some c → c = [] ∧ n ∈ g.*1.
Proof.
  cbn. intros H%elem_of_list_to_map_2.
  apply list_elem_of_fmap in H as ([n' l] & [= Hn Hc] & Hin).
  cbn in Hn. subst. split; [done|]. apply list_elem_of_fmap.
  by exists (n', l).
Qed.

Lemma new_model_PreInv g d mp h seed : PreInv (new_model g d mp h seed).
Proof.
  (split; [|split; [|split]]); try done.
  intros n c [-> _]%new_model_grid. split; [apply NoDup_nil_2|done].
Qed.

Lemma register_loop_PreInv l w u w' :
  for_each l register_node w = (Ok u, w') →
  PreInv (model w) → PreInv (model w').
Proof.
  intros H. eapply (for_each_ind (λ w, PreInv (model w))); [|exact H].
  intros x w0 v w0' _ (nb & _ & ->)%register_node_Ok HP. exact HP.
Qed.

Lemma spawn_loop_PreInv fuel cond ty w u w' :
  while fuel cond (spawn ty) w = (Ok u, w') →
  PreInv (model w) → PreInv (model w').
Proof.
  intros H HP.
  eapply (while_ind (λ w, PreInv (model w))) in H as [H _]; [done| |done].
  intros w0 v w0' _ (node & c & e & _ & Hc & _ & ->)%spawn_Ok.
  by apply spawned_PreInv.
Qed.

Lemma init_body_Inv w u w' :
  init_body w = (Ok u, w') → PreInv (model w) → Inv (model w').
Proof.
  intros (w1 & w2 & w3 & c0 & tot & H1 & H2 & H3 & H4 & Htot & Hc0)%init_body_Ok
    HP.
  eapply shuffle_do_count_Inv; [exact H4|].
  eapply spawn_loop_PreInv; [exact H3|].
  eapply spawn_loop_PreInv; [exact H2|].
  by eapply register_loop_PreInv.
Qed.

Lemma Schelling_init_Inv g d mp h seed r u w :
  Schelling_init g d mp h seed r = (Ok u, w) → Inv (model w).
Proof.
  intros [_ H%init_body_Inv]%Schelling_init_Ok; [done|].
  apply new_model_PreInv.
Qed.

Lemma run_Inv g d mp h seed r k u w :
  run g d mp h seed r k = (Ok u, w) → Inv (model w).
Proof.
  unfold run.
  destruct (Schelling_init g d mp h seed r) as [[[]|e] w0] eqn:E; [|done].
  intros H. eapply steps_Inv; [exact H|]. by eapply Schelling_init_Inv.
Qed.

(** * Consistency of the counters *)

(** C2.  After construction and after every completed call of [step] that
    follows it, [happy] plus the length of [unhappy_list] equals [n_agents],
    and [unhappy_list] lists, without repetition, exactly the agents whose
    [happy] flag is [False]. *)
Theorem counters_consistent_after_every_step
    (input_graph : list (nat * list nat)) (density minority_pc : float)
    (homophily : Q)
    (seed : Seed) (g : Random) (k : nat) (w : world) :
  run input_graph density minority_pc homophily seed g k = (Ok tt, w) →
  (happy (model w) + Z.of_nat (length (unhappy_list (model w))))%Z
    = n_agents (model w) ∧
  NoDup (unhappy_list (model w)) ∧
  ∀ a, a ∈ unhappy_list (model w) ↔ flag (model w) a = Some false.
Proof.
  intros [Hc _]%run_Inv. split_and!.
  - by destruct Hc as (_ & ? & _).
  - by destruct Hc as (_ & _ & ? & _).
  - intros a. by apply unhappy_iff.
Qed.

(** * Counting the neighbours of a type *)

Lemma similar_total_count m ty neighbors acc :
  Forall (λ n, is_Some (agents m !! n)) neighbors →
  similar_total m ty neighbors acc =
    inr (acc + Z.of_nat (same_type_count m ty neighbors))%Z.
Proof.
  intros Hall. revert acc.
  induction Hall as [|n ns [nb Hn] _ IH]; intros acc.
  - cbn. f_equal. unfold same_type_count. cbn. lia.
  - cbn [similar_total]. unfold deref. rewrite Hn. rewrite IH. f_equal.
    unfold same_type_count. rewrite filter_cons. rewrite Hn. cbn.
    destruct (Z.eqb_spec (SchellingAgent.type nb) ty) as [->|Hne].
    + rewrite decide_True by done. cbn. lia.
    + rewrite decide_False by congruence. lia.
Qed.

(** * Idempotence of [recount] *)

(** C4.  In a world with consistent counters, [recount] on an agent
    returns; when the verdict it computes equals the agent's flag the world
    it leaves is the world it was given; and a second [recount] of the same
    agent, called right after the first, leaves the world the first one
    left. *)
Theorem recount_idempotent (w : world) (a : nat) (self : SchellingAgent.t)
    (b : bool) :
  counters_consistent (model w) →
  agents (model w) !! a = Some self →
  verdict (model w) a = inr b →
  ∃ w', recount a w = (Ok VNone, w') ∧
        (SchellingAgent.happy self = b → w' = w) ∧
        recount a w' = (Ok VNone, w').
Proof.
  intros Hc Hs Hb.
  pose proof (lookup_lt_Some _ _ _ Hs) as Hlt.
  destruct (decide (SchellingAgent.happy self = b)) as [Heq|Hne].
  { exists w. pose proof (recount_same_run a w self b Hs Hb Heq). done. }
  destruct b, (SchellingAgent.happy self) eqn:Hh; try done.
  - assert (a ∈ unhappy_list (model w)) as Hin.
    { apply unhappy_iff; [done|]. unfold flag. by rewrite Hs, <-Hh. }
    apply list_remove_is_Some in Hin as [l Hl].
    pose proof (recount_up_run a w self l Hs Hb Hh Hl) as Hrun.
    eexists. split; [exact Hrun|]. split; [done|].
    eapply (recount_same_run _ _ (set_happy true self) true); cbn.
    + by rewrite list_lookup_insert_eq.
    + rewrite <-Hb. apply verdict_occupancy.
      eapply recount_effect_occupancy. by eapply recount_up.
    + done.
  - pose proof (recount_down_run a w self Hs Hb Hh) as Hrun.
    eexists. split; [exact Hrun|]. split; [done|].
    eapply (recount_same_run _ _ (set_happy false self) false); cbn.
    + by rewrite list_lookup_insert_eq.
    + rewrite <-Hb. apply verdict_occupancy.
      eapply recount_effect_occupancy. by eapply recount_down.
    + done.
Qed.

(** * [step] on a settled world *)

(** C8, as the code has it.  Called when [unhappy_list] is empty,
    [model.step()] raises [IndexError] in [random.choice]: the body written
    in [modelJ.py] raises before it has changed anything, so that nobody is
    relocated and no attribute but one is changed; the one is Mesa's counter
    [steps], which the wrapper of [step] has incremented before the body
    runs.  In such a world, if its counters are consistent, [move] called on
    any agent returns and changes nothing at all. *)
Theorem step_without_unhappy_raises (w : world) :
  unhappy_list (model w) = [] →
  step w =
    (Raise IndexError,
     {| global_random := global_random w;
        model := with_steps (Schelling.steps (model w) + 1) (model w) |}) ∧
  Schelling_step w = (Raise IndexError, w) ∧
  (counters_consistent (model w) →
   ∀ a, a < length (agents (model w)) → move a w = (Ok VNone, w)).
Proof.
  intros Hu.
  assert (∀ w0, unhappy_list (model w0) = [] →
                Schelling_step w0 = (Raise IndexError, w0)) as Hbody.
  { intros w0 Hu0. unfold Schelling_step.
    rewrite (bind_eq _ _ w0 (model w0) w0) by done.
    apply bind_Raise. by rewrite Hu0. }
  split_and!.
  - rewrite step_unfold, (Hbody (ticked w)); done.
  - by apply Hbody.
  - intros Hc a [self Hs]%lookup_lt_is_Some.
    apply (move_flag_set w a self Hs).
    destruct (SchellingAgent.happy self) eqn:Hh; [done|].
    assert (a ∈ unhappy_list (model w)) as Hin.
    { apply unhappy_iff; [done|]. unfold flag. by rewrite Hs, <-Hh. }
    rewrite Hu in Hin. by apply elem_of_nil in Hin.
Qed.

(** * Construction, loop by loop *)

Lemma random_choice_nil w : random_choice [] w = (Raise IndexError, w).
Proof. done. Qed.

Lemma random_choice_run seq w :
  seq ≠ [] →
  ∃ x r, x ∈ seq ∧
         random_choice seq w =
           (Ok x, {| global_random := r; model := model w |}).
Proof.
  intros Hne. unfold random_choice. destruct seq as [|y l]; [done|].
  unfold randbelow.
  assert (tape (global_random w) (cursor (global_random w))
            `mod` length (y :: l) < length (y :: l)) as Hlt
    by (apply Nat.mod_upper_bound; cbn; lia).
  apply lookup_lt_is_Some in Hlt as [x Hx]. rewrite Hx.
  eexists x, _. split; [|done]. by eapply list_elem_of_lookup_2.
Qed.

Lemma spawned_Placing ty node e m :
  node ∈ empty m → list_remove node (empty m) = Some e →
  Placing m → Placing (spawned ty node [] e m).
Proof.
  intros Hin He [Hpre Hloc Hnd Hfree Hplaced Hdist Hroom Hcells Hnodes].
  pose proof (list_remove_perm _ _ _ He) as Hp.
  assert (NoDup (node :: e)) as [Hne Hnde]%NoDup_cons by by rewrite <-Hp.
  assert (∀ n, n ∈ e → n ∈ empty m ∧ n ≠ node) as Hsub.
  { intros n Hn. split; [rewrite Hp; by right|]. intros ->. done. }
  pose proof (spawned_PreInv ty node [] e m (Hfree node Hin) Hpre) as Hpre'.
  split; cbn.
  - done.
  - destruct Hloc as [Hgr _ Hlc Hla Hlad Hle]. split; cbn.
    + done.
    + by destruct Hpre' as (_ & _ & _ & ?).
    + intros n Hn. destruct (decide (node = n)) as [->|Hne'].
      * rewrite lookup_insert_eq. eauto.
      * rewrite lookup_insert_ne by done. by apply Hlc.
    + intros a ag [Ha|[Hge Ha]]%lookup_app_Some.
      * destruct (Hla a ag Ha) as (p & c & Hpos & Hp1 & Hc & Hac).
        destruct (Hplaced a ag Ha) as (p' & Hpos' & _ & Hp2).
        assert (p' = p) as -> by congruence.
        exists p, c. split_and!; try done.
        rewrite lookup_insert_ne; [done|]. intros ->. done.
      * apply list_lookup_singleton_Some in Ha as [Ha0 <-]. cbn.
        exists node, [a]. split_and!; [done|by apply Hnodes| |by left].
        rewrite lookup_insert_eq. do 3 f_equal. lia.
    + done.
    + intros n [Hn _]%Hsub. by apply Hle.
  - done.
  - intros n [Hn Hnn]%Hsub. rewrite lookup_insert_ne by done. by apply Hfree.
  - intros a ag [Ha|[Hge Ha]]%lookup_app_Some.
    + destruct (Hplaced a ag Ha) as (p & Hpos & Hp1 & Hp2).
      exists p. split_and!; [done|done|]. intros [? _]%Hsub. done.
    + apply list_lookup_singleton_Some in Ha as [_ <-]. cbn.
      exists node. split_and!; [done|by apply Hnodes|done].
  - rewrite fmap_app. cbn. apply NoDup_app. split_and!; [done| |].
    + intros x Hx ->%list_elem_of_singleton.
      apply list_elem_of_fmap in Hx as (ag & Hag & Hx).
      apply list_elem_of_lookup in Hx as [a Ha].
      destruct (Hplaced a ag Ha) as (p & Hpos & _ & Hp2).
      rewrite Hpos in Hag. injection Hag as ->. done.
    + apply NoDup_singleton.
  - rewrite length_app. cbn. rewrite Hp in Hroom. cbn in Hroom. lia.
  - intros n Hn. destruct (decide (node = n)) as [->|Hne'].
    + rewrite lookup_insert_eq. eauto.
    + rewrite lookup_insert_ne by done. by apply Hcells.
  - intros n [Hn _]%Hsub. by apply Hnodes.
Qed.

Lemma spawn_run ty w :
  Placing (model w) → empty (model w) ≠ [] →
  ∃ node e r,
    node ∈ empty (model w) ∧ list_remove node (empty (model w)) = Some e ∧
    spawn ty w =
      (Ok tt, {| global_random := r;
                 model := spawned ty node [] e (model w) |}).
Proof.
  intros HP Hne.
  set (m1 := with_agents
               (agents (model w) ++ [SchellingAgent.mk ty None false])
               (model w)).
  set (w1 := {| global_random := global_random w; model := m1 |}).
  destruct (random_choice_run (empty (model w)) w1 Hne)
    as (node & r & Hin & Hch).
  destruct (list_remove_is_Some _ _ Hin) as [e He].
  exists node, e, r. split_and!; [done|done|].
  unfold spawn.
  rewrite (bind_eq _ _ w (model w) w) by done.
  rewrite (bind_eq _ _ w tt w1) by done.
  rewrite (bind_eq _ _ w1 m1 w1) by done.
  erewrite bind_eq by exact Hch.
  pose proof (pl_free _ HP node Hin) as Hfree.
  cbv beta iota delta
    [bind place_agent modify update_agent agent get lift deref put ret raise];
    cbn.
  rewrite Hfree. cbn. rewrite lookup_app_r by done.
  rewrite Nat.sub_diag. cbn. rewrite He. cbn.
  unfold spawned. rewrite insert_app_r_alt by done.
  by rewrite Nat.sub_diag.
Qed.

Lemma spawn_fail ty w :
  empty (model w) = [] → ∃ w', spawn ty w = (Raise IndexError, w').
Proof.
  intros He. unfold spawn.
  rewrite (bind_eq _ _ w (model w) w) by done.
  erewrite bind_eq by done.
  erewrite bind_eq by done.
  eexists. apply bind_Raise. cbn. rewrite He. apply random_choice_nil.
Qed.

(** [n < x] for an int [n] and a finite float [x] is [n < ceil(x)]. *)
Lemma lt_float_ceiling (x : float) (n : Z) :
  is_finite x = true →
  int_lt_float n x = (n <? Qceiling (float_value x))%Z.
Proof.
  intros Hx.
  assert (int_lt_float n x = negb (Qle_bool (float_value x) (inject_Z n)))
    as -> by (by destruct x).
  generalize (float_value x). clear. intros x.
  destruct (Z.ltb_spec n (Qceiling x)) as [Hlt|Hge].
  - apply negb_true_iff, not_true_iff_false. rewrite Qle_bool_iff.
    apply Qlt_not_le. eapply Qle_lt_trans; [|apply Qceiling_lt].
    rewrite <-Zle_Qle. lia.
  - apply negb_false_iff, Qle_bool_iff.
    eapply Qle_trans; [apply Qle_ceiling|]. by rewrite <-Zle_Qle.
Qed.

(** When [round] accepts a product, its left factor is finite. *)
Lemma float_round_mul_finite (x y : float) (c : Z) :
  float_round (float_mul x y) = inr c → is_finite x = true.
Proof. destruct x as [| [] | |], y as [| [] | |]; cbn; done. Qed.

(** What [__init__] computes between the loop over the nodes and the
    spawning loops. *)
Lemma wanted_inr g d mp h seed count0 ceiling :
  wanted g d mp = inr (count0, ceiling) →
  ∃ total, total_agents (new_model g d mp h seed) = inr total ∧
           agents0_count (new_model g d mp h seed) total = inr count0 ∧
           is_finite total = true ∧
           ceiling = Qceiling (float_value total).
Proof.
  unfold wanted, total_agents, agents0_count. cbn.
  destruct (float_of_int (Z.of_nat (length g))) as [e|n]; [done|].
  destruct (float_round (float_mul (float_mul d n) mp)) as [e|c] eqn:Hc;
    [done|].
  intros [= <- <-]. exists (float_mul d n). split_and!; try done.
  by eapply float_round_mul_finite.
Qed.

Lemma wanted_inl g d mp h seed e w :
  wanted g d mp = inl e →
  model w = new_model g d mp h seed →
  ∀ w1, (let* total := lift (total_agents (model w)) in
         let* count0 := lift (agents0_count (model w) total) in
         while (S (length (G (model w)))) (cond0 count0) (spawn 0) ;;
         while (S (length (G (model w)))) (cond1 total) (spawn 1) ;;
         shuffle_do count) w1 = (Raise e, w1).
Proof.
  unfold wanted, total_agents, agents0_count. intros H -> w1. cbn.
  destruct (float_of_int (Z.of_nat (length g))) as [e'|n].
  { injection H as ->. done. }
  unfold bind at 1. cbn.
  destruct (float_round (float_mul (float_mul d n) mp)) as [e'|c]; [|done].
  injection H as ->. done.
Qed.

Lemma while_ext fuel c1 c2 body w :
  (∀ m, c1 m = c2 m) → while fuel c1 body w = while fuel c2 body w.
Proof.
  intros Hc. revert w. induction fuel as [|fuel IH]; intros w; cbn;
    unfold bind, get; rewrite Hc; destruct (c2 (model w)); try done.
  destruct (body w) as [[v|e] w1]; [apply IH|done].
Qed.

Lemma while_spawn_spec ty (T : Z) fuel :
  ∀ w, Placing (model w) → length (empty (model w)) < fuel →
    let k := Z.to_nat (T - n_agents (model w)) in
    (k ≤ length (empty (model w)) →
     ∃ w', while fuel (λ m', (n_agents m' <? T)%Z) (spawn ty) w = (Ok tt, w') ∧
           placed_since ty k (model w) (model w')) ∧
    (length (empty (model w)) < k →
     ∃ w', while fuel (λ m', (n_agents m' <? T)%Z) (spawn ty) w
           = (Raise IndexError, w')).
Proof.
  induction fuel as [|fuel IH]; intros w HP Hfuel k; [lia|].
  cbn [while]. rewrite (bind_eq _ _ w (model w) w) by done.
  destruct (Z.ltb_spec (n_agents (model w)) T) as [Hlt|Hge].
  - destruct (empty (model w)) as [|n0 e0] eqn:Hempty.
    + split; [cbn; lia|]. intros _.
      destruct (spawn_fail ty w Hempty) as [w' Hw']. exists w'.
      by apply bind_Raise.
    + destruct (spawn_run ty w HP) as (node & e & r & Hin & He & Hrun);
        [by rewrite Hempty|].
      rewrite Hempty in Hin, He.
      pose proof (list_remove_perm _ _ _ He) as Hperm.
      pose proof (Permutation_length Hperm) as Hlen.
      rewrite (bind_eq _ _ _ _ _ Hrun).
      set (w1 := {| global_random := r;
                    model := spawned ty node [] e (model w) |}) in *.
      assert (Placing (model w1)) as HP1.
      { cbn. apply spawned_Placing; [by rewrite Hempty..|done]. }
      assert (1 ≤ k) as Hk_pos by (subst k; lia).
      assert (Z.to_nat (T - n_agents (model w1)) = k - 1) as Hk1
        by (cbn; lia).
      destruct (IH w1 HP1) as [Hok Hfail]; [cbn in *; lia|].
      rewrite Hk1 in Hok, Hfail. cbn in Hok, Hfail, Hlen. split.
      * intros Hk. destruct Hok as (w' & Hw' & HP' & (new & Hnew & Hlnew & Hty)
          & Hn' & Hroom & HG & Hd & Hmp & Hh & Hr); [cbn in *; lia|].
        exists w'. split; [done|]. cbn in *.
        split_and!; try done; try lia; [|rewrite Hempty; cbn; lia].
        exists (SchellingAgent.mk ty (Some node) false :: new).
        split_and!; [by rewrite Hnew, <-app_assoc|cbn; lia|by constructor].
      * intros Hk. apply Hfail. cbn in *. lia.
  - assert (k = 0) as -> by lia. split; [|lia]. intros _.
    exists w. split; [done|].
    split_and!; try done; try lia.
    exists []. split_and!; [by rewrite app_nil_r|done|done].
Qed.

Lemma list_to_map_is_Some (g : list (nat * list nat)) n :
  n ∈ g.*1 → is_Some ((list_to_map g : gmap nat (list nat)) !! n).
Proof.
  intros Hn. destruct (list_to_map g !! n) eqn:E; [eauto|].
  by apply not_elem_of_list_to_map_2 in E.
Qed.

Lemma register_loop_run l :
  ∀ w, (∀ n, n ∈ l → n ∈ (G (model w)).*1) →
    ∃ adr,
      for_each l register_node w =
        (Ok tt, {| global_random := global_random w;
                   model := with_addresses adr
                              (with_empty (empty (model w) ++ l) (model w)) |}) ∧
      ∀ x, adr !! x =
           if decide (x ∈ l)
           then (list_to_map (G (model w)) : gmap nat (list nat)) !! x
           else addresses (model w) !! x.
Proof.
  induction l as [|n l IH]; intros w Hl.
  - exists (addresses (model w)). split.
    + cbn. rewrite app_nil_r. by destruct w as [r []].
    + intros x. rewrite decide_False; [done|]. by intros ?%elem_of_nil.
  - destruct (list_to_map_is_Some (G (model w)) n) as [nb Hnb];
      [apply Hl; by left|].
    set (w1 := {| global_random := global_random w;
                  model := with_addresses (<[n := nb]> (addresses (model w)))
                             (with_empty (empty (model w) ++ [n]) (model w)) |}).
    destruct (IH w1) as (adr & Hrun & Hadr); [intros x Hx; apply Hl; by right|].
    exists adr. split.
    + cbn [for_each].
      assert (register_node n w = (Ok tt, w1)) as Hreg.
      { unfold register_node.
        cbv beta iota delta [bind modify get lift put ret raise]; cbn.
        unfold get_neighborhood, G_neighbors. cbn. by rewrite Hnb. }
      rewrite (bind_eq _ _ _ _ _ Hreg), Hrun. cbn.
      by rewrite <-app_assoc.
    + intros x. rewrite Hadr. cbn.
      destruct (decide (x ∈ l)) as [Hx|Hx].
      * rewrite decide_True; [done|]. by right.
      * destruct (decide (x = n)) as [->|Hxn].
        -- rewrite lookup_insert_eq, decide_True; [done|]. by left.
        -- rewrite lookup_insert_ne by done. rewrite decide_False; [done|].
           intros [?|?]%elem_of_cons; done.
Qed.

Lemma graph_ok_neighbors (g : list (nat * list nat)) n :
  graph_ok g → n ∈ g.*1 →
  ∃ l, (list_to_map g : gmap nat (list nat)) !! n = Some l ∧
       ∀ p, p ∈ l → p ∈ g.*1.
Proof.
  intros [_ Hclosed] Hn. destruct (list_to_map_is_Some g n Hn) as [l Hl].
  exists l. split; [done|].
  apply elem_of_list_to_map_2 in Hl. rewrite Forall_forall in Hclosed.
  specialize (Hclosed _ Hl). cbn in Hclosed.
  by rewrite Forall_forall in Hclosed.
Qed.

Lemma registered_Placing g d mp h seed adr :
  graph_ok g →
  (∀ n, n ∈ g.*1 → adr !! n = (list_to_map g : gmap nat (list nat)) !! n) →
  Placing (with_addresses adr
             (with_empty g.*1 (new_model g d mp h seed))).
Proof.
  intros Hg Hadr. pose proof Hg as [Hnd _].
  assert (∀ n, n ∈ g.*1 → grid (new_model g d mp h seed) !! n = Some [])
    as Hfree.
  { intros n Hn.
    destruct (list_to_map_is_Some ((λ p, (p.1, [])) <$> g) n) as [c Hc].
    { rewrite <-list_fmap_compose. exact Hn. }
    cbn. rewrite Hc. f_equal.
    by apply (new_model_grid g d mp h seed n c). }
  pose proof (new_model_PreInv g d mp h seed) as Hpre.
  split; cbn; try done.
  - split; cbn; try done.
    + by destruct Hpre as (_ & _ & _ & ?).
    + intros n Hn. rewrite Hfree by done. eauto.
    + intros n Hn. rewrite Hadr by done. by apply graph_ok_neighbors.
  - apply NoDup_nil_2.
  - by rewrite length_fmap, Nat.add_0_r.
  - intros n Hn. rewrite Hfree by done. eauto.
Qed.

Lemma get_cell_list_contents_total m l :
  (∀ n, n ∈ l → is_Some (grid m !! n)) →
  ∃ r, get_cell_list_contents m l = inr r.
Proof.
  induction l as [|n l IH]; intros Hl; cbn; [eauto|].
  destruct (Hl n) as [c ->]; [by left|].
  destruct IH as [r ->]; [intros x Hx; apply Hl; by right|]. eauto.
Qed.

Lemma Located_valid m cells nbs :
  Located m → get_cell_list_contents m cells = inr nbs →
  Forall (λ b, is_Some (agents m !! b)) nbs.
Proof.
  intros HL Hnbs. apply Forall_forall. intros b Hb.
  destruct (get_cell_list_contents_elem _ _ _ _ Hnbs Hb)
    as (n & c & _ & Hc & Hbc).
  pose proof (grid_consistent_position m n c b (lo_grid _ HL) Hc Hbc) as Hpb.
  apply position_lt in Hpb. by apply lookup_lt_is_Some.
Qed.

Lemma Located_contents m l :
  Located m → (∀ p, p ∈ l → p ∈ (G m).*1) →
  ∃ nbs, get_cell_list_contents m l = inr nbs.
Proof.
  intros HL Hl. apply get_cell_list_contents_total.
  intros n Hn. by apply (lo_cells _ HL), Hl.
Qed.

Lemma verdict_defined m a :
  Located m → a < length (agents m) → ∃ b, verdict m a = inr b.
Proof.
  intros HL [ag Ha]%lookup_lt_is_Some.
  destruct (lo_agents _ HL a ag Ha) as (p & c & Hpos & Hp & _).
  destruct (graph_ok_neighbors (G m) p (lo_graph _ HL) Hp) as (l & Hl & Hsub).
  destruct (Located_contents m l HL Hsub) as [nbs Hnbs].
  pose proof (Located_valid m l nbs HL Hnbs) as Hvalid.
  unfold verdict, similar, deref, get_neighbors, get_neighborhood, G_neighbors.
  rewrite Ha, Hpos, Hl, Hnbs. case_decide; [|eauto].
  rewrite similar_total_count by done. eauto.
Qed.

Lemma for_each_count_run order :
  ∀ w, (∀ a, a ∈ order → ∃ b, verdict (model w) a = inr b) →
    ∃ w', for_each order count w = (Ok tt, w') ∧
          global_random w' = global_random w.
Proof.
  induction order as [|a order IH]; intros w Hv.
  - by exists w.
  - destruct (Hv a) as [b Hb]; [by left|].
    assert (∃ self, agents (model w) !! a = Some self) as [self Hs].
    { unfold verdict, similar, deref in Hb.
      destruct (agents (model w) !! a); [eauto|done]. }
    pose proof (count_run a w self b Hs Hb) as Hrun.
    set (w1 := {| global_random := global_random w;
                  model := counted a self b (model w) |}) in *.
    destruct (IH w1) as (w' & Hw' & Hr).
    { intros x Hx. destruct (Hv x) as [bx Hbx]; [by right|]. exists bx.
      rewrite <-Hbx. apply verdict_occupancy. cbn.
      by apply counted_occupancy. }
    exists w'. split; [|done]. cbn [for_each].
    by rewrite (bind_eq _ _ _ _ _ Hrun).
Qed.

Lemma shuffle_do_count_run w :
  Located (model w) →
  ∃ w', shuffle_do count w = (Ok tt, w') ∧
        global_random w' = global_random w.
Proof.
  intros HL. unfold shuffle_do.
  rewrite (bind_eq _ _ w (model w) w) by done.
  pose proof (shuffle_perm (random (model w)) (seq 0 (length (agents (model w)))))
    as Hperm.
  destruct (shuffle _ _) as [order r]. cbn in Hperm.
  erewrite bind_eq by done.
  set (w1 := {| global_random := global_random w;
                model := with_random r (model w) |}).
  destruct (for_each_count_run order w1) as (w' & Hw' & Hr); [|by exists w'].
  intros a Ha. cbn.
  rewrite Hperm in Ha. apply elem_of_seq in Ha.
  assert (∃ b, verdict (model w) a = inr b) as [b Hb]
    by (apply verdict_defined; [done|lia]).
  exists b. rewrite <-Hb. apply verdict_occupancy. by repeat split.
Qed.

Lemma Located_frame m m' : same_frame m m' → Located m → Located m'.
Proof.
  intros (Hocc & Hadr & Hemp) [Hgr Hgc Hlc Hla Hlad Hle].
  pose proof Hocc as (_ & HG & Hgrid & _).
  split; rewrite ?HG, ?Hgrid, ?Hadr, ?Hemp; try done.
  - by eapply same_occupancy_grid_consistent.
  - intros a ag' Ha'.
    pose proof (same_occupancy_lookup m m' a Hocc) as Hk.
    rewrite Ha' in Hk. destruct (agents m !! a) as [ag|] eqn:Ha; [|done].
    injection Hk as _ Hpos. rewrite Hpos. by apply Hla.
Qed.

Lemma recount_effect_frame_all a m m' : recount_effect a m m' → same_frame m m'.
Proof.
  intros He. split; [by eapply recount_effect_occupancy|].
  by destruct He.
Qed.

Lemma counted_frame a self b m :
  agents m !! a = Some self → same_frame m (counted a self b m).
Proof.
  intros Hs. split; [by apply counted_occupancy|]. by destruct b.
Qed.

Lemma shuffle_do_count_Located w u w' :
  shuffle_do count w = (Ok u, w') → Located (model w) → Located (model w').
Proof.
  unfold shuffle_do. intros H HL.
  apply bind_Ok in H as (m & ? & [= <- <-] & H).
  destruct (shuffle _ _) as [order r].
  apply bind_Ok in H as ([] & ? & [= <-] & H).
  eapply (for_each_ind (λ w0, Located (model w0))) in H; [done| |].
  - intros a w0 v w0' _ (self & b & Hs & _ & ->)%count_Ok HL0. cbn.
    eapply Located_frame; [|exact HL0]. by apply counted_frame.
  - cbn. by destruct HL.
Qed.

Lemma shuffle_do_count_keys w u w' :
  shuffle_do count w = (Ok u, w') →
  key <$> agents (model w') = key <$> agents (model w).
Proof.
  unfold shuffle_do. intros H.
  apply bind_Ok in H as (m & ? & [= <- <-] & H).
  destruct (shuffle _ _) as [order r].
  apply bind_Ok in H as ([] & ? & [= <-] & H).
  eapply (for_each_ind
            (λ w0, key <$> agents (model w0) = key <$> agents (model w)))
    in H; [done| |done].
  intros a w0 v w0' _ (self & b & Hs & _ & ->)%count_Ok <-.
  by destruct (counted_occupancy a self b (model w0) Hs) as (_ & _ & _ & ?).
Qed.

(** ** The outcome of construction *)

Lemma fmap_type_replicate (l : list SchellingAgent.t) ty :
  Forall (λ ag, SchellingAgent.type ag = ty) l →
  SchellingAgent.type <$> l = replicate (length l) ty.
Proof. induction 1 as [|ag l Hag _ IH]; cbn; [done|]. by rewrite Hag, IH. Qed.

Lemma Schelling_init_spec g d mp h seed r count0 ceiling :
  graph_ok g →
  seed_ok seed = true →
  wanted g d mp = inr (count0, ceiling) →
  (first_count count0 + rest_count count0 ceiling ≤ length g →
   ∃ w, Schelling_init g d mp h seed r = (Ok tt, w) ∧
        Sound (model w) ∧
        placement g (first_count count0) (rest_count count0 ceiling)
          (model w)) ∧
  (length g < first_count count0 + rest_count count0 ceiling →
   ∃ w, Schelling_init g d mp h seed r = (Raise IndexError, w)).
Proof.
  intros Hg Hseed Hwant. rewrite (Schelling_init_run _ _ _ _ _ _ Hseed).
  destruct (wanted_inr g d mp h seed _ _ Hwant)
    as (total & Htot & Hc0 & Hfin & ->).
  unfold init_body.
  set (m0 := new_model g d mp h seed) in *.
  set (w0 := {| global_random := r; model := m0 |}).
  rewrite (bind_eq _ _ w0 m0 w0) by done.
  destruct (register_loop_run g.*1 w0) as (adr & Hreg & Hadr); [done|].
  rewrite (bind_eq _ _ _ _ _ Hreg). clear Hreg. cbn [global_random model].
  set (w1 := {| global_random := r;
                model := with_addresses adr
                           (with_empty (empty m0 ++ g.*1) m0) |}).
  rewrite (bind_eq _ _ w1 total w1) by (by apply lift_Ok).
  rewrite (bind_eq _ _ w1 count0 w1) by (by apply lift_Ok).
  assert (Placing (model w1)) as HP1.
  { apply registered_Placing; [done|]. intros n Hn. rewrite Hadr.
    by rewrite decide_True. }
  assert (length (empty (model w1)) = length g) as Hlen1
    by (cbn; by rewrite length_fmap).
  destruct (while_spawn_spec 0 count0 (S (length (G m0))) w1 HP1)
    as [Hok0 Hfail0]; [cbn in *; lia|].
  assert (Z.to_nat (count0 - n_agents (model w1)) = first_count count0)
    as Hk0 by (cbn; by rewrite Z.sub_0_r).
  rewrite Hk0, Hlen1 in Hok0, Hfail0.
  fold (cond0 count0) in Hok0, Hfail0.
  destruct (decide (first_count count0 ≤ length g)) as [Hle0|Hgt0]; cycle 1.
  { split; [lia|]. intros _. destruct Hfail0 as [w' Hw']; [lia|].
    exists w'. by apply bind_Raise. }
  destruct Hok0 as (w2 & Hw2 & HP2 & (new0 & Hnew0 & Hl0 & Hty0) & Hn2 & Hroom2
                    & HG2 & _); [done|].
  rewrite (bind_eq _ _ _ _ _ Hw2).
  destruct (while_spawn_spec 1 (Qceiling (float_value total))
              (S (length (G m0))) w2 HP2) as [Hok1 Hfail1];
    [cbn in *; lia|].
  rewrite <-(while_ext _ (cond1 total)) in Hok1, Hfail1
    by (intros; by apply lt_float_ceiling).
  assert (Z.to_nat (Qceiling (float_value total) - n_agents (model w2))
          = rest_count count0 (Qceiling (float_value total))) as Hk1.
  { rewrite Hn2. cbn. unfold rest_count, first_count. f_equal. }
  rewrite Hk1 in Hok1, Hfail1.
  destruct (decide (rest_count count0 (Qceiling (float_value total))
                    ≤ length (empty (model w2))))
    as [Hle1|Hgt1]; cycle 1.
  { split; [lia|]. intros _. destruct Hfail1 as [w' Hw']; [lia|].
    exists w'. by apply bind_Raise. }
  split; [|lia]. intros _.
  destruct Hok1 as (w3 & Hw3 & HP3 & (new1 & Hnew1 & Hl1 & Hty1) & Hn3 & _
                    & HG3 & _); [done|].
  rewrite (bind_eq _ _ _ _ _ Hw3).
  destruct (shuffle_do_count_run w3 (pl_located _ HP3)) as (w & Hw & _).
  exists w. split; [done|].
  pose proof (shuffle_do_count_keys _ _ _ Hw) as Hkeys.
  pose proof (shuffle_do_count_Inv _ _ _ Hw (pl_pre _ HP3)) as [Hcc _].
  pose proof Hcc as (Hn & _).
  pose proof (shuffle_do_count_Located _ _ _ Hw (pl_located _ HP3)) as HL.
  split; [by split|].
  assert (agents (model w3) = new0 ++ new1) as Hag3
    by (rewrite Hnew1, Hnew0; done).
  assert (∀ l : list SchellingAgent.t,
            SchellingAgent.type <$> l = fst <$> (key <$> l)) as Htype
    by (intros l; by rewrite <-list_fmap_compose).
  assert (∀ l : list SchellingAgent.t,
            SchellingAgent.pos <$> l = snd <$> (key <$> l)) as Hpos
    by (intros l; by rewrite <-list_fmap_compose).
  split_and!.
  - rewrite Hn. apply (f_equal length) in Hkeys.
    rewrite !length_fmap, Hag3, length_app in Hkeys. lia.
  - rewrite Htype, Hkeys, <-Htype, Hag3, fmap_app.
    by rewrite (fmap_type_replicate new0 0), (fmap_type_replicate new1 1),
      Hl0, Hl1.
  - rewrite Hpos, Hkeys, <-Hpos. apply (pl_distinct _ HP3).
  - rewrite Hpos, Hkeys, <-Hpos. apply Forall_fmap, Forall_forall.
    intros ag [a Ha]%list_elem_of_lookup.
    destruct (pl_placed _ HP3 a ag Ha) as (n & Hn' & Hin & _).
    exists n. split; [done|]. by rewrite HG3, HG2 in Hin.
Qed.

Lemma first_rest_count (count0 ceiling : Z) :
  Z.of_nat (first_count count0 + rest_count count0 ceiling) =
  Z.max (Z.max 0 count0) ceiling.
Proof. unfold rest_count, first_count. lia. Qed.

Lemma Schelling_init_negative_seed g d mp h seed r :
  seed_ok seed = false →
  Schelling_init g d mp h seed r =
    (Raise ValueError,
     {| global_random := r; model := new_model g d mp h seed |}).
Proof. unfold Schelling_init. by intros ->. Qed.

Lemma Schelling_init_wanted_inl g d mp h seed r e :
  graph_ok g → seed_ok seed = true → wanted g d mp = inl e →
  ∃ w, Schelling_init g d mp h seed r = (Raise e, w).
Proof.
  intros Hg Hseed Hwant. rewrite (Schelling_init_run _ _ _ _ _ _ Hseed).
  unfold init_body.
  set (m0 := new_model g d mp h seed) in *.
  set (w0 := {| global_random := r; model := m0 |}).
  rewrite (bind_eq _ _ w0 m0 w0) by done.
  destruct (register_loop_run g.*1 w0) as (adr & Hreg & Hadr); [done|].
  rewrite (bind_eq _ _ _ _ _ Hreg). eexists.
  by apply (wanted_inl g d mp h seed e w0 Hwant).
Qed.

(** * When construction fails *)

(** C7, as the code has it.  Construction checks no parameter itself.  On
    a well-formed topology it ends as [construction_outcome] computes:
    with a negative seed, [Model.__init__] raises [ValueError]; with a
    density or minority fraction for which [round] gets a [nan] or an
    infinity, [round] raises [ValueError] or [OverflowError]; otherwise it
    returns whenever the number of agents the two loops ask for,
    [max(0, round(total * minority_pc), ceil(total))] with [total] the
    double [density * node_count], does not exceed the number of nodes,
    even without any node, and else [random.choice] raises [IndexError] on
    the exhausted list of empty nodes. *)
Theorem construction_ends_as_computed
    (g : list (nat * list nat)) (d mp : float) (h : Q) (seed : Seed)
    (r : Random) :
  graph_ok g →
  (Schelling_init g d mp h seed r).1 = construction_outcome g d mp seed.
Proof.
  intros Hg. unfold construction_outcome.
  destruct (seed_ok seed) eqn:Hseed;
    [|by rewrite Schelling_init_negative_seed].
  destruct (wanted g d mp) as [e|[count0 ceiling]] eqn:Hwant.
  { by destruct (Schelling_init_wanted_inl g d mp h seed r e) as [w ->]. }
  destruct (Schelling_init_spec g d mp h seed r _ _ Hg Hseed Hwant)
    as [Hok Hfail].
  destruct (Nat.leb_spec (first_count count0 + rest_count count0 ceiling)
              (length g)) as [Hle|Hgt].
  - by destruct (Hok Hle) as (w & -> & _).
  - by destruct (Hfail Hgt) as (w & ->).
Qed.

(** * Runs stay sound, and steps complete *)

Lemma list_remove_other x l l' b :
  list_remove x l = Some l' → b ∈ l → b ≠ x → b ∈ l'.
Proof.
  intros Hp%list_remove_perm Hb Hne. rewrite Hp in Hb.
  by apply elem_of_cons in Hb as [?|?].
Qed.

Lemma relocated_Located a self src dst c c' c2 e m :
  agents m !! a = Some self →
  SchellingAgent.pos self = Some src →
  grid m !! src = Some c →
  list_remove a c = Some c' →
  <[src := c']> (grid m) !! dst = Some c2 →
  dst ∈ empty m →
  list_remove dst (empty m ++ [src]) = Some e →
  Located m → Located (relocated a self src dst c' c2 e m).
Proof.
  intros Hs Hpos Hc Hc' Hc2 Hdst He HL.
  pose proof HL as [Hgr Hgc Hlc Hla Hlad Hle].
  assert (src ∈ (G m).*1) as Hsrc.
  { destruct (Hla a self Hs) as (p & _ & Hp & Hin & _). congruence. }
  split; cbn; try done.
  - by eapply relocated_grid.
  - intros n Hn. destruct (decide (dst = n)) as [->|Hne].
    + rewrite lookup_insert_eq. eauto.
    + rewrite lookup_insert_ne by done.
      destruct (decide (src = n)) as [->|Hne'].
      * rewrite lookup_insert_eq. eauto.
      * rewrite lookup_insert_ne by done. by apply Hlc.
  - intros b ag Hb. destruct (decide (b = a)) as [->|Hba].
    + rewrite list_lookup_insert_eq in Hb by (by eapply lookup_lt_Some).
      injection Hb as <-. cbn. exists dst, (c2 ++ [a]).
      split_and!; [done|by apply Hle|by rewrite lookup_insert_eq|].
      apply elem_of_app. right. by left.
    + rewrite list_lookup_insert_ne in Hb by done.
      destruct (Hla b ag Hb) as (p & cb & Hpb & Hp & Hcb & Hbc).
      assert (∃ cb', <[src := c']> (grid m) !! p = Some cb' ∧ b ∈ cb')
        as (cb' & Hcb' & Hbc').
      { destruct (decide (src = p)) as [->|Hne'].
        - rewrite lookup_insert_eq. exists c'. split; [done|].
          assert (cb = c) as -> by congruence.
          by eapply list_remove_other.
        - rewrite lookup_insert_ne by done. eauto. }
      destruct (decide (dst = p)) as [->|Hne].
      * exists p, (c2 ++ [a]). rewrite lookup_insert_eq.
        split_and!; try done. apply elem_of_app. left. congruence.
      * exists p, cb'. rewrite lookup_insert_ne by done. done.
  - intros n Hn%(list_remove_subseteq _ _ _ _ He).
    apply elem_of_app in Hn as [Hn|Hn%list_elem_of_singleton];
      [by apply Hle|by subst].
Qed.

Lemma with_steps_frame x m : same_frame m (with_steps x m).
Proof. by repeat split. Qed.

Lemma with_steps_Sound x m : Sound m → Sound (with_steps x m).
Proof.
  intros [Hc HL]. split; [exact Hc|].
  eapply Located_frame; [apply with_steps_frame|done].
Qed.

Lemma recount_effect_Sound a m m' :
  recount_effect a m m' → Sound m → Sound m'.
Proof.
  intros He [Hc HL]. split.
  - by eapply recount_effect_counters.
  - eapply Located_frame; [|done]. by eapply recount_effect_frame_all.
Qed.

Lemma for_each_recount_Sound l w u w' :
  for_each l recount w = (Ok u, w') → Sound (model w) → Sound (model w').
Proof.
  intros H HS. eapply (for_each_recount_ind Sound l); [|exact H|exact HS].
  intros a m m' _. apply recount_effect_Sound.
Qed.

Lemma relocation_Sound a w w' (r : relocation a w w') :
  Sound (model w) → Sound (model w').
Proof.
  intros [Hc HL]. open_relocation r.
  eapply for_each_recount_Sound; [exact Hr3|].
  eapply for_each_recount_Sound; [exact Hr2|].
  apply recount_Ok in Hr1 as (_ & _ & He).
  eapply recount_effect_Sound; [exact He|].
  apply random_choice_Ok in Hch as [_ Hdst].
  subst w1. cbn. split.
  - by apply relocated_counters.
  - by eapply relocated_Located.
Qed.

Lemma move_Sound a w v w' :
  move a w = (Ok v, w') → Sound (model w) → Sound (model w').
Proof.
  intros Hmove HS.
  apply move_Ok in Hmove as (_ & [(self & _ & _ & ->)|[r _]]); [done|].
  by eapply relocation_Sound.
Qed.

Lemma step_Sound w v w' :
  step w = (Ok v, w') → Sound (model w) → Sound (model w').
Proof.
  intros (_ & a & w0 & u & w1 & Hch & Hmv & ->)%step_Ok HS.
  apply random_choice_Ok in Hch as [Hm _].
  apply (with_steps_Sound (Schelling.steps (model w) + 1)) in HS.
  change (Sound (model (ticked w))) in HS.
  rewrite <-Hm in HS. apply (move_Sound _ _ _ _ Hmv) in HS as [Hc HL].
  split.
  - destruct Hc as (?&?&?&?&?). by repeat split.
  - by destruct HL.
Qed.

Lemma steps_Sound k w u w' :
  steps k w = (Ok u, w') → Sound (model w) → Sound (model w').
Proof.
  revert w. induction k as [|k IH]; intros w H HS.
  - by injection H as <- <-.
  - cbn in H. apply bind_Ok in H as (v & w1 & Hs & H).
    eapply IH; [exact H|]. by eapply step_Sound.
Qed.

Lemma Schelling_init_Sound g d mp h seed r u w :
  graph_ok g → Schelling_init g d mp h seed r = (Ok u, w) → Sound (model w).
Proof.
  intros Hg Hinit.
  destruct (seed_ok seed) eqn:Hseed;
    [|by rewrite Schelling_init_negative_seed in Hinit].
  destruct (wanted g d mp) as [e|[count0 ceiling]] eqn:Hwant.
  { destruct (Schelling_init_wanted_inl g d mp h seed r e) as [w' Hw'];
      congruence. }
  destruct (Schelling_init_spec g d mp h seed r _ _ Hg Hseed Hwant)
    as [Hok Hfail].
  destruct (decide (first_count count0 + rest_count count0 ceiling
                    ≤ length g)) as [Hle|Hgt].
  - destruct (Hok Hle) as (w' & Hw' & HS & _). congruence.
  - destruct Hfail as [w' Hw']; [lia|]. congruence.
Qed.

Lemma run_Sound g d mp h seed r k u w :
  graph_ok g → run g d mp h seed r k = (Ok u, w) → Sound (model w).
Proof.
  intros Hg. unfold run.
  destruct (Schelling_init g d mp h seed r) as [[[]|e] w0] eqn:E; [|done].
  intros H. eapply steps_Sound; [exact H|]. by eapply Schelling_init_Sound.
Qed.

Lemma recount_total a w :
  Sound (model w) → a < length (agents (model w)) →
  ∃ w', recount a w = (Ok VNone, w').
Proof.
  intros [Hc HL] Hlt.
  destruct (verdict_defined _ a HL Hlt) as [b Hb].
  apply lookup_lt_is_Some in Hlt as [self Hs].
  destruct (decide (SchellingAgent.happy self = b)) as [Heq|Hne].
  { exists w. by eapply recount_same_run. }
  destruct b, (SchellingAgent.happy self) eqn:Hh; try done.
  - assert (a ∈ unhappy_list (model w)) as Hin.
    { apply unhappy_iff; [done|]. unfold flag. by rewrite Hs, <-Hh. }
    apply list_remove_is_Some in Hin as [l Hl].
    eexists. by eapply recount_up_run.
  - eexists. by eapply recount_down_run.
Qed.

Lemma for_each_recount_total l :
  ∀ w, Sound (model w) →
       Forall (λ b, is_Some (agents (model w) !! b)) l →
       ∃ w', for_each l recount w = (Ok tt, w').
Proof.
  induction l as [|a l IH]; intros w HS Hl; [by exists w|].
  apply Forall_cons in Hl as [Ha%lookup_lt_is_Some Hl].
  destruct (recount_total a w HS Ha) as [w1 Hw1].
  pose proof (recount_Ok _ _ _ _ Hw1) as (_ & _ & He).
  destruct (IH w1) as [w' Hw'].
  - by eapply recount_effect_Sound.
  - eapply Forall_impl; [exact Hl|]. cbn. intros b Hb%lookup_lt_is_Some.
    apply lookup_lt_is_Some.
    by rewrite (same_occupancy_length _ _ (recount_effect_occupancy _ _ _ He)).
  - exists w'. cbn [for_each]. by rewrite (bind_eq _ _ _ _ _ Hw1).
Qed.

Lemma move_unfold a w self src dst r cells nbs c c' c2 e ncells nnbs :
  agents (model w) !! a = Some self →
  SchellingAgent.happy self = false →
  SchellingAgent.pos self = Some src →
  addresses (model w) !! src = Some cells →
  get_cell_list_contents (model w) cells = inr nbs →
  random_choice (empty (model w)) w
    = (Ok dst, {| global_random := r; model := model w |}) →
  grid (model w) !! src = Some c →
  list_remove a c = Some c' →
  <[src := c']> (grid (model w)) !! dst = Some c2 →
  list_remove dst (empty (model w) ++ [src]) = Some e →
  addresses (model w) !! dst = Some ncells →
  get_cell_list_contents (relocated a self src dst c' c2 e (model w)) ncells
    = inr nnbs →
  move a w =
    (recount a ;; for_each nbs recount ;; for_each nnbs recount ;; ret VNone)
      {| global_random := r;
         model := relocated a self src dst c' c2 e (model w) |}.
Proof.
  intros Hs Hh Hpos Hadr Hnbs Hch Hc Hc' Hc2 He Hnadr Hnnbs.
  pose proof (lookup_lt_Some _ _ _ Hs) as Hlt.
  unfold move.
  rewrite (bind_eq _ _ w self w) by now apply agent_Ok.
  rewrite Hh, bool_decide_eq_true_2 by done.
  rewrite (bind_eq _ _ w (model w) w) by done.
  rewrite (bind_eq _ _ w cells w)
    by (apply lift_Ok; unfold address; by rewrite Hpos, Hadr).
  rewrite (bind_eq _ _ w nbs w) by (by apply lift_Ok).
  rewrite (bind_eq _ _ _ _ _ Hch). rewrite Hpos.
  unfold relocated in *.
  cbv beta iota delta
    [bind move_agent remove_agent place_agent modify update_agent agent get
     lift deref put ret raise address
     with_empty with_grid with_agents with_number_of_moves set_pos] in *;
    cbn -[recount for_each] in *.
  repeat (first [ rewrite Hs | rewrite Hpos | rewrite Hc | rewrite Hc'
                | rewrite Hc2 | rewrite He | rewrite Hnadr | rewrite Hnnbs
                | rewrite list_insert_insert_eq
                | rewrite list_lookup_insert_eq by (rewrite ?length_insert; done) ];
          cbn -[recount for_each]).
  reflexivity.
Qed.

Lemma move_total a w :
  Sound (model w) → a < length (agents (model w)) → empty (model w) ≠ [] →
  ∃ w', move a w = (Ok VNone, w').
Proof.
  intros [Hcc HL] [self Hs]%lookup_lt_is_Some Hne.
  destruct (SchellingAgent.happy self) eqn:Hh.
  { exists w. by eapply move_flag_set. }
  pose proof (lookup_lt_Some _ _ _ Hs) as Hlt.
  destruct (lo_agents _ HL a self Hs) as (src & c & Hpos & Hsrc & Hc & Hac).
  destruct (lo_addresses _ HL src Hsrc) as (cells & Hadr & Hcells).
  destruct (Located_contents _ cells HL Hcells) as [nbs Hnbs].
  destruct (random_choice_run (empty (model w)) w Hne) as (dst & r & Hdst & Hch).
  destruct (list_remove_is_Some a c Hac) as [c' Hc'].
  pose proof (lo_empty _ HL dst Hdst) as Hdn.
  assert (∃ c2, <[src := c']> (grid (model w)) !! dst = Some c2) as [c2 Hc2].
  { destruct (decide (src = dst)) as [->|Hsd].
    - rewrite lookup_insert_eq. eauto.
    - rewrite lookup_insert_ne by done. by apply (lo_cells _ HL). }
  destruct (list_remove_is_Some dst (empty (model w) ++ [src])) as [e He].
  { apply elem_of_app. by left. }
  set (m1 := relocated a self src dst c' c2 e (model w)).
  set (w1 := {| global_random := r; model := m1 |}).
  assert (Sound m1) as HS1.
  { split; [by apply relocated_counters|by eapply relocated_Located]. }
  destruct (lo_addresses _ HL dst Hdn) as (ncells & Hnadr & Hncells).
  destruct (Located_contents m1 ncells (proj2 HS1) Hncells) as [nnbs Hnnbs].
  rewrite (move_unfold a w self src dst r cells nbs c c' c2 e ncells nnbs)
    by done.
  fold m1. fold w1.
  assert (length (agents m1) = length (agents (model w))) as Hlen1
    by (cbn; by rewrite length_insert).
  destruct (recount_total a w1) as [w2 Hw2];
    [done|rewrite <-Hlen1 in Hlt; exact Hlt|].
  pose proof (recount_Ok _ _ _ _ Hw2) as (_ & _ & He2).
  pose proof (recount_effect_Sound _ _ _ He2 HS1) as HS2.
  pose proof (same_occupancy_length _ _ (recount_effect_occupancy _ _ _ He2))
    as Hlen2.
  change (agents (model w1)) with (agents m1) in Hlen2.
  destruct (for_each_recount_total nbs w2 HS2) as [w3 Hw3].
  { eapply Forall_impl; [exact (Located_valid _ _ _ HL Hnbs)|]. cbn.
    intros b Hb%lookup_lt_is_Some. apply lookup_lt_is_Some. lia. }
  pose proof (for_each_recount_Sound _ _ _ _ Hw3 HS2) as HS3.
  pose proof (same_occupancy_length _ _ (for_each_recount_occupancy _ _ _ _ Hw3))
    as Hlen3.
  destruct (for_each_recount_total nnbs w3 HS3) as [w4 Hw4].
  { eapply Forall_impl; [exact (Located_valid _ _ _ (proj2 HS1) Hnnbs)|]. cbn.
    intros b Hb%lookup_lt_is_Some. apply lookup_lt_is_Some.
    rewrite length_insert in Hb. lia. }
  exists w4.
  rewrite (bind_eq _ _ _ _ _ Hw2), (bind_eq _ _ _ _ _ Hw3),
    (bind_eq _ _ _ _ _ Hw4). done.
Qed.

Lemma step_total w :
  Sound (model w) →
  unhappy_list (model w) ≠ [] → empty (model w) ≠ [] →
  ∃ w', step w = (Ok VNone, w').
Proof.
  intros HS Hu He.
  destruct (random_choice_run (unhappy_list (model w)) (ticked w) Hu)
    as (a & r & Ha & Hch).
  set (w0 := {| global_random := r; model := model (ticked w) |}) in *.
  assert (a < length (agents (model w))) as Hlt.
  { apply (unhappy_iff _ _ (proj1 HS)) in Ha. unfold flag in Ha.
    destruct (agents (model w) !! a) eqn:E; [|done].
    by eapply lookup_lt_Some. }
  destruct (move_total a w0) as [w1 Hw1];
    [by apply with_steps_Sound|done..|].
  eexists. rewrite step_unfold. unfold Schelling_step.
  rewrite (bind_eq _ _ (ticked w) (model (ticked w)) (ticked w)) by done.
  change (unhappy_list (model (ticked w))) with (unhappy_list (model w)).
  rewrite (bind_eq _ _ _ _ _ Hch), (bind_eq _ _ _ _ _ Hw1). done.
Qed.

(** * The seed and the module-level generator *)

(** C5 fails on the code: placements and moves are drawn with the
    module-level [random.choice], not with the generator built from [seed].
    Two constructions on the same graph, with the same parameters and the
    same seed, started with the module-level generator in two different
    states, place the agents differently and make different first moves. *)
Theorem seed_does_not_fix_the_run :
  let construct :=
    Schelling_init path5 (float_of_ratio 3 5) (float_of_ratio 1 3) (1 # 2)
      (seeded 42 []) in
  let first := construct (Random_seed (draws [1; 0; 1; 0; 1])) in
  let second := construct (Random_seed (draws [0; 0; 0; 0; 1])) in
  first.1 = Ok tt ∧ second.1 = Ok tt ∧
  SchellingAgent.pos <$> agents (model first.2) = [Some 1; Some 0; Some 3] ∧
  SchellingAgent.pos <$> agents (model second.2) = [Some 0; Some 1; Some 2] ∧
  (step first.2).1 = Ok VNone ∧ (step second.2).1 = Ok VNone ∧
  moves_between (model first.2) (model (step first.2).2) = [(1, Some 4)] ∧
  moves_between (model second.2) (model (step second.2).2) = [(0, Some 4)].
Proof. cbv zeta. split_and!; vm_compute; reflexivity. Qed.

(** * The bookkeeping of the empty nodes *)

Lemma registered_Occupancy g d mp h seed adr :
  graph_ok g →
  Occupancy (with_addresses adr (with_empty g.*1 (new_model g d mp h seed))).
Proof.
  intros [Hnd _]. split; cbn.
  - done.
  - intros n. split.
    + intros Hn.
      destruct (list_to_map_is_Some ((λ p, (p.1, [])) <$> g) n) as [c Hc].
      { rewrite <-list_fmap_compose. exact Hn. }
      rewrite Hc. f_equal. by apply (new_model_grid g d mp h seed n c).
    + intros Hn. by apply (new_model_grid g d mp h seed n []).
  - intros n c Hc. apply (new_model_grid g d mp h seed n c) in Hc as [-> _].
    cbn. lia.
  - by rewrite length_fmap, Nat.add_0_r.
Qed.

Lemma spawned_Occupancy ty node e m :
  node ∈ empty m → list_remove node (empty m) = Some e →
  Occupancy m → Occupancy (spawned ty node [] e m).
Proof.
  intros Hnode He [Hnd Hem Hsi Hco].
  pose proof (list_remove_perm _ _ _ He) as Hp.
  assert (NoDup (node :: e)) as [Hne Hnde]%NoDup_cons by (by rewrite <-Hp).
  split; cbn.
  - done.
  - intros n. destruct (decide (node = n)) as [->|Hn].
    + rewrite lookup_insert_eq. split; [done|discriminate].
    + rewrite lookup_insert_ne by done. rewrite <-Hem, Hp.
      rewrite elem_of_cons. intuition congruence.
  - intros n c. destruct (decide (node = n)) as [->|Hn].
    + rewrite lookup_insert_eq. intros [= <-]. cbn. lia.
    + rewrite lookup_insert_ne by done. apply Hsi.
  - apply Permutation_length in Hp. cbn in Hp. rewrite length_app. cbn. lia.
Qed.

Lemma frame_Occupancy m m' : same_frame m m' → Occupancy m → Occupancy m'.
Proof.
  intros [Hocc [_ He]] [Hnd Hem Hsi Hco].
  pose proof (same_occupancy_length _ _ Hocc) as Hlen.
  destruct Hocc as (_ & HG & Hgr & _).
  split; rewrite ?He, ?Hgr, ?HG, ?Hlen; done.
Qed.

Lemma with_steps_Tidy x m : Tidy m → Tidy (with_steps x m).
Proof.
  intros (HS & HO & HA). split_and!.
  - by apply with_steps_Sound.
  - eapply frame_Occupancy; [apply with_steps_frame|done].
  - exact HA.
Qed.

Lemma frame_Agree m m' : same_frame m m' → Agree m → Agree m'.
Proof.
  intros [(_ & HG & _) [Ha _]] H n. rewrite HG, Ha. apply H.
Qed.

(** What single occupancy makes of a relocation: the agent leaves its cell
    empty and arrives in a cell that was empty. *)
Lemma relocated_single a self src dst c c' c2 m :
  agents m !! a = Some self →
  SchellingAgent.pos self = Some src →
  grid m !! src = Some c →
  list_remove a c = Some c' →
  <[src := c']> (grid m) !! dst = Some c2 →
  dst ∈ empty m →
  Located m → Occupancy m →
  c = [a] ∧ c' = [] ∧ c2 = [] ∧ src ≠ dst ∧ src ∉ empty m.
Proof.
  intros Hs Hpos Hc Hc' Hc2 Hdst HL [Hnd Hem Hsi Hco].
  destruct (lo_agents _ HL a self Hs) as (p & cp & Hp & _ & Hcp & Hin).
  assert (p = src) as -> by congruence.
  assert (cp = c) as -> by congruence.
  assert (c = [a]) as ->.
  { pose proof (Hsi _ _ Hc) as Hlen.
    destruct c as [|x [|y c]]; cbn in Hlen; [by apply elem_of_nil in Hin| |lia].
    by apply list_elem_of_singleton in Hin as ->. }
  cbn in Hc'. rewrite decide_True in Hc' by done. injection Hc' as <-.
  assert (src ∉ empty m) as Hsrc.
  { rewrite Hem, Hc. discriminate. }
  assert (src ≠ dst) as Hne by (intros ->; done).
  rewrite lookup_insert_ne in Hc2 by done.
  apply Hem in Hdst. split_and!; [done|done|congruence|done|done].
Qed.

Lemma relocated_Occupancy a self src dst e m :
  agents m !! a = Some self →
  src ≠ dst → src ∉ empty m →
  list_remove dst (empty m ++ [src]) = Some e →
  Occupancy m → Occupancy (relocated a self src dst [] [] e m).
Proof.
  intros Hs Hne Hsrc He [Hnd Hem Hsi Hco].
  pose proof (list_remove_perm _ _ _ He) as Hp.
  assert (NoDup (empty m ++ [src])) as Hnd1.
  { apply NoDup_app. split_and!; [done| |apply NoDup_singleton].
    intros x Hx ->%list_elem_of_singleton. done. }
  assert (NoDup (dst :: e)) as [Hdst Hnde]%NoDup_cons by (by rewrite <-Hp).
  split; cbn.
  - done.
  - intros n. destruct (decide (dst = n)) as [->|Hn].
    + rewrite lookup_insert_eq. split; [done|discriminate].
    + rewrite lookup_insert_ne by done.
      assert (n ∈ e ↔ n ∈ empty m ++ [src]) as ->.
      { rewrite Hp, elem_of_cons. intuition congruence. }
      rewrite elem_of_app, list_elem_of_singleton.
      destruct (decide (src = n)) as [->|Hn'].
      * rewrite lookup_insert_eq. tauto.
      * rewrite lookup_insert_ne by done. rewrite <-Hem. intuition congruence.
  - intros n c. destruct (decide (dst = n)) as [->|Hn].
    + rewrite lookup_insert_eq. intros [= <-]. cbn. lia.
    + rewrite lookup_insert_ne by done.
      destruct (decide (src = n)) as [->|Hn'].
      * rewrite lookup_insert_eq. intros [= <-]. cbn. lia.
      * rewrite lookup_insert_ne by done. apply Hsi.
  - apply Permutation_length in Hp. rewrite length_app in Hp. cbn in Hp.
    rewrite length_insert. lia.
Qed.

Lemma recounts_frame (P : t → Prop) l w u w' :
  (∀ m m', same_frame m m' → P m → P m') →
  for_each l recount w = (Ok u, w') → P (model w) → P (model w').
Proof.
  intros HP H H0. eapply (for_each_recount_ind P l); [|exact H|exact H0].
  intros a m m' _ He. apply HP. by eapply recount_effect_frame_all.
Qed.

Lemma relocation_Tidy a w w' (r : relocation a w w') :
  Tidy (model w) → Tidy (model w').
Proof.
  intros (HS & HO & HA). split; [by eapply relocation_Sound|].
  destruct HS as [_ HL]. open_relocation r.
  pose proof Hch as [_ Hdst]%random_choice_Ok.
  destruct (relocated_single a self src dst c c' c2 (model w))
    as (-> & -> & -> & Hne & Hsrc); try done.
  apply recount_Ok in Hr1 as (_ & _ & He%recount_effect_frame_all).
  subst w1. cbn in He.
  split.
  - eapply (recounts_frame Occupancy); [apply frame_Occupancy|exact Hr3|].
    eapply (recounts_frame Occupancy); [apply frame_Occupancy|exact Hr2|].
    eapply frame_Occupancy; [exact He|]. by apply relocated_Occupancy.
  - eapply (recounts_frame Agree); [apply frame_Agree|exact Hr3|].
    eapply (recounts_frame Agree); [apply frame_Agree|exact Hr2|].
    eapply frame_Agree; [exact He|]. exact HA.
Qed.

Lemma step_Tidy w v w' :
  step w = (Ok v, w') → Tidy (model w) → Tidy (model w').
Proof.
  intros Hstep HT. split; [eapply step_Sound; [exact Hstep|apply HT]|].
  apply step_Ok in Hstep as (_ & a & w0 & u & w1 & Hch & Hmv & ->).
  apply random_choice_Ok in Hch as [Hm _].
  apply (with_steps_Tidy (Schelling.steps (model w) + 1)) in HT.
  change (Tidy (model (ticked w))) in HT. rewrite <-Hm in HT.
  assert (Tidy (model w1)) as (_ & HO & HA).
  { apply move_Ok in Hmv as (_ & [(self & _ & _ & ->)|[r _]]); [done|].
    by eapply relocation_Tidy. }
  split; [by destruct HO|exact HA].
Qed.

Lemma steps_Tidy k w u w' :
  steps k w = (Ok u, w') → Tidy (model w) → Tidy (model w').
Proof.
  revert w. induction k as [|k IH]; intros w H HT.
  - by injection H as <- <-.
  - cbn in H. apply bind_Ok in H as (v & w1 & Hs & H).
    eapply IH; [exact H|]. by eapply step_Tidy.
Qed.

Lemma spawn_loop_Occupancy fuel cond ty w u w' :
  while fuel cond (spawn ty) w = (Ok u, w') →
  Placing (model w) → Occupancy (model w) → Agree (model w) →
  Placing (model w') ∧ Occupancy (model w') ∧ Agree (model w').
Proof.
  intros H HP HO HA.
  eapply (while_ind (λ w, Placing (model w) ∧ Occupancy (model w)
                          ∧ Agree (model w))) in H as [H _]; [exact H| |done].
  clear. intros w v w' _ (node & c & e & Hnode & Hc & He & ->)%spawn_Ok
    (HP & HO & HA).
  assert (c = []) as ->.
  { pose proof (pl_free _ HP node Hnode). congruence. }
  split_and!; [by apply spawned_Placing|by apply spawned_Occupancy|exact HA].
Qed.

Lemma shuffle_do_count_frame w u w' :
  shuffle_do count w = (Ok u, w') → same_frame (model w) (model w').
Proof.
  unfold shuffle_do. intros (m & w0 & [= <- <-] & H)%bind_Ok.
  destruct (shuffle _ _) as [order r].
  apply bind_Ok in H as ([] & w1 & [= <-] & H).
  eapply (for_each_ind (λ w1, same_frame (model w) (model w1))) in H;
    [exact H| |].
  - intros a w1 v w2 _ (self & b & Hs & _ & ->)%count_Ok [Ho [Ha He]].
    destruct (counted_frame a self b (model w1) Hs) as [Ho' [Ha' He']].
    split; [by eapply same_occupancy_trans|]. cbn. split; congruence.
  - cbn. split; [by repeat split|done].
Qed.

(** The attributes the initial counting leaves alone. *)
Lemma shuffle_do_count_rest w u w' :
  shuffle_do count w = (Ok u, w') →
  (density (model w'), minority_pc (model w'), running (model w'),
   agent_list (model w'), n_agents (model w'), number_of_moves (model w'))
  = (density (model w), minority_pc (model w), running (model w),
     agent_list (model w), n_agents (model w), number_of_moves (model w)).
Proof.
  unfold shuffle_do. intros (m & w0 & [= <- <-] & H)%bind_Ok.
  destruct (shuffle _ _) as [order r].
  apply bind_Ok in H as ([] & w1 & [= <-] & H).
  set (f := λ m : t, (density m, minority_pc m, running m, agent_list m,
                      n_agents m, number_of_moves m)).
  change (f (model w') = f (model w)).
  eapply (for_each_ind (λ w1, f (model w1) = f (model w))) in H;
    [exact H| |done].
  intros a wa v wb _ (self & b & _ & _ & ->)%count_Ok <-. by destruct b.
Qed.

Lemma shuffle_do_count_global w u w' :
  shuffle_do count w = (Ok u, w') → global_random w' = global_random w.
Proof.
  unfold shuffle_do. intros (m & w0 & [= <- <-] & H)%bind_Ok.
  destruct (shuffle _ _) as [order r].
  apply bind_Ok in H as ([] & w1 & [= <-] & H).
  eapply (for_each_ind (λ w1, global_random w1 = global_random w)) in H;
    [exact H| |done].
  intros a wa v wb _ (self & b & _ & _ & ->)%count_Ok. done.
Qed.

Lemma Schelling_init_Tidy g d mp h seed r u w :
  graph_ok g → Schelling_init g d mp h seed r = (Ok u, w) → Tidy (model w).
Proof.
  intros Hg Hinit. split; [by eapply Schelling_init_Sound|].
  apply Schelling_init_Ok in Hinit as [Hseed Hinit].
  apply init_body_Ok in Hinit
    as (w1 & w2 & w3 & c0 & tot & H1 & H2 & H3 & H4 & Htot & Hc0).
  cbn [model G new_model] in H1, H2, H3.
  set (w0 := {| global_random := r; model := new_model g d mp h seed |}) in *.
  destruct (register_loop_run g.*1 w0) as (adr & Hreg & Hadr); [done|].
  rewrite Hreg in H1. injection H1 as <-.
  assert (∀ n, n ∈ g.*1 → adr !! n = (list_to_map g : gmap nat (list nat)) !! n)
    as Hadr'.
  { intros n Hn. rewrite Hadr. by rewrite decide_True. }
  eapply spawn_loop_Occupancy in H2 as (HP2 & HO2 & HA2);
    [|by apply (registered_Placing g d mp h seed adr)
     |by apply (registered_Occupancy g d mp h seed adr)|exact Hadr'].
  eapply spawn_loop_Occupancy in H3 as (HP3 & HO3 & HA3); [|done..].
  apply shuffle_do_count_frame in H4.
  split; [by eapply frame_Occupancy|by eapply frame_Agree].
Qed.

Lemma run_Tidy g d mp h seed r k u w :
  graph_ok g → run g d mp h seed r k = (Ok u, w) → Tidy (model w).
Proof.
  intros Hg. unfold run.
  destruct (Schelling_init g d mp h seed r) as [[[]|e] w0] eqn:E; [|done].
  intros H. eapply steps_Tidy; [exact H|]. by eapply Schelling_init_Tidy.
Qed.

(** * Flags against a count from scratch *)

Lemma get_cell_list_contents_intro m cells l n c b :
  get_cell_list_contents m cells = inr l →
  n ∈ cells → grid m !! n = Some c → b ∈ c → b ∈ l.
Proof.
  revert l. induction cells as [|n' ns IH]; intros l; cbn.
  - intros _ ?%elem_of_nil. done.
  - destruct (grid m !! n') as [c'|] eqn:Hc'; [|done].
    destruct (get_cell_list_contents m ns) as [|r]; [done|].
    intros [= <-] [->|Hn]%elem_of_cons Hc Hb; apply elem_of_app.
    + left. congruence.
    + right. by apply IH.
Qed.

Lemma get_cell_list_contents_agree m m' l :
  (∀ n, n ∈ l → grid m' !! n = grid m !! n) →
  get_cell_list_contents m' l = get_cell_list_contents m l.
Proof.
  induction l as [|n l IH]; intros H; cbn; [done|].
  rewrite H by (by left). rewrite IH; [done|].
  intros n' Hn'. apply H. by right.
Qed.

Lemma similar_total_types m m' ty l acc :
  (∀ n, SchellingAgent.type <$> agents m' !! n
        = SchellingAgent.type <$> agents m !! n) →
  similar_total m' ty l acc = similar_total m ty l acc.
Proof.
  intros H. revert acc. induction l as [|n l IH]; intros acc; cbn; [done|].
  unfold deref. specialize (H n).
  destruct (agents m' !! n) as [x|], (agents m !! n) as [y|]; try done.
  cbn in H. injection H as ->. apply IH.
Qed.

Lemma recount_effect_fresh a m m' :
  recount_effect a m m' →
  fresh_at m' a ∧ ∀ b, fresh_at m b → fresh_at m' b.
Proof.
  intros He. pose proof (recount_effect_occupancy _ _ _ He) as Ho.
  assert (∀ b, verdict m' b = verdict m b) as Hv
    by (intros b; by apply verdict_occupancy).
  destruct He as [self b Hs Hb Hf|self l Hs Hb Hf Hl|self Hs Hb Hf].
  - split; [|done]. exists self. split; [done|congruence].
  - assert (fresh_at (flip_to_happy a self l m) a) as Ha.
    { exists (set_happy true self). split; [|by rewrite Hv].
      cbn. apply list_lookup_insert_eq. by eapply lookup_lt_Some. }
    split; [done|]. intros x (sx & Hx & Hvx).
    destruct (decide (x = a)) as [->|Hne]; [done|].
    exists sx. split; [|by rewrite Hv].
    cbn. by rewrite list_lookup_insert_ne.
  - assert (fresh_at (flip_to_unhappy a self m) a) as Ha.
    { exists (set_happy false self). split; [|by rewrite Hv].
      cbn. apply list_lookup_insert_eq. by eapply lookup_lt_Some. }
    split; [done|]. intros x (sx & Hx & Hvx).
    destruct (decide (x = a)) as [->|Hne]; [done|].
    exists sx. split; [|by rewrite Hv].
    cbn. by rewrite list_lookup_insert_ne.
Qed.

Lemma for_each_recount_fresh l b :
  ∀ w u w', for_each l recount w = (Ok u, w') →
            b ∈ l ∨ fresh_at (model w) b → fresh_at (model w') b.
Proof.
  induction l as [|a l IH]; intros w u w' H Hb.
  - injection H as _ <-. destruct Hb as [?%elem_of_nil|?]; done.
  - cbn in H. apply bind_Ok in H as (v & w1 & Hr & H).
    apply recount_Ok in Hr as (_ & _ & [Ha Hkeep]%recount_effect_fresh).
    eapply IH; [exact H|].
    destruct Hb as [[->|Hb]%elem_of_cons|Hb]; [by right|by left|].
    right. by apply Hkeep.
Qed.

Lemma counted_fresh a self b m :
  agents m !! a = Some self → verdict m a = inr b →
  fresh_at (counted a self b m) a ∧
  ∀ x, fresh_at m x → fresh_at (counted a self b m) x.
Proof.
  intros Hs Hb.
  pose proof (counted_occupancy a self b m Hs) as Ho.
  assert (∀ x, verdict (counted a self b m) x = verdict m x) as Hv
    by (intros x; by apply verdict_occupancy).
  assert (agents (counted a self b m) = <[a := set_happy b self]> (agents m))
    as Hag by (by destruct b).
  assert (fresh_at (counted a self b m) a) as Ha.
  { exists (set_happy b self). split; [|by rewrite Hv].
    rewrite Hag. apply list_lookup_insert_eq. by eapply lookup_lt_Some. }
  split; [done|]. intros x (sx & Hx & Hvx).
  destruct (decide (x = a)) as [->|Hne]; [done|].
  exists sx. split; [|by rewrite Hv].
  rewrite Hag. by rewrite list_lookup_insert_ne.
Qed.

Lemma for_each_count_fresh l b :
  ∀ w u w', for_each l count w = (Ok u, w') →
            b ∈ l ∨ fresh_at (model w) b → fresh_at (model w') b.
Proof.
  induction l as [|a l IH]; intros w u w' H Hb.
  - injection H as _ <-. destruct Hb as [?%elem_of_nil|?]; done.
  - cbn in H. apply bind_Ok in H as (v & w1 & Hr & H).
    apply count_Ok in Hr as (self & c & Hs & Hc & ->).
    destruct (counted_fresh a self c (model w) Hs Hc) as [Ha Hkeep].
    eapply IH; [exact H|]. cbn.
    destruct Hb as [[->|Hb]%elem_of_cons|Hb]; [by right|by left|].
    right. by apply Hkeep.
Qed.

Lemma shuffle_do_count_Fresh w u w' :
  shuffle_do count w = (Ok u, w') → Fresh (model w').
Proof.
  intros H b Hb.
  pose proof (shuffle_do_count_frame _ _ _ H) as [Ho%same_occupancy_length _].
  revert H. unfold shuffle_do. intros (m & w0 & [= <- <-] & H)%bind_Ok.
  pose proof (shuffle_perm (random (model w)) (seq 0 (length (agents (model w)))))
    as Hp.
  destruct (shuffle _ _) as [order r]. cbn in Hp.
  apply bind_Ok in H as ([] & w1 & [= <-] & H).
  eapply for_each_count_fresh; [exact H|]. left.
  rewrite Hp. apply elem_of_seq. lia.
Qed.

Lemma graph_sym_lookup (g : list (nat * list nat)) n l p :
  graph_sym g →
  (list_to_map g : gmap nat (list nat)) !! n = Some l → p ∈ l →
  ∃ l', (list_to_map g : gmap nat (list nat)) !! p = Some l' ∧ n ∈ l'.
Proof.
  intros Hs Hn Hp. apply elem_of_list_to_map_2 in Hn.
  unfold graph_sym in Hs. rewrite Forall_forall in Hs.
  specialize (Hs _ Hn). cbn in Hs. rewrite Forall_forall in Hs.
  specialize (Hs _ Hp).
  destruct ((list_to_map g : gmap nat (list nat)) !! p) as [l'|]; cbn in Hs.
  - eauto.
  - by apply elem_of_nil in Hs.
Qed.

(** An agent away from both neighbourhoods keeps its verdict when [a]
    goes from [src] to [dst]. *)
Lemma relocated_fresh a self src dst e m cells nbs ncells nnbs b :
  Located m → Occupancy m → Agree m → graph_sym (G m) →
  agents m !! a = Some self →
  SchellingAgent.pos self = Some src →
  grid m !! src = Some [a] →
  dst ∈ empty m →
  addresses m !! src = Some cells →
  get_cell_list_contents m cells = inr nbs →
  addresses m !! dst = Some ncells →
  get_cell_list_contents (relocated a self src dst [] [] e m) ncells = inr nnbs →
  b ≠ a → b ∉ nbs → b ∉ nnbs →
  fresh_at m b → fresh_at (relocated a self src dst [] [] e m) b.
Proof.
  intros HL HO HA Hsym Hs Hpos Hsrc Hdst Hadr Hnbs Hnadr Hnnbs Hba Hb1 Hb2
    (sb & Hsb & Hvb).
  set (m1 := relocated a self src dst [] [] e m) in *.
  exists sb. split; [cbn; by rewrite list_lookup_insert_ne|].
  rewrite <-Hvb. unfold verdict, similar, deref.
  assert (agents m1 !! b = Some sb) as ->
    by (cbn; by rewrite list_lookup_insert_ne).
  rewrite Hsb.
  destruct (lo_agents _ HL b sb Hsb) as (q & cb & Hq & Hqn & Hcb & Hbcb).
  rewrite Hq. unfold get_neighbors, get_neighborhood. cbn [G m1 relocated
    with_number_of_moves with_empty with_agents with_grid G_neighbors].
  destruct ((list_to_map (G m) : gmap nat (list nat)) !! q) as [lq|] eqn:Hlq;
    [|done].
  assert (src ∈ (G m).*1) as Hsrcn.
  { destruct (lo_agents _ HL a self Hs) as (p & _ & Hp & Hin & _). congruence. }
  assert (dst ∈ (G m).*1) as Hdstn by (by apply (lo_empty _ HL)).
  assert (q ≠ src) as Hqs.
  { intros ->. rewrite Hsrc in Hcb. injection Hcb as <-.
    by apply list_elem_of_singleton in Hbcb. }
  assert (q ≠ dst) as Hqd.
  { intros ->. apply (oc_empty _ HO) in Hdst. rewrite Hdst in Hcb.
    injection Hcb as <-. by apply elem_of_nil in Hbcb. }
  assert (src ∉ lq) as Hs1.
  { intros Hin. destruct (graph_sym_lookup _ _ _ _ Hsym Hlq Hin)
      as (l' & Hl' & Hql').
    rewrite <-(HA src Hsrcn), Hadr in Hl'. injection Hl' as <-.
    apply Hb1. by eapply get_cell_list_contents_intro. }
  assert (dst ∉ lq) as Hd1.
  { intros Hin. destruct (graph_sym_lookup _ _ _ _ Hsym Hlq Hin)
      as (l' & Hl' & Hql').
    rewrite <-(HA dst Hdstn), Hnadr in Hl'. injection Hl' as <-.
    apply Hb2. eapply get_cell_list_contents_intro; [exact Hnnbs|exact Hql'| |exact Hbcb].
    cbn. by rewrite !lookup_insert_ne. }
  assert (get_cell_list_contents m1 lq = get_cell_list_contents m lq) as ->.
  { apply get_cell_list_contents_agree. intros n Hn. cbn.
    rewrite !lookup_insert_ne; [done|congruence|congruence]. }
  destruct (get_cell_list_contents m lq) as [|nb]; [done|].
  assert (∀ ty l acc, similar_total m1 ty l acc = similar_total m ty l acc)
    as Hst.
  { intros ty l acc. apply similar_total_types. intros n. cbn.
    destruct (decide (n = a)) as [->|Hn].
    - rewrite list_lookup_insert_eq by (by eapply lookup_lt_Some).
      by rewrite Hs.
    - by rewrite list_lookup_insert_ne. }
  by rewrite Hst.
Qed.

Lemma relocation_Fresh a w w' (r : relocation a w w') :
  Tidy (model w) → graph_sym (G (model w)) → Fresh (model w) →
  Fresh (model w').
Proof.
  intros ([_ HL] & HO & HA) Hsym HF b Hb.
  open_relocation r.
  pose proof Hch as [_ Hdst]%random_choice_Ok.
  destruct (relocated_single a self src dst c c' c2 (model w))
    as (-> & -> & -> & Hne & Hsrc); try done.
  assert (length (agents (model w')) = length (agents (model w))) as Hlen.
  { pose proof (for_each_recount_occupancy _ _ _ _ Hr3) as H3%same_occupancy_length.
    pose proof (for_each_recount_occupancy _ _ _ _ Hr2) as H2%same_occupancy_length.
    pose proof Hr1 as (_ & _ & H1%recount_effect_occupancy%same_occupancy_length)%recount_Ok.
    rewrite H3, H2, H1. subst w1. cbn. by rewrite length_insert. }
  rewrite Hlen in Hb.
  pose proof Hr1 as (_ & _ & [Ha Hkeep]%recount_effect_fresh)%recount_Ok.
  eapply for_each_recount_fresh; [exact Hr3|].
  destruct (decide (b ∈ nnbs)) as [?|Hb2]; [by left|right].
  eapply for_each_recount_fresh; [exact Hr2|].
  destruct (decide (b ∈ nbs)) as [?|Hb1]; [by left|right].
  destruct (decide (b = a)) as [->|Hba]; [done|].
  apply Hkeep. subst w1. cbn in *.
  eapply relocated_fresh; try done. by apply HF.
Qed.

Lemma with_steps_Fresh x m : Fresh m → Fresh (with_steps x m).
Proof.
  intros HF a Ha. destruct (HF a Ha) as (self & Hs & Hv).
  exists self. split; [done|]. rewrite <-Hv. apply verdict_occupancy.
  by repeat split.
Qed.

Lemma step_Fresh w v w' :
  step w = (Ok v, w') →
  Tidy (model w) → graph_sym (G (model w)) → Fresh (model w) →
  Fresh (model w').
Proof.
  intros Hstep HT Hsym HF.
  apply step_Ok in Hstep as (_ & a & w0 & u & w1 & Hch & Hmv & ->).
  apply random_choice_Ok in Hch as [Hm _].
  apply (with_steps_Tidy (Schelling.steps (model w) + 1)) in HT.
  change (Tidy (model (ticked w))) in HT.
  change (graph_sym (G (model (ticked w)))) in Hsym.
  apply (with_steps_Fresh (Schelling.steps (model w) + 1)) in HF.
  change (Fresh (model (ticked w))) in HF.
  rewrite <-Hm in HT, Hsym, HF.
  assert (Fresh (model w1)) as HF1.
  { apply move_Ok in Hmv as (_ & [(self & _ & _ & ->)|[r _]]); [done|].
    by eapply relocation_Fresh. }
  intros b Hb. destruct (HF1 b Hb) as (sb & Hsb & Hv).
  exists sb. split; [done|]. rewrite <-Hv. apply verdict_occupancy.
  by repeat split.
Qed.

Lemma step_G w v w' : step w = (Ok v, w') → G (model w') = G (model w).
Proof.
  intros (_ & a & wa & u & wb & Hch & Hmv & ->)%step_Ok.
  apply random_choice_Ok in Hch as [Hm _].
  change (G (model w)) with (G (model (ticked w))). rewrite <-Hm. cbn.
  apply move_Ok in Hmv as (_ & [(self & _ & _ & ->)|[r _]]); [done|].
  open_relocation r.
  pose proof (for_each_recount_occupancy _ _ _ _ Hr3) as (_ & H3 & _).
  pose proof (for_each_recount_occupancy _ _ _ _ Hr2) as (_ & H2 & _).
  pose proof Hr1 as (_ & _ & (_ & H1 & _)%recount_effect_occupancy)%recount_Ok.
  rewrite H3, H2, H1. by subst w1.
Qed.

Lemma steps_Fresh k w u w' :
  steps k w = (Ok u, w') →
  Tidy (model w) → graph_sym (G (model w)) → Fresh (model w) →
  Fresh (model w') ∧ G (model w') = G (model w).
Proof.
  revert w. induction k as [|k IH]; intros w H HT Hsym HF.
  - by injection H as <- <-.
  - cbn in H. apply bind_Ok in H as (v & w1 & Hs & H).
    pose proof (step_G _ _ _ Hs) as HG.
    destruct (IH w1 H) as [HF' HG']; [by eapply step_Tidy|by rewrite HG
                                      |by eapply step_Fresh|].
    split; [done|congruence].
Qed.

Lemma Schelling_init_Fresh g d mp h seed r u w :
  Schelling_init g d mp h seed r = (Ok u, w) →
  Fresh (model w) ∧ G (model w) = g.
Proof.
  intros Hinit.
  apply Schelling_init_Ok in Hinit as [Hseed Hinit].
  apply init_body_Ok in Hinit
    as (w1 & w2 & w3 & c0 & tot & H1 & H2 & H3 & H4 & Htot & Hc0).
  split; [by eapply shuffle_do_count_Fresh|].
  apply shuffle_do_count_frame in H4 as [(_ & -> & _) _].
  eapply (while_ind (λ w, G (model w) = g)) in H3 as [-> _]; [done| |].
  { intros w0 v w0' _ (node & c & e & _ & _ & _ & ->)%spawn_Ok. done. }
  eapply (while_ind (λ w, G (model w) = g)) in H2 as [-> _]; [done| |].
  { intros w0 v w0' _ (node & c & e & _ & _ & _ & ->)%spawn_Ok. done. }
  eapply (for_each_ind (λ w, G (model w) = g)) in H1; [exact H1| |done].
  intros x w0 v w0' _ (nb & _ & ->)%register_node_Ok. done.
Qed.

Lemma run_Fresh g d mp h seed r k u w :
  graph_ok g → graph_sym g → run g d mp h seed r k = (Ok u, w) →
  Fresh (model w) ∧ G (model w) = g.
Proof.
  intros Hg Hsym. unfold run.
  destruct (Schelling_init g d mp h seed r) as [[[]|e] w0] eqn:E; [|done].
  intros H. destruct (Schelling_init_Fresh _ _ _ _ _ _ _ _ E) as [HF HG].
  destruct (steps_Fresh _ _ _ _ H) as [HF' HG'];
    [by eapply Schelling_init_Tidy|by rewrite HG|done|].
  split; [done|congruence].
Qed.

Lemma steps_G k w u w' : steps k w = (Ok u, w') → G (model w') = G (model w).
Proof.
  revert w. induction k as [|k IH]; intros w H.
  - by injection H as _ <-.
  - cbn in H. apply bind_Ok in H as (v & w1 & Hs & H).
    rewrite (IH _ H). by eapply step_G.
Qed.

Lemma run_G g d mp h seed r k u w :
  run g d mp h seed r k = (Ok u, w) → G (model w) = g.
Proof.
  unfold run.
  destruct (Schelling_init g d mp h seed r) as [[[]|e] w0] eqn:E; [|done].
  intros H. destruct (Schelling_init_Fresh _ _ _ _ _ _ _ _ E) as [_ HG0].
  rewrite <-HG0. by eapply steps_G.
Qed.

Lemma fresh_flag m a b :
  Fresh m → flag m a = Some b ↔ a < length (agents m) ∧ verdict m a = inr b.
Proof.
  intros HF. unfold flag. split.
  - destruct (agents m !! a) as [self|] eqn:Hs; [|done].
    intros [= <-]. pose proof (lookup_lt_Some _ _ _ Hs) as Hlt.
    split; [done|]. destruct (HF a Hlt) as (s & Hs' & Hv). congruence.
  - intros [Hlt Hv]. destruct (HF a Hlt) as (s & -> & Hv'). cbn. congruence.
Qed.

Lemma fresh_counters m :
  Fresh m → counters_consistent m →
  happy m = Z.of_nat (length (satisfied m)) ∧
  ∀ a, a ∈ unhappy_list m ↔ verdict m a = inr false.
Proof.
  intros HF Hcc.
  assert (∀ a, a ∈ unhappy_list m ↔ verdict m a = inr false) as Hun.
  { intros a. rewrite (unhappy_iff _ _ Hcc), (fresh_flag _ _ _ HF).
    split; [by intros [_ ?]|]. intros Hv. split; [|done].
    unfold verdict, similar, deref in Hv.
    destruct (agents m !! a) eqn:E; [|done]. by eapply lookup_lt_Some. }
  split; [|done].
  destruct Hcc as (Hn & Hsum & Hnd & _).
  set (l := seq 0 (length (agents m))).
  set (P := λ a, verdict m a = inr true).
  pose proof (filter_app_complement P l) as Hp%Permutation_length.
  rewrite length_app in Hp.
  assert (unhappy_list m ≡ₚ filter (λ x, ¬ P x) l) as Hq%Permutation_length.
  { apply NoDup_Permutation; [done|apply NoDup_filter, NoDup_seq|].
    intros a. rewrite Hun, list_elem_of_filter. unfold P, l.
    rewrite elem_of_seq. split.
    - intros Hv. split; [congruence|].
      unfold verdict, similar, deref in Hv.
      destruct (agents m !! a) eqn:E; [|done].
      apply lookup_lt_Some in E. lia.
    - intros [Hv Hlt]. destruct (HF a) as (s & _ & Hs); [lia|].
      rewrite Hs in Hv |- *. by destruct (SchellingAgent.happy s). }
  unfold satisfied. fold l. fold P. unfold l in Hp at 3.
  rewrite length_seq in Hp. lia.
Qed.

(** X1.  In every world reached by construction on a well-formed undirected
    topology and any number of completed steps, the incremental bookkeeping
    agrees with a count from scratch: the [happy] flag of every agent is the
    verdict [similar >= homophily] computed on the current placement,
    [happy] is the number of agents whose verdict is true, and
    [unhappy_list] holds exactly the agents whose verdict is false. *)
Theorem flags_agree_with_a_full_count (g : list (nat * list nat))
    (d mp : float) (h : Q) (seed : Seed) (r : Random) (k : nat) (w : world) :
  graph_ok g → graph_sym g →
  run g d mp h seed r k = (Ok tt, w) →
  (∀ a self, agents (model w) !! a = Some self →
             verdict (model w) a = inr (SchellingAgent.happy self)) ∧
  happy (model w) = Z.of_nat (length (satisfied (model w))) ∧
  (∀ a, a ∈ unhappy_list (model w) ↔ verdict (model w) a = inr false).
Proof.
  intros Hg Hsym Hrun.
  destruct (run_Fresh _ _ _ _ _ _ _ _ _ Hg Hsym Hrun) as [HF _].
  pose proof (run_Sound _ _ _ _ _ _ _ _ _ Hg Hrun) as [Hcc _].
  split; [|by apply fresh_counters].
  intros a self Hs. destruct (HF a) as (s & Hs' & Hv);
    [by eapply lookup_lt_Some|]. congruence.
Qed.

(** X2.  In every world reached by construction on a well-formed topology
    and any number of completed steps, [empty] lists, once each, exactly the
    nodes of the graph no agent stands on; no two agents stand on the same
    node; and the empty nodes and the agents add up to the nodes of the
    graph. *)
Theorem empty_lists_the_free_nodes (g : list (nat * list nat))
    (d mp : float) (h : Q) (seed : Seed) (r : Random) (k : nat) (w : world) :
  graph_ok g →
  run g d mp h seed r k = (Ok tt, w) →
  NoDup (empty (model w)) ∧
  (∀ n, n ∈ empty (model w) ↔
        n ∈ g.*1 ∧ ∀ a, position (model w) a ≠ Some (Some n)) ∧
  (∀ a b n, position (model w) a = Some (Some n) →
            position (model w) b = Some (Some n) → a = b) ∧
  length (empty (model w)) + length (agents (model w)) = length g.
Proof.
  intros Hg Hrun.
  destruct (run_Tidy _ _ _ _ _ _ _ _ _ Hg Hrun) as ([_ HL] & HO & _).
  pose proof (run_G _ _ _ _ _ _ _ _ _ Hrun) as HG.
  assert (∀ a n, position (model w) a = Some (Some n) →
                 ∃ c, grid (model w) !! n = Some c ∧ a ∈ c) as Hcell.
  { intros a n Hp. unfold position in Hp.
    destruct (agents (model w) !! a) as [ag|] eqn:Hag; [|done].
    injection Hp as Hp.
    destruct (lo_agents _ HL a ag Hag) as (p & c & Hp' & _ & Hc & Hin).
    exists c. split; [congruence|done]. }
  split_and!.
  - apply (oc_nodup _ HO).
  - intros n. rewrite (oc_empty _ HO). split.
    + intros Hn. split.
      * rewrite <-HG. apply (lo_empty _ HL). by apply (oc_empty _ HO).
      * intros a (c & Hc & Hin)%Hcell. rewrite Hn in Hc. injection Hc as <-.
        by apply elem_of_nil in Hin.
    + intros [Hn Hno]. rewrite <-HG in Hn.
      destruct (lo_cells _ HL n Hn) as [c Hc]. rewrite Hc. f_equal.
      destruct c as [|b c]; [done|]. exfalso. apply (Hno b).
      eapply grid_consistent_position; [apply (lo_grid _ HL)|exact Hc|by left].
  - intros a b n (ca & Hca & Ha)%Hcell (cb & Hcb & Hb)%Hcell.
    assert (cb = ca) as -> by congruence.
    pose proof (oc_single _ HO _ _ Hca) as Hlen.
    destruct ca as [|x [|y ca]]; cbn in Hlen; [by apply elem_of_nil in Ha| |lia].
    apply list_elem_of_singleton in Ha, Hb. congruence.
  - rewrite <-HG. apply (oc_count _ HO).
Qed.

(** * Moves, steps and the population *)

Lemma fmap_type_insert (l : list SchellingAgent.t) a self ag :
  l !! a = Some self → SchellingAgent.type ag = SchellingAgent.type self →
  SchellingAgent.type <$> <[a := ag]> l = SchellingAgent.type <$> l.
Proof.
  intros Hs Hty. rewrite list_fmap_insert, Hty.
  apply list_insert_id. by rewrite list_lookup_fmap, Hs.
Qed.

Lemma recount_effect_ledger a m m' :
  recount_effect a m m' → ledger m' = ledger m.
Proof.
  intros [self b Hs _ _|self l Hs _ _ _|self Hs _ _]; [done|..];
    unfold ledger; cbn; by rewrite (fmap_type_insert _ _ self).
Qed.

Lemma for_each_recount_ledger l w u w' :
  for_each l recount w = (Ok u, w') → ledger (model w') = ledger (model w).
Proof.
  intros H.
  eapply (for_each_recount_ind (λ m, ledger m = ledger (model w)) l);
    [|exact H|done].
  intros a m m' _ He <-. by eapply recount_effect_ledger.
Qed.

Lemma for_each_recount_global l w u w' :
  for_each l recount w = (Ok u, w') → global_random w' = global_random w.
Proof.
  revert w. induction l as [|a l IH]; intros w H.
  - by injection H as _ <-.
  - cbn in H. apply bind_Ok in H as (v & w1 & Hr & H).
    apply recount_Ok in Hr as (_ & Hg & _). rewrite (IH _ H). done.
Qed.

(** What a completed [step] is made of, in a world with consistent
    counters: the agent picked is unhappy, so [move] relocates it. *)
Lemma step_relocation w v w' :
  counters_consistent (model w) →
  step w = (Ok v, w') →
  ∃ a w0 w1 (r : relocation a w0 w1),
    random_choice (unhappy_list (model w)) (ticked w) = (Ok a, w0) ∧
    w' = {| global_random := global_random w1;
            model := with_running
                       (bool_decide (happy (model w1) < n_agents (model w1))%Z)
                       (model w1) |}.
Proof.
  intros Hcc (_ & a & w0 & u & w1 & Hch & Hmv & ->)%step_Ok.
  pose proof Hch as [Hm Ha]%random_choice_Ok.
  apply move_Ok in Hmv as (_ & [(self & Hs & Hh & ->)|[r _]]).
  - apply (unhappy_iff _ _ Hcc) in Ha. unfold flag in Ha.
    change (agents (model w)) with (agents (model (ticked w))) in Ha.
    rewrite <-Hm, Hs in Ha. cbn in Ha. congruence.
  - by exists a, w0, w1, r.
Qed.

Lemma relocation_ledger a w w' (r : relocation a w w') :
  ledger (model w') =
    ((number_of_moves (model w) + 1)%Z, n_agents (model w),
     agent_list (model w), random (model w),
     SchellingAgent.type <$> agents (model w)).
Proof.
  open_relocation r.
  rewrite (for_each_recount_ledger _ _ _ _ Hr3),
    (for_each_recount_ledger _ _ _ _ Hr2).
  apply recount_Ok in Hr1 as (_ & _ & ->%recount_effect_ledger).
  subst w1. unfold ledger. cbn. by rewrite (fmap_type_insert _ _ self).
Qed.

Lemma step_ledger w v w' :
  counters_consistent (model w) →
  step w = (Ok v, w') →
  ledger (model w') =
    ((number_of_moves (model w) + 1)%Z, n_agents (model w),
     agent_list (model w), random (model w),
     SchellingAgent.type <$> agents (model w)).
Proof.
  intros Hcc (a & w0 & w1 & r & Hch & ->)%step_relocation; [|done].
  apply random_choice_Ok in Hch as [Hm _].
  etransitivity; [exact (relocation_ledger a w0 w1 r)|]. by rewrite Hm.
Qed.

Lemma steps_ledger k w u w' :
  Inv (model w) →
  steps k w = (Ok u, w') →
  ledger (model w') =
    ((number_of_moves (model w) + Z.of_nat k)%Z, n_agents (model w),
     agent_list (model w), random (model w),
     SchellingAgent.type <$> agents (model w)).
Proof.
  revert w. induction k as [|k IH]; intros w HI H.
  - injection H as _ <-. unfold ledger. by rewrite Z.add_0_r.
  - cbn [steps] in H. apply bind_Ok in H as (v & w1 & Hs & H).
    rewrite (IH w1); [|by eapply step_Inv|done].
    pose proof (step_ledger _ _ _ (proj1 HI) Hs) as [= -> -> -> -> ->].
    do 4 f_equal. lia.
Qed.

(** Construction leaves [number_of_moves] at 0 and lists the agents in
    [agent_list] in the order of their creation. *)
Lemma Schelling_init_ledger g d mp h seed r u w :
  Schelling_init g d mp h seed r = (Ok u, w) →
  number_of_moves (model w) = 0%Z ∧
  agent_list (model w) = seq 0 (length (agents (model w))).
Proof.
  intros Hinit.
  apply Schelling_init_Ok in Hinit as [Hseed Hinit].
  apply init_body_Ok in Hinit
    as (w1 & w2 & w3 & c0 & tot & H1 & H2 & H3 & H4 & Htot & Hc0).
  set (P := λ w : world, number_of_moves (model w) = 0%Z ∧
                          agent_list (model w) = seq 0 (length (agents (model w)))).
  assert (∀ fuel cond ty w w', while fuel cond (spawn ty) w = (Ok tt, w') →
                               P w → P w') as Hloop.
  { intros fuel cond ty wa wb H HP.
    eapply (while_ind P) in H as [H _]; [exact H| |done].
    intros wc v wd _ (node & c & e & _ & _ & _ & Hwd)%spawn_Ok [Hn Hl].
    unfold P. rewrite Hwd. split; cbn; [done|].
    rewrite Hl, length_app, Nat.add_1_r, seq_S. done. }
  assert (P w3) as [Hn3 Hl3].
  { eapply Hloop; [exact H3|]. eapply Hloop; [exact H2|].
    eapply (for_each_ind P) in H1; [exact H1| |done].
    intros x wa v wb _ (nb & _ & ->)%register_node_Ok. done. }
  pose proof (shuffle_do_count_frame _ _ _ H4) as [Ho%same_occupancy_length _].
  rewrite Ho, <-Hl3, <-Hn3. clear Hn3 Hl3.
  revert H4. unfold shuffle_do. intros (m & w0 & [= <- <-] & H)%bind_Ok.
  destruct (shuffle _ _) as [order r'].
  apply bind_Ok in H as ([] & wa & [= <-] & H).
  eapply (for_each_ind (λ wb, number_of_moves (model wb) = number_of_moves (model w3)
                              ∧ agent_list (model wb) = agent_list (model w3)))
    in H; [exact H| |done].
  intros a wb v wc _ (self & b & _ & _ & ->)%count_Ok. by destruct b.
Qed.

(** X3.  After construction and [k] completed calls of [step],
    [number_of_moves] is [k]: every completed step moves one agent.
    [agent_list] lists the agents in the order of their creation and
    [n_agents] is its length. *)
Theorem number_of_moves_counts_the_steps (g : list (nat * list nat))
    (d mp : float) (h : Q) (seed : Seed) (r : Random) (k : nat) (w : world) :
  run g d mp h seed r k = (Ok tt, w) →
  number_of_moves (model w) = Z.of_nat k ∧
  agent_list (model w) = seq 0 (length (agents (model w))) ∧
  n_agents (model w) = Z.of_nat (length (agent_list (model w))).
Proof.
  intros Hrun. pose proof (run_Inv _ _ _ _ _ _ _ _ _ Hrun) as [(Hn & _) _].
  revert Hrun. unfold run.
  destruct (Schelling_init g d mp h seed r) as [[[]|e] w0] eqn:E; [|done].
  intros H.
  destruct (Schelling_init_ledger _ _ _ _ _ _ _ _ E) as [Hm0 Hl0].
  pose proof (steps_ledger _ _ _ _ (Schelling_init_Inv _ _ _ _ _ _ _ _ E) H)
    as [= Hm _ Hl _ Hty].
  apply (f_equal length) in Hty. rewrite !length_fmap in Hty.
  split_and!.
  - rewrite Hm, Hm0. lia.
  - by rewrite Hl, Hl0, Hty.
  - by rewrite Hl, Hl0, length_seq, <-Hty.
Qed.

Lemma random_choice_draw seq w x w' :
  random_choice seq w = (Ok x, w') →
  seq !! drawn (global_random w) (length seq) = Some x ∧
  w' = {| global_random := advance (global_random w); model := model w |}.
Proof.
  unfold random_choice, drawn, advance. destruct seq as [|y l]; [done|].
  cbn -[Nat.modulo lookup]. 
  destruct ((y :: l) !! _) as [z|] eqn:E; [|done].
  intros [= <- <-]. done.
Qed.

(** What a relocation does: the destination is the entry of [empty] that
    the generator draws, the agent goes there from the node it stood on,
    nobody else moves, and [empty] is kept in step. *)
Lemma relocation_moves a wa wb (rl : relocation a wa wb) :
  Sound (model wa) → Occupancy (model wa) →
  ∃ src dst,
    empty (model wa) !! drawn (global_random wa) (length (empty (model wa)))
      = Some dst ∧
    position (model wa) a = Some (Some src) ∧ src ≠ dst ∧
    position (model wb) a = Some (Some dst) ∧
    (∀ b, b ≠ a → position (model wb) b = position (model wa) b) ∧
    list_remove dst (empty (model wa) ++ [src]) = Some (empty (model wb)) ∧
    global_random wb = advance (global_random wa).
Proof.
  intros [Hcc HL] HO.
  pose proof (relocation_position _ _ _ rl) as Hpa.
  open_relocation rl. cbn [model global_random] in *.
  pose proof Hch as [Hdst Hw0]%random_choice_draw.
  pose proof Hch as [_ Hin]%random_choice_Ok.
  cbn [model global_random] in *.
  destruct (relocated_single a self src dst c c' c2 (model wa))
    as (-> & -> & -> & Hne & Hsrc); try done.
  pose proof (for_each_recount_occupancy _ _ _ _ Hr3) as Ho3.
  pose proof (for_each_recount_occupancy _ _ _ _ Hr2) as Ho2.
  pose proof Hr1 as (_ & Hg1 & He1)%recount_Ok.
  pose proof (recount_effect_occupancy _ _ _ He1) as Ho1.
  exists src, dst. split_and!; try done.
  - unfold position. by rewrite Hag, <-Hat.
  - intros b Hb.
    rewrite (same_occupancy_position _ _ _ Ho3),
      (same_occupancy_position _ _ _ Ho2),
      (same_occupancy_position _ _ _ Ho1).
    subst w1. cbn. rewrite position_relocated by done.
    by rewrite decide_False.
  - rewrite Htaken. f_equal.
    symmetry.
    eapply (recounts_frame (λ m, empty m = e)); [|exact Hr3|].
    { intros m m' [_ [_ ->]]. done. }
    eapply (recounts_frame (λ m, empty m = e)); [|exact Hr2|].
    { intros m m' [_ [_ ->]]. done. }
    apply recount_effect_frame_all in He1 as [_ [_ ->]]. by subst w1.
  - rewrite (for_each_recount_global _ _ _ _ Hr3),
      (for_each_recount_global _ _ _ _ Hr2), Hg1. subst w1 w0. done.
Qed.

(** X4.  What one completed [step] does, in a world reached by construction
    on a well-formed topology and completed steps.  The agent it moves is
    the entry of [unhappy_list] that the module-level generator draws; the
    destination is the entry of [empty], as it was before the step, that the
    next draw picks, so it is not the node the agent leaves; every other
    agent stays where it was; [empty] becomes the old list with the node
    left appended and the first occurrence of the destination removed; and
    the step makes exactly two draws from the module-level generator. *)
Theorem step_relocates_one_unhappy_agent (g : list (nat * list nat))
    (d mp : float) (h : Q) (seed : Seed) (r : Random) (k : nat) (w : world)
    (v : value) (w' : world) :
  graph_ok g →
  run g d mp h seed r k = (Ok tt, w) →
  step w = (Ok v, w') →
  ∃ a src dst,
    unhappy_list (model w)
      !! drawn (global_random w) (length (unhappy_list (model w))) = Some a ∧
    empty (model w)
      !! drawn (advance (global_random w)) (length (empty (model w)))
      = Some dst ∧
    position (model w) a = Some (Some src) ∧ src ≠ dst ∧
    position (model w') a = Some (Some dst) ∧
    (∀ b, b ≠ a → position (model w') b = position (model w) b) ∧
    list_remove dst (empty (model w) ++ [src]) = Some (empty (model w')) ∧
    global_random w' = advance (advance (global_random w)).
Proof.
  intros Hg Hrun Hstep.
  pose proof (run_Tidy _ _ _ _ _ _ _ _ _ Hg Hrun) as HT.
  pose proof HT as ([Hcc _] & _).
  apply (with_steps_Tidy (Schelling.steps (model w) + 1)) in HT
    as (HS & HO & _).
  destruct (step_relocation _ _ _ Hcc Hstep) as (a & wa & wb & rl & Hch & ->).
  apply random_choice_draw in Hch as [Ha ->].
  destruct (relocation_moves _ _ _ rl HS HO)
    as (src & dst & Hdst & Hsrc & Hne & Hpa & Hpb & He & Hgr).
  exists a, src, dst. split_and!.
  - exact Ha.
  - exact Hdst.
  - exact Hsrc.
  - exact Hne.
  - exact Hpa.
  - exact Hpb.
  - exact He.
  - exact Hgr.
Qed.

(** X5.  Completed steps keep the population: after construction and [k]
    completed steps, the type of every agent, [n_agents], [agent_list], the
    state of the model's own seeded generator and the graph are what
    construction left. *)
Theorem steps_keep_the_population (g : list (nat * list nat))
    (d mp : float) (h : Q) (seed : Seed) (r : Random) (k : nat) (w0 w : world) :
  Schelling_init g d mp h seed r = (Ok tt, w0) →
  steps k w0 = (Ok tt, w) →
  SchellingAgent.type <$> agents (model w)
    = SchellingAgent.type <$> agents (model w0) ∧
  n_agents (model w) = n_agents (model w0) ∧
  agent_list (model w) = agent_list (model w0) ∧
  random (model w) = random (model w0) ∧
  G (model w) = g.
Proof.
  intros Hinit Hsteps.
  pose proof (steps_ledger _ _ _ _ (Schelling_init_Inv _ _ _ _ _ _ _ _ Hinit)
                Hsteps) as [= _ Hn Hl Hr Hty].
  split_and!; try done.
  rewrite (steps_G _ _ _ _ Hsteps).
  by destruct (Schelling_init_Fresh _ _ _ _ _ _ _ _ Hinit).
Qed.

Lemma move_without_empty_node a w self src cells nbs :
  agents (model w) !! a = Some self →
  SchellingAgent.happy self = false →
  SchellingAgent.pos self = Some src →
  addresses (model w) !! src = Some cells →
  get_cell_list_contents (model w) cells = inr nbs →
  empty (model w) = [] →
  move a w = (Raise IndexError, w).
Proof.
  intros Hs Hh Hpos Hadr Hnbs He. unfold move.
  rewrite (bind_eq _ _ w self w) by (by apply agent_Ok).
  rewrite Hh. cbn [bool_decide decide_rel].
  rewrite bool_decide_eq_true_2 by done.
  rewrite (bind_eq _ _ w (model w) w) by done.
  rewrite (bind_eq _ _ w cells w)
    by (apply lift_Ok; split; [|done]; by rewrite Hpos; cbn; rewrite Hadr).
  rewrite (bind_eq _ _ w nbs w) by (by apply lift_Ok).
  apply bind_Raise. by rewrite He.
Qed.

(** X6.  In a world reached by construction on a well-formed topology and
    completed steps where the agents are as many as the nodes and some agent
    is unhappy, [empty] is empty and [step] raises [IndexError], from
    [random.choice(self.model.empty)] in [move].  By then Mesa's wrapper
    has counted the call in [steps] and the module-level generator has made
    one draw, for the agent; nothing else has changed. *)
Theorem step_without_empty_node_raises (g : list (nat * list nat))
    (d mp : float) (h : Q) (seed : Seed) (r : Random) (k : nat) (w : world) :
  graph_ok g →
  run g d mp h seed r k = (Ok tt, w) →
  unhappy_list (model w) ≠ [] →
  length (agents (model w)) = length g →
  empty (model w) = [] ∧
  step w = (Raise IndexError,
            {| global_random := advance (global_random w);
               model := with_steps (Schelling.steps (model w) + 1)
                          (model w) |}).
Proof.
  intros Hg Hrun Hu Hfull.
  pose proof (run_Tidy _ _ _ _ _ _ _ _ _ Hg Hrun) as HT.
  pose proof (oc_count _ (proj1 (proj2 HT))) as Hcount.
  rewrite (run_G _ _ _ _ _ _ _ _ _ Hrun) in Hcount.
  assert (empty (model w) = []) as He.
  { apply length_zero_iff_nil. lia. }
  split; [done|].
  apply (with_steps_Tidy (Schelling.steps (model w) + 1)) in HT
    as ([Hcc HL] & _).
  destruct (random_choice_run (unhappy_list (model w)) (ticked w) Hu)
    as (a & r' & Ha & Hch).
  pose proof Hch as [_ [= Hr']]%random_choice_draw.
  rewrite Hr' in Hch. clear Hr'.
  apply (unhappy_iff _ _ Hcc) in Ha. unfold flag in Ha.
  destruct (agents _ !! a) as [self|] eqn:Hs; [|done].
  injection Ha as Hh.
  destruct (lo_agents _ HL a self Hs) as (src & c & Hpos & Hsrc & _).
  destruct (lo_addresses _ HL src Hsrc) as (cells & Hadr & Hcells).
  destruct (Located_contents _ cells HL Hcells) as [nbs Hnbs].
  rewrite step_unfold.
  assert (Schelling_step (ticked w) =
          (Raise IndexError,
           {| global_random := advance (global_random w);
              model := with_steps (Schelling.steps (model w) + 1)
                         (model w) |})) as ->; [|done].
  unfold Schelling_step.
  rewrite (bind_eq _ _ (ticked w) (model (ticked w)) (ticked w)) by done.
  change (unhappy_list (model (ticked w))) with (unhappy_list (model w)).
  rewrite (bind_eq _ _ _ _ _ Hch).
  apply bind_Raise.
  by eapply move_without_empty_node.
Qed.

(** * Thresholds out of range, and the loop of the driver *)

Lemma similar_total_bounds m ty l : ∀ acc s,
  similar_total m ty l acc = inr s →
  (acc <= s <= acc + Z.of_nat (length l))%Z.
Proof.
  induction l as [|n l IH]; intros acc s; cbn [similar_total length].
  - intros [= <-]. lia.
  - destruct (deref m n) as [|nb]; [done|].
    intros H%IH. destruct (_ =? _)%Z; lia.
Qed.

Lemma similar_range m a q :
  similar m a = inr q → (0 <= q)%Q ∧ (q <= 1)%Q.
Proof.
  unfold similar. destruct (deref m a) as [|self]; [done|].
  destruct (get_neighbors m _) as [|nbs]; [done|].
  case_decide as Hlen; [|intros [= <-]; done].
  destruct (similar_total m _ nbs 0) as [|s] eqn:Hs; [done|].
  intros [= <-]. apply similar_total_bounds in Hs.
  assert (0 < inject_Z (Z.of_nat (length nbs)))%Q as Hpos.
  { change 0%Q with (inject_Z 0). rewrite <-Zlt_Qlt. lia. }
  split.
  - apply Qle_shift_div_l; [done|]. rewrite Qmult_0_l.
    change 0%Q with (inject_Z 0). rewrite <-Zle_Qle. lia.
  - apply Qle_shift_div_r; [done|]. rewrite Qmult_1_l.
    rewrite <-Zle_Qle. lia.
Qed.

Lemma verdict_low m a b :
  (homophily m <= 0)%Q → verdict m a = inr b → b = true.
Proof.
  unfold verdict. intros Hh. destruct (similar m a) as [|q] eqn:Hq; [done|].
  intros [= <-]. apply similar_range in Hq as [Hq _].
  apply Qle_bool_iff. eapply Qle_trans; [exact Hh|exact Hq].
Qed.

Lemma verdict_high m a b :
  (1 < homophily m)%Q → verdict m a = inr b → b = false.
Proof.
  unfold verdict. intros Hh. destruct (similar m a) as [|q] eqn:Hq; [done|].
  intros [= <-]. apply similar_range in Hq as [_ Hq].
  destruct (Qle_bool (homophily m) q) eqn:E; [|done].
  apply Qle_bool_iff in E. exfalso.
  apply (Qlt_irrefl 1). eapply Qlt_le_trans; [exact Hh|]. eapply Qle_trans; [exact E|exact Hq].
Qed.

Lemma steps_homophily k w u w' :
  steps k w = (Ok u, w') → homophily (model w') = homophily (model w).
Proof.
  revert w. induction k as [|k IH]; intros w H.
  - by injection H as _ <-.
  - cbn in H. apply bind_Ok in H as (v & w1 & Hs & H).
    rewrite (IH _ H). clear H IH.
    apply step_Ok in Hs as (_ & a & wa & x & wb & Hch & Hmv & ->).
    apply random_choice_Ok in Hch as [Hm _].
    change (homophily (model w)) with (homophily (model (ticked w))).
    rewrite <-Hm. cbn.
    apply move_Ok in Hmv as (_ & [(self & _ & _ & ->)|[r _]]); [done|].
    open_relocation r.
    pose proof (for_each_recount_occupancy _ _ _ _ Hr3) as (H3 & _).
    pose proof (for_each_recount_occupancy _ _ _ _ Hr2) as (H2 & _).
    pose proof Hr1 as (_ & _ & (H1 & _)%recount_effect_occupancy)%recount_Ok.
    rewrite H3, H2, H1. by subst w1.
Qed.

Lemma Schelling_init_homophily g d mp h seed r u w :
  Schelling_init g d mp h seed r = (Ok u, w) → homophily (model w) = h.
Proof.
  intros Hinit.
  apply Schelling_init_Ok in Hinit as [Hseed Hinit].
  apply init_body_Ok in Hinit
    as (w1 & w2 & w3 & c0 & tot & H1 & H2 & H3 & H4 & Htot & Hc0).
  apply shuffle_do_count_frame in H4 as [(-> & _) _].
  eapply (while_ind (λ w, homophily (model w) = h)) in H3 as [-> _]; [done| |].
  { intros w0 v w0' _ (node & c & e & _ & _ & _ & ->)%spawn_Ok. done. }
  eapply (while_ind (λ w, homophily (model w) = h)) in H2 as [-> _]; [done| |].
  { intros w0 v w0' _ (node & c & e & _ & _ & _ & ->)%spawn_Ok. done. }
  eapply (for_each_ind (λ w, homophily (model w) = h)) in H1; [exact H1| |done].
  intros x w0 v w0' _ (nb & _ & ->)%register_node_Ok. done.
Qed.

(** Mesa sets [running] at construction, and only [step] assigns it. *)
Lemma Schelling_init_running g d mp h seed r u w :
  Schelling_init g d mp h seed r = (Ok u, w) → running (model w) = true.
Proof.
  intros Hinit.
  apply Schelling_init_Ok in Hinit as [Hseed Hinit].
  apply init_body_Ok in Hinit
    as (w1 & w2 & w3 & c0 & tot & H1 & H2 & H3 & H4 & Htot & Hc0).
  apply shuffle_do_count_rest in H4 as [= _ _ -> _ _ _].
  eapply (while_ind (λ w, running (model w) = true)) in H3 as [-> _]; [done| |].
  { intros w0 v w0' _ (node & c & e & _ & _ & _ & ->)%spawn_Ok. done. }
  eapply (while_ind (λ w, running (model w) = true)) in H2 as [-> _]; [done| |].
  { intros w0 v w0' _ (node & c & e & _ & _ & _ & ->)%spawn_Ok. done. }
  eapply (for_each_ind (λ w, running (model w) = true)) in H1; [exact H1| |done].
  intros x w0 v w0' _ (nb & _ & ->)%register_node_Ok. done.
Qed.

Lemma run_homophily g d mp h seed r k u w :
  run g d mp h seed r k = (Ok u, w) → homophily (model w) = h.
Proof.
  unfold run.
  destruct (Schelling_init g d mp h seed r) as [[[]|e] w0] eqn:E; [|done].
  intros H. rewrite (steps_homophily _ _ _ _ H).
  by eapply Schelling_init_homophily.
Qed.

(** With consistent counters, everybody is happy exactly when nobody is
    listed as unhappy. *)
Lemma counters_converged m :
  counters_consistent m →
  (happy m <? n_agents m)%Z = false ↔ unhappy_list m = [].
Proof.
  intros (_ & Hsum & _). rewrite Z.ltb_ge. split.
  - intros H. apply length_zero_iff_nil. lia.
  - intros H. rewrite H in Hsum. cbn in Hsum. lia.
Qed.

Lemma all_unhappy_counters m :
  counters_consistent m → all_unhappy m →
  happy m = 0%Z ∧ unhappy_list m ≡ₚ seq 0 (length (agents m)).
Proof.
  intros Hcc HU.
  assert (unhappy_list m ≡ₚ seq 0 (length (agents m))) as Hp.
  { apply NoDup_Permutation; [apply Hcc|apply NoDup_seq|].
    intros a. rewrite (unhappy_iff _ _ Hcc), elem_of_seq. unfold flag.
    split.
    - destruct (agents m !! a) eqn:E; [|done]. apply lookup_lt_Some in E. lia.
    - intros [_ [self Hs]%lookup_lt_is_Some]. rewrite Hs. cbn.
      by rewrite (HU a self Hs). }
  split; [|done]. destruct Hcc as (Hn & Hsum & _).
  apply Permutation_length in Hp. rewrite length_seq in Hp. lia.
Qed.

Lemma recount_effect_all_unhappy a m m' :
  (1 < homophily m)%Q → recount_effect a m m' →
  all_unhappy m → all_unhappy m'.
Proof.
  intros Hh [self b Hs Hb Hf|self l Hs Hb Hf Hl|self Hs Hb Hf] HU; [done|..].
  - by apply (verdict_high _ _ _ Hh) in Hb.
  - intros x sx. cbn. destruct (decide (x = a)) as [->|Hne].
    + rewrite list_lookup_insert_eq by (by eapply lookup_lt_Some).
      by intros [= <-].
    + rewrite list_lookup_insert_ne by done. apply HU.
Qed.

Lemma for_each_recount_all_unhappy l w u w' :
  (1 < homophily (model w))%Q →
  for_each l recount w = (Ok u, w') →
  all_unhappy (model w) → all_unhappy (model w').
Proof.
  intros Hh H HU.
  eapply (for_each_recount_ind
            (λ m, homophily m = homophily (model w) ∧ all_unhappy m) l)
    in H as [_ H]; [exact H| |done].
  intros a m m' _ He [Hm HU']. split.
  - destruct (recount_effect_occupancy _ _ _ He) as [-> _]. done.
  - eapply recount_effect_all_unhappy; [|exact He|exact HU']. by rewrite Hm.
Qed.

Lemma step_all_unhappy w v w' :
  (1 < homophily (model w))%Q →
  step w = (Ok v, w') → all_unhappy (model w) → all_unhappy (model w').
Proof.
  intros Hh (_ & a & wa & x & wb & Hch & Hmv & ->)%step_Ok HU.
  apply random_choice_Ok in Hch as [Hm _].
  change (1 < homophily (model (ticked w)))%Q in Hh.
  change (all_unhappy (model (ticked w))) in HU.
  rewrite <-Hm in Hh, HU. cbn.
  apply move_Ok in Hmv as (_ & [(self & _ & _ & ->)|[r _]]); [done|].
  open_relocation r.
  assert (homophily (model w1) = homophily (model wa)) as Hh1
    by (by subst w1).
  pose proof Hr1 as (_ & _ & He1)%recount_Ok.
  pose proof (recount_effect_occupancy _ _ _ He1) as [Hh2 _].
  pose proof (for_each_recount_occupancy _ _ _ _ Hr2) as [Hh3 _].
  eapply for_each_recount_all_unhappy; [|exact Hr3|].
  { by rewrite Hh3, Hh2, Hh1. }
  eapply for_each_recount_all_unhappy; [|exact Hr2|].
  { by rewrite Hh2, Hh1. }
  eapply recount_effect_all_unhappy; [|exact He1|].
  { by rewrite Hh1. }
  subst w1. intros b sb. cbn. destruct (decide (b = a)) as [->|Hne].
  - rewrite list_lookup_insert_eq by (by eapply lookup_lt_Some).
    intros [= <-]. cbn. exact Hunh.
  - rewrite list_lookup_insert_ne by done. apply HU.
Qed.

Lemma run_all_unhappy g d mp h seed r k u w :
  (1 < h)%Q → run g d mp h seed r k = (Ok u, w) → all_unhappy (model w).
Proof.
  intros Hh. unfold run.
  destruct (Schelling_init g d mp h seed r) as [[[]|e] w0] eqn:E; [|done].
  assert (all_unhappy (model w0)) as HU0.
  { destruct (Schelling_init_Fresh _ _ _ _ _ _ _ _ E) as [HF _].
    pose proof (Schelling_init_homophily _ _ _ _ _ _ _ _ E) as Hm.
    intros a self Hs. destruct (HF a) as (s & Hs' & Hv);
      [by eapply lookup_lt_Some|].
    apply verdict_high in Hv; [congruence|by rewrite Hm]. }
  pose proof (Schelling_init_homophily _ _ _ _ _ _ _ _ E) as Hm0.
  clear E. revert w0 HU0 Hm0. induction k as [|k IH]; intros w0 HU0 Hm0 H.
  - by injection H as _ <-.
  - cbn in H. apply bind_Ok in H as (v & w1 & Hs & H).
    eapply (IH w1); [| |exact H].
    + eapply step_all_unhappy; [|exact Hs|exact HU0]. by rewrite Hm0.
    + rewrite <-Hm0. apply (steps_homophily 1 w0 tt w1). cbn.
      by rewrite (bind_eq _ _ _ _ _ Hs).
Qed.

(** The loop of the driver: what a return means. *)
Lemma driver_loop_Ok fuel : ∀ w u w',
  while fuel (λ m, (happy m <? n_agents m)%Z) (step ;; ret tt) w = (Ok u, w') →
  ∃ k, k ≤ fuel ∧ steps k w = (Ok tt, w') ∧
       (happy (model w') <? n_agents (model w'))%Z = false ∧
       ∀ j, j < k → ∃ wj, steps j w = (Ok tt, wj) ∧
                          (happy (model wj) < n_agents (model wj))%Z.
Proof.
  induction fuel as [|fuel IH]; intros w u w'; cbn [while];
    unfold bind at 1, get at 1;
    destruct (happy (model w) <? n_agents (model w))%Z eqn:Hc.
  - done.
  - intros [= <- <-]. exists 0. split_and!; [lia|done|done|lia].
  - intros (x & w1 & (v & w1' & Hs & [= <- <-])%bind_Ok & H)%bind_Ok.
    apply IH in H as (k & Hk & Hsteps & Hend & Hbefore).
    exists (S k). split_and!; [lia| |done|].
    + cbn. by rewrite (bind_eq _ _ _ _ _ Hs).
    + intros [|j] Hj.
      * exists w. split; [done|]. by apply Z.ltb_lt.
      * destruct (Hbefore j) as (wj & Hwj & Hlt); [lia|].
        exists wj. split; [|done]. cbn. by rewrite (bind_eq _ _ _ _ _ Hs).
  - intros [= <- <-]. exists 0. split_and!; [lia|done|done|lia].
Qed.

(** * The driver of [py_api.py] *)

Lemma driver_unfold G1 d h seed fuel g w :
  Schelling_init G1 d (float_of_ratio 1 2) h seed g = (Ok tt, w) →
  run_schelling_process_py G1 d h seed fuel g =
    (while fuel (λ m, (happy m <? n_agents m)%Z) (step ;; ret tt) ;;
     let* m := get in
     ret (number_of_moves m)) w.
Proof. unfold run_schelling_process_py. by intros ->. Qed.

Lemma driver_Ok G1 d h seed fuel g n w :
  run_schelling_process_py G1 d h seed fuel g = (Ok n, w) →
  ∃ w0, Schelling_init G1 d (float_of_ratio 1 2) h seed g = (Ok tt, w0) ∧
        while fuel (λ m, (happy m <? n_agents m)%Z) (step ;; ret tt) w0
          = (Ok tt, w) ∧
        n = number_of_moves (model w).
Proof.
  unfold run_schelling_process_py.
  destruct (Schelling_init G1 d (float_of_ratio 1 2) h seed g) as [[[]|e] w0]; [|done].
  intros ([] & w1 & Hloop & H)%bind_Ok. exists w0. split; [done|].
  unfold bind, get, ret in H. injection H as <- <-. done.
Qed.

Lemma run_steps g d mp h seed r w0 k :
  Schelling_init g d mp h seed r = (Ok tt, w0) →
  run g d mp h seed r k = steps k w0.
Proof. unfold run. by intros ->. Qed.

(** X7.  With a threshold [homophily <= 0] everybody is happy as
    constructed: [unhappy_list] is empty and [happy == n_agents], while
    [running], which only [step] assigns, is still [True]; and
    [run_schelling_process_py] returns 0 without a call of [step]. *)
Theorem zero_threshold_converges_at_once (G1 : list (nat * list nat))
    (d : float) (h : Q) (seed : Seed) (g : Random) (w : world) (fuel : nat) :
  (h <= 0)%Q →
  Schelling_init G1 d (float_of_ratio 1 2) h seed g = (Ok tt, w) →
  unhappy_list (model w) = [] ∧
  happy (model w) = n_agents (model w) ∧
  running (model w) = true ∧
  run_schelling_process_py G1 d h seed fuel g = (Ok 0%Z, w).
Proof.
  intros Hh Hinit.
  destruct (Schelling_init_Fresh _ _ _ _ _ _ _ _ Hinit) as [HF _].
  pose proof (Schelling_init_homophily _ _ _ _ _ _ _ _ Hinit) as Hm.
  pose proof (Schelling_init_Inv _ _ _ _ _ _ _ _ Hinit) as [Hcc _].
  destruct (Schelling_init_ledger _ _ _ _ _ _ _ _ Hinit) as [Hmoves _].
  assert (unhappy_list (model w) = []) as Hu.
  { destruct (unhappy_list (model w)) as [|a l] eqn:E; [done|]. exfalso.
    assert (a ∈ unhappy_list (model w)) as Ha by (rewrite E; by left).
    apply (unhappy_iff _ _ Hcc), (fresh_flag _ _ _ HF) in Ha as [_ Hv].
    apply verdict_low in Hv; [done|by rewrite Hm]. }
  pose proof (proj2 (counters_converged _ Hcc) Hu) as Hc.
  split_and!; [done| |by eapply Schelling_init_running|].
  - destruct Hcc as (_ & Hsum & _). rewrite Hu in Hsum. cbn in Hsum. lia.
  - rewrite (driver_unfold _ _ _ _ _ _ _ Hinit).
    assert (while fuel (λ m, (happy m <? n_agents m)%Z) (step ;; ret tt) w
            = (Ok tt, w)) as Hloop.
    { destruct fuel; cbn [while]; unfold bind at 1, get at 1; by rewrite Hc. }
    rewrite (bind_eq _ _ _ _ _ Hloop). unfold bind, get, ret.
    by rewrite Hmoves.
Qed.

(** X8.  With a threshold [homophily > 1] nobody is ever happy: in every
    world reached by construction and completed steps, [happy] is 0,
    [unhappy_list] holds every agent once and every agent is flagged
    unhappy. *)
Theorem threshold_above_one_leaves_everyone_unhappy
    (g : list (nat * list nat)) (d mp : float) (h : Q) (seed : Seed) (r : Random)
    (k : nat) (w : world) :
  (1 < h)%Q →
  run g d mp h seed r k = (Ok tt, w) →
  happy (model w) = 0%Z ∧
  unhappy_list (model w) ≡ₚ seq 0 (length (agents (model w))) ∧
  (∀ a self, agents (model w) !! a = Some self →
             SchellingAgent.happy self = false).
Proof.
  intros Hh Hrun.
  pose proof (run_all_unhappy _ _ _ _ _ _ _ _ _ Hh Hrun) as HU.
  pose proof (run_Inv _ _ _ _ _ _ _ _ _ Hrun) as [Hcc _].
  destruct (all_unhappy_counters _ Hcc HU) as [H0 Hp]. done.
Qed.

(** X9.  When [run_schelling_process_py] returns [n], it has made [n] calls
    of [step], all completed: the final world is the one [n] steps after
    construction, there [happy == n_agents] and [unhappy_list] is empty, and
    after every smaller number of steps [happy < n_agents] held. *)
Theorem driver_returns_the_hitting_time (G1 : list (nat * list nat))
    (d : float) (h : Q) (seed : Seed) (g : Random) (fuel : nat) (n : Z)
    (w : world) :
  run_schelling_process_py G1 d h seed fuel g = (Ok n, w) →
  ∃ k, k ≤ fuel ∧ n = Z.of_nat k ∧
       run G1 d (float_of_ratio 1 2) h seed g k = (Ok tt, w) ∧
       happy (model w) = n_agents (model w) ∧
       unhappy_list (model w) = [] ∧
       ∀ j, j < k → ∃ wj, run G1 d (float_of_ratio 1 2) h seed g j = (Ok tt, wj) ∧
                          (happy (model wj) < n_agents (model wj))%Z.
Proof.
  intros (w0 & Hinit & Hloop & ->)%driver_Ok.
  apply driver_loop_Ok in Hloop as (k & Hk & Hsteps & Hend & Hbefore).
  pose proof (run_steps _ _ _ _ _ _ _ k Hinit) as Hrun.
  rewrite Hsteps in Hrun.
  pose proof (run_Inv _ _ _ _ _ _ _ _ _ Hrun) as [Hcc _].
  pose proof (proj1 (counters_converged _ Hcc) Hend) as Hu.
  pose proof (steps_ledger _ _ _ _ (Schelling_init_Inv _ _ _ _ _ _ _ _ Hinit)
                Hsteps) as [= Hm _ _ _ _].
  destruct (Schelling_init_ledger _ _ _ _ _ _ _ _ Hinit) as [Hm0 _].
  exists k. split_and!; try done.
  - lia.
  - destruct Hcc as (_ & Hsum & _). rewrite Hu in Hsum. cbn in Hsum. lia.
  - intros j Hj. destruct (Hbefore j Hj) as (wj & Hwj & Hlt).
    exists wj. split; [|done]. by rewrite (run_steps _ _ _ _ _ _ _ j Hinit).
Qed.

Lemma while_unfold fuel cond body w :
  while fuel cond body w =
    if cond (model w) then
      match fuel with
      | O => (Raise Exhausted, w)
      | S fuel' => (body ;; while fuel' cond body) w
      end
    else (Ok tt, w).
Proof.
  destruct fuel; cbn [while]; unfold bind at 1, get;
    by destruct (cond (model w)).
Qed.

(** With a node to spare, the loop of the driver either ends or outlives
    its fuel: no call of [step] raises. *)
Lemma driver_loop_total fuel : ∀ w,
  Tidy (model w) →
  length (agents (model w)) < length (G (model w)) →
  (∃ w', while fuel (λ m, (happy m <? n_agents m)%Z) (step ;; ret tt) w
         = (Ok tt, w')) ∨
  (∃ w', while fuel (λ m, (happy m <? n_agents m)%Z) (step ;; ret tt) w
         = (Raise Exhausted, w')).
Proof.
  induction fuel as [|fuel IH]; intros w HT Hroom;
    rewrite while_unfold;
    destruct (happy (model w) <? n_agents (model w))%Z eqn:Hc;
    try (left; by eexists); try (right; by eexists).
  pose proof HT as ([Hcc HL] & HO & _).
  assert (unhappy_list (model w) ≠ []) as Hu.
  { intros Hu%(counters_converged _ Hcc). congruence. }
  assert (empty (model w) ≠ []) as He.
  { intros He. pose proof (oc_count _ HO) as Hcount.
    rewrite He in Hcount. cbn in Hcount. lia. }
  destruct (step_total w (conj Hcc HL) Hu He) as [w1 Hs].
  pose proof (step_Tidy _ _ _ Hs HT) as HT1.
  pose proof (step_ledger _ _ _ Hcc Hs) as [= _ _ _ _ Hty].
  apply (f_equal length) in Hty. rewrite !length_fmap in Hty.
  pose proof (step_G _ _ _ Hs) as HG.
  assert ((step ;; ret tt) w = (Ok tt, w1)) as Hbody
    by (by rewrite (bind_eq _ _ _ _ _ Hs)).
  rewrite (bind_eq _ _ _ _ _ Hbody).
  apply IH; [done|]. rewrite Hty, HG. done.
Qed.

Lemma driver_total (G1 : list (nat * list nat)) (d : float) (h : Q)
    (seed : Seed) (g : Random) (fuel : nat) (count0 ceiling : Z) :
  graph_ok G1 →
  seed_ok seed = true →
  wanted G1 d (float_of_ratio 1 2) = inr (count0, ceiling) →
  (Z.max (Z.max 0 count0) ceiling < Z.of_nat (length G1))%Z →
  (∃ n w, run_schelling_process_py G1 d h seed fuel g = (Ok n, w)) ∨
  (∃ w, run_schelling_process_py G1 d h seed fuel g = (Raise Exhausted, w)).
Proof.
  intros Hg Hseed Hwant Hroom.
  pose proof (first_rest_count count0 ceiling) as Hsum.
  destruct (Schelling_init_spec G1 d (float_of_ratio 1 2) h seed g _ _
              Hg Hseed Hwant) as [Hok _].
  destruct Hok as (w0 & Hinit & [Hcc _] & Hn & _); [lia|].
  pose proof (Schelling_init_Tidy _ _ _ _ _ _ _ _ Hg Hinit) as HT.
  destruct (Schelling_init_Fresh _ _ _ _ _ _ _ _ Hinit) as [_ HG].
  rewrite (driver_unfold _ _ _ _ _ _ _ Hinit).
  destruct (driver_loop_total fuel w0 HT) as [[w Hw]|[w Hw]].
  - destruct Hcc as (Hlen & _). rewrite HG. lia.
  - left. exists (number_of_moves (model w)), w.
    by rewrite (bind_eq _ _ _ _ _ Hw).
  - right. exists w. by apply bind_Raise.
Qed.

(** X10.  On a well-formed topology, with a seed that Mesa accepts ([None]
    or an int [>= 0]) and a density for which construction asks for fewer
    agents than there are nodes
    ([max(0, round(total * 0.5), ceil(total)) < node_count], with [total]
    the double [density * node_count]), [run_schelling_process_py] raises
    no exception: however many iterations of its loop are granted, it
    returns or is still looping. *)
Theorem driver_never_raises_with_a_node_to_spare
    (G1 : list (nat * list nat)) (d : float) (h : Q) (seed : Seed) (g : Random)
    (fuel : nat) (count0 ceiling : Z) :
  graph_ok G1 →
  seed_ok seed = true →
  wanted G1 d (float_of_ratio 1 2) = inr (count0, ceiling) →
  (Z.max (Z.max 0 count0) ceiling < Z.of_nat (length G1))%Z →
  (∃ n w, run_schelling_process_py G1 d h seed fuel g = (Ok n, w)) ∨
  (∃ w, run_schelling_process_py G1 d h seed fuel g = (Raise Exhausted, w)).
Proof. apply driver_total. Qed.

Lemma driver_above_one (G1 : list (nat * list nat)) (d : float) (h : Q)
    (seed : Seed) (g : Random) (fuel : nat) (n : Z) (w : world) :
  (1 < h)%Q →
  run_schelling_process_py G1 d h seed fuel g = (Ok n, w) →
  agents (model w) = [] ∧ n = 0%Z.
Proof.
  intros Hh (w0 & Hinit & Hloop & ->)%driver_Ok.
  apply driver_loop_Ok in Hloop as (k & Hk & Hsteps & Hend & Hbefore).
  pose proof (run_steps _ _ _ _ _ _ _ k Hinit) as Hrun.
  rewrite Hsteps in Hrun.
  pose proof (run_all_unhappy _ _ _ _ _ _ _ _ _ Hh Hrun) as HU.
  pose proof (run_Inv _ _ _ _ _ _ _ _ _ Hrun) as [Hcc _].
  destruct (all_unhappy_counters _ Hcc HU) as [H0 Hp].
  apply Z.ltb_ge in Hend. pose proof Hcc as (Hlen & _).
  assert (agents (model w) = []) as Hnil.
  { apply length_zero_iff_nil. lia. }
  split; [done|].
  destruct k as [|k].
  - injection Hsteps as <-.
    by destruct (Schelling_init_ledger _ _ _ _ _ _ _ _ Hinit) as [-> _].
  - destruct (Hbefore 0) as (wj & Hwj & Hlt); [lia|]. injection Hwj as <-.
    exfalso.
    pose proof (steps_ledger _ _ _ _ (Schelling_init_Inv _ _ _ _ _ _ _ _ Hinit)
                  Hsteps) as [= _ Hn _ _ _].
    pose proof (Schelling_init_Inv _ _ _ _ _ _ _ _ Hinit)
      as [(Hlen0 & Hsum0 & _ & Hfl & _) _].
    rewrite Hnil in Hlen. cbn in Hlen.
    assert (agents (model w0) = []) as Hnil0
      by (apply length_zero_iff_nil; lia).
    destruct (unhappy_list (model w0)) as [|a l]; [cbn in Hsum0; lia|].
    apply Forall_cons in Hfl as [Hfl _]. unfold flag in Hfl.
    by rewrite Hnil0 in Hfl.
Qed.

(** * What the seed decides *)

Lemma blind_register_node node : blind (register_node node).
Proof.
  intros gr m x.
  unfold register_node, get_neighborhood, G_neighbors, bind, get, put, modify,
    lift, ret, raise. cbn.
  by destruct (_ !! node).
Qed.

Lemma blind_spawn ty : blind (spawn ty).
Proof.
  intros gr m x.
  unfold spawn, place_agent, update_agent, agent, random_choice, bind, get,
    put, modify, lift, deref, ret, raise. cbn.
  destruct (empty m) as [|n l] eqn:He; [done|]. cbn -[Nat.modulo lookup].
  destruct ((n :: l) !! _) as [node|]; [|done]. cbn.
  destruct (grid m !! node) as [c|]; [|done]. cbn.
  rewrite !lookup_app_r by done. rewrite !Nat.sub_diag. cbn.
  rewrite He.
  destruct (list_remove node (n :: l)) as [e|]; done.
Qed.

Lemma blind_bind {A B} (c : M A) (k : A → M B) :
  blind c → (∀ v, blind (k v)) → blind (bind c k).
Proof.
  intros Hc Hk gr m x. unfold bind. rewrite Hc.
  destruct (c _) as [[v|e] [gr1 m1]]; cbn; [|done]. apply Hk.
Qed.

Lemma blind_for_each {A B} (l : list A) (body : A → M B) :
  (∀ a, blind (body a)) → blind (for_each l body).
Proof.
  intros Hb. induction l as [|a l IH]; [done|]. cbn.
  by apply blind_bind.
Qed.

Lemma blind_while fuel cond body :
  (∀ m x, cond (with_random x m) = cond m) → blind body →
  blind (while fuel cond body).
Proof.
  intros Hc Hb. induction fuel as [|fuel IH]; intros gr m x;
    rewrite !while_unfold; cbn [model]; rewrite Hc;
    destruct (cond m); try done.
  by apply blind_bind.
Qed.

Lemma shuffle_do_count_defined w :
  (∀ a, a < length (agents (model w)) → ∃ b, verdict (model w) a = inr b) →
  ∃ w', shuffle_do count w = (Ok tt, w').
Proof.
  intros Hv. unfold shuffle_do.
  rewrite (bind_eq _ _ w (model w) w) by done.
  pose proof (shuffle_perm (random (model w))
                (seq 0 (length (agents (model w))))) as Hp.
  destruct (shuffle _ _) as [order r]. cbn in Hp.
  set (w1 := {| global_random := global_random w;
                model := with_random r (model w) |}).
  rewrite (bind_eq _ _ w tt w1) by done.
  destruct (for_each_count_run order w1) as (w' & Hw' & _); [|by exists w'].
  intros a Ha. rewrite Hp in Ha. apply elem_of_seq in Ha.
  destruct (Hv a) as [b Hb]; [lia|]. exists b. rewrite <-Hb.
  apply verdict_occupancy. by repeat split.
Qed.

(** Construction leaves Mesa's counter of steps at 0. *)
Lemma Schelling_init_steps g d mp h seed r u w :
  Schelling_init g d mp h seed r = (Ok u, w) →
  Schelling.steps (model w) = 0%Z.
Proof.
  intros Hinit.
  apply Schelling_init_Ok in Hinit as [Hseed Hinit].
  apply init_body_Ok in Hinit
    as (w1 & w2 & w3 & c0 & tot & H1 & H2 & H3 & H4 & Htot & Hc0).
  set (P := λ w : world, Schelling.steps (model w) = 0%Z).
  assert (P w3) as H3'.
  { eapply (while_ind P) in H3 as [H3 _]; [exact H3| |].
    { intros wa v wb _ (node & c & e & _ & _ & _ & Hwb)%spawn_Ok.
      unfold P. by rewrite Hwb. }
    eapply (while_ind P) in H2 as [H2 _]; [exact H2| |].
    { intros wa v wb _ (node & c & e & _ & _ & _ & Hwb)%spawn_Ok.
      unfold P. by rewrite Hwb. }
    eapply (for_each_ind P) in H1; [exact H1| |done].
    intros x wa v wb _ (nb & _ & ->)%register_node_Ok. done. }
  revert H4. unfold shuffle_do. intros (m & w0 & [= <- <-] & H)%bind_Ok.
  destruct (shuffle _ _) as [order r'].
  apply bind_Ok in H as ([] & w4 & [= <-] & H).
  eapply (for_each_ind P) in H; [exact H| |exact H3'].
  intros a wa v wb _ (self & b & _ & _ & ->)%count_Ok. unfold P.
  by destruct b.
Qed.

(** X11.  The [seed] argument only orders [unhappy_list].  When
    construction succeeds with one seed, it succeeds with any other seed
    that Mesa accepts ([None] or an int [>= 0]) from the same state of the
    module-level generator, leaves that generator in the same state and
    builds the same model (the same agents with the same types, positions
    and flags, the same grid, [empty] and counters) up to the state of the
    model's own generator and to the order of [unhappy_list]. *)
Theorem seed_only_orders_the_unhappy_list (g : list (nat * list nat))
    (d mp : float) (h : Q) (seed seed' : Seed) (r : Random) (w : world) :
  Schelling_init g d mp h seed r = (Ok tt, w) →
  seed_ok seed' = true →
  ∃ w', Schelling_init g d mp h seed' r = (Ok tt, w') ∧
        global_random w' = global_random w ∧
        unhappy_list (model w') ≡ₚ unhappy_list (model w) ∧
        with_random (random (model w))
          (with_unhappy_list (unhappy_list (model w)) (model w')) = model w.
Proof.
  intros Hinit Hseed'.
  pose proof (Schelling_init_Inv _ _ _ _ _ _ _ _ Hinit) as [Hcc _].
  destruct (Schelling_init_Fresh _ _ _ _ _ _ _ _ Hinit) as [HF _].
  pose proof (Schelling_init_steps _ _ _ _ _ _ _ _ Hinit) as Hst.
  apply Schelling_init_Ok in Hinit as [Hseed Hinit].
  apply init_body_Ok in Hinit
    as (w1 & w2 & w3 & c0 & tot & H1 & H2 & H3 & H4 & Htot & Hc0).
  cbn [model] in H1, H2, H3, Htot, Hc0.
  set (m0 := new_model g d mp h seed) in *.
  set (x := Random_seed (seed_draws seed')).
  set (re := λ w : world, {| global_random := global_random w;
                              model := with_random x (model w) |}).
  assert (for_each (G m0).*1 register_node
            {| global_random := r; model := with_random x m0 |}
          = (Ok tt, re w1)) as H1'.
  { rewrite (blind_for_each _ _ blind_register_node). by rewrite H1. }
  assert (while (S (length (G m0))) (cond0 c0) (spawn 0) (re w1)
          = (Ok tt, re w2)) as H2'.
  { unfold re at 1. rewrite blind_while; [|done|apply blind_spawn].
    destruct w1 as [gr1 m1]. cbn [global_random model]. by rewrite H2. }
  assert (while (S (length (G m0))) (cond1 tot) (spawn 1) (re w2)
          = (Ok tt, re w3)) as H3'.
  { unfold re at 1. rewrite blind_while; [|done|apply blind_spawn].
    destruct w2 as [gr2 m2]. cbn [global_random model]. by rewrite H3. }
  pose proof (shuffle_do_count_frame _ _ _ H4) as [Ho4 [Ha4 He4]].
  assert (same_occupancy (model w3) (model (re w3))) as Hore
    by (by repeat split).
  destruct (shuffle_do_count_defined (re w3)) as [w' H4'].
  { intros a Ha. cbn in Ha.
    rewrite <-(same_occupancy_length _ _ Ho4) in Ha.
    destruct (HF a Ha) as (s & _ & Hv). exists (SchellingAgent.happy s).
    rewrite <-Hv. rewrite (verdict_occupancy _ _ a Ho4).
    by apply verdict_occupancy. }
  assert (Schelling_init g d mp h seed' r = (Ok tt, w')) as Hinit'.
  { rewrite (Schelling_init_run _ _ _ _ _ _ Hseed'). unfold init_body.
    set (w0' := {| global_random := r; model := new_model g d mp h seed' |}).
    rewrite (bind_eq _ _ w0' (model w0') w0') by done.
    change (model w0') with (with_random x m0).
    change w0' with {| global_random := r; model := with_random x m0 |}.
    rewrite (bind_eq _ _ _ _ _ H1').
    rewrite (bind_eq _ _ (re w1) tot (re w1)) by (by apply lift_Ok).
    rewrite (bind_eq _ _ (re w1) c0 (re w1)) by (by apply lift_Ok).
    change (G (with_random x m0)) with (G m0).
    rewrite (bind_eq _ _ _ _ _ H2').
    rewrite (bind_eq _ _ _ _ _ H3'). exact H4'. }
  exists w'. split; [done|].
  pose proof (Schelling_init_steps _ _ _ _ _ _ _ _ Hinit') as Hst'.
  pose proof (Schelling_init_Inv _ _ _ _ _ _ _ _ Hinit') as [Hcc' _].
  destruct (Schelling_init_Fresh _ _ _ _ _ _ _ _ Hinit') as [HF' _].
  pose proof (shuffle_do_count_frame _ _ _ H4') as [Ho4' [Ha4' He4']].
  assert (same_occupancy (model w) (model w')) as Ho.
  { destruct Ho4 as (?&?&?&?), Ho4' as (?&?&?&?). cbn in *.
    repeat split; congruence. }
  assert (agents (model w') = agents (model w)) as Hag.
  { apply list_eq. intros a.
    pose proof (same_occupancy_lookup _ _ a Ho) as Hk.
    destruct (agents (model w') !! a) as [s'|] eqn:Hs';
      destruct (agents (model w) !! a) as [s|] eqn:Hs; try done.
    cbn in Hk. injection Hk as Hty Hpos. f_equal.
    destruct (HF a) as (s1 & Hs1 & Hv); [by eapply lookup_lt_Some|].
    destruct (HF' a) as (s1' & Hs1' & Hv'); [by eapply lookup_lt_Some|].
    rewrite (verdict_occupancy _ _ a Ho), Hv in Hv'.
    assert (s1 = s) as -> by congruence.
    assert (s1' = s') as -> by congruence.
    injection Hv' as Hh.
    destruct s, s'. cbn in *. congruence. }
  assert (unhappy_list (model w') ≡ₚ unhappy_list (model w)) as Hp.
  { apply NoDup_Permutation; [apply Hcc'|apply Hcc|].
    intros a. rewrite (unhappy_iff _ _ Hcc), (unhappy_iff _ _ Hcc').
    unfold flag. by rewrite Hag. }
  split_and!.
  - rewrite (shuffle_do_count_global _ _ _ H4'),
      (shuffle_do_count_global _ _ _ H4). done.
  - done.
  - pose proof (shuffle_do_count_rest _ _ _ H4) as [= E1 E2 E3 E4 E5 E6].
    pose proof (shuffle_do_count_rest _ _ _ H4') as [= F1 F2 F3 F4 F5 F6].
    cbn in F1, F2, F3, F4, F5, F6.
    assert (happy (model w') = happy (model w)) as Hhappy.
    { destruct Hcc as (_ & Hs & _), Hcc' as (_ & Hs' & _).
      apply Permutation_length in Hp. lia. }
    destruct Ho4 as (G1 & G2 & G3 & _), Ho4' as (G1' & G2' & G3' & _).
    cbn in *.
    destruct (model w), (model w'). cbn in *. unfold with_random,
      with_unhappy_list. cbn. f_equal; congruence.
Qed.

(** * More on the driver, and [count] after construction *)

(** X12.  On a well-formed topology, with a seed that Mesa accepts
    ([None] or an int [>= 0]), a threshold [homophily > 1], at least one
    agent and a node left free
    ([0 < max(0, round(total * 0.5), ceil(total)) < node_count], with
    [total] the double [density * node_count]), the loop of
    [run_schelling_process_py] never ends: it outlives every number of
    iterations. *)
Theorem driver_with_threshold_above_one_never_returns
    (G1 : list (nat * list nat)) (d : float) (h : Q) (seed : Seed) (g : Random)
    (fuel : nat) (count0 ceiling : Z) :
  graph_ok G1 →
  seed_ok seed = true →
  (1 < h)%Q →
  wanted G1 d (float_of_ratio 1 2) = inr (count0, ceiling) →
  (0 < Z.max (Z.max 0 count0) ceiling < Z.of_nat (length G1))%Z →
  ∃ w, run_schelling_process_py G1 d h seed fuel g = (Raise Exhausted, w).
Proof.
  intros Hg Hseed Hh Hwant [Hpos Hroom].
  destruct (driver_total G1 d h seed g fuel _ _ Hg Hseed Hwant Hroom)
    as [(n & w & Hw)|Hw]; [|done].
  exfalso.
  destruct (driver_above_one _ _ _ _ _ _ _ _ Hh Hw) as [Hnil _].
  apply driver_Ok in Hw as (w0 & Hinit & Hloop & _).
  apply driver_loop_Ok in Hloop as (k & _ & Hsteps & _).
  pose proof (steps_ledger _ _ _ _ (Schelling_init_Inv _ _ _ _ _ _ _ _ Hinit)
                Hsteps) as [= _ _ _ _ Hty].
  apply (f_equal length) in Hty. rewrite !length_fmap, Hnil in Hty.
  pose proof (first_rest_count count0 ceiling) as Hsum.
  destruct (Schelling_init_spec G1 d (float_of_ratio 1 2) h seed g _ _
              Hg Hseed Hwant) as [Hok _].
  destruct Hok as (w0' & Hinit' & [(Hlen & _) _] & Hn & _); [lia|].
  assert (w0' = w0) as -> by congruence.
  cbn in Hty. lia.
Qed.

(** X13.  [count] is for the initial counting only: when it returns in a
    world whose counters are consistent, it leaves
    [happy + len(unhappy_list) == n_agents + 1], so the counters are
    consistent no more. *)
Theorem count_breaks_consistent_counters (w : world) (a : nat) (v : value)
    (w' : world) :
  counters_consistent (model w) →
  count a w = (Ok v, w') →
  (happy (model w') + Z.of_nat (length (unhappy_list (model w'))))%Z
    = (n_agents (model w') + 1)%Z ∧
  ¬ counters_consistent (model w').
Proof.
  intros (Hn & Hsum & _) (self & b & Hs & Hb & ->)%count_Ok.
  assert ((happy (counted a self b (model w))
           + Z.of_nat (length (unhappy_list (counted a self b (model w)))))%Z
          = (n_agents (counted a self b (model w)) + 1)%Z) as H.
  { destruct b; cbn; rewrite ?length_app; cbn; lia. }
  split; [exact H|]. intros (_ & Hsum' & _). cbn in *. lia.
Qed.

(** X14.  On a well-formed undirected topology, when
    [run_schelling_process_py] returns, every agent is satisfied in the final
    placement: its fraction [similar] of like neighbours, computed from
    scratch, is at least [homophily]. *)
Theorem driver_returns_a_stable_configuration (G1 : list (nat * list nat))
    (d : float) (h : Q) (seed : Seed) (g : Random) (fuel : nat) (n : Z)
    (w : world) :
  graph_ok G1 → graph_sym G1 →
  run_schelling_process_py G1 d h seed fuel g = (Ok n, w) →
  ∀ a, a < length (agents (model w)) →
       ∃ q, similar (model w) a = inr q ∧ (h <= q)%Q.
Proof.
  intros Hg Hsym (w0 & Hinit & Hloop & _)%driver_Ok a Ha.
  apply driver_loop_Ok in Hloop as (k & _ & Hsteps & Hend & _).
  pose proof (run_steps _ _ _ _ _ _ _ k Hinit) as Hrun.
  rewrite Hsteps in Hrun.
  destruct (run_Fresh _ _ _ _ _ _ _ _ _ Hg Hsym Hrun) as [HF _].
  pose proof (run_Inv _ _ _ _ _ _ _ _ _ Hrun) as [Hcc _].
  pose proof (run_homophily _ _ _ _ _ _ _ _ _ Hrun) as Hh.
  pose proof (proj1 (counters_converged _ Hcc) Hend) as Hu.
  destruct (HF a Ha) as (self & Hs & Hv).
  destruct (SchellingAgent.happy self) eqn:Hhappy.
  - unfold verdict in Hv. destruct (similar (model w) a) as [|q]; [done|].
    injection Hv as Hq. exists q. split; [done|].
    apply Qle_bool_iff. by rewrite <-Hh.
  - exfalso. assert (a ∈ unhappy_list (model w)) as Hin.
    { apply (unhappy_iff _ _ Hcc). unfold flag. by rewrite Hs, <-Hhappy. }
    rewrite Hu in Hin. by apply elem_of_nil in Hin.
Qed.

(** * What construction places *)

Lemma spawn_Ok_draw ty w u w' :
  spawn ty w = (Ok u, w') →
  ∃ node c e,
    empty (model w) !! drawn (global_random w) (length (empty (model w)))
      = Some node ∧
    list_remove node (empty (model w)) = Some e ∧
    model w' = spawned ty node c e (model w) ∧
    global_random w' = advance (global_random w).
Proof.
  unfold spawn. intros H.
  apply bind_Ok in H as (m & ? & [= <- <-] & H).
  apply bind_Ok in H as ([] & ? & [= <-] & H).
  apply bind_Ok in H as (? & ? & [= <- <-] & H). cbn in H.
  apply bind_Ok in H as (node & w0 & Hch & H).
  apply random_choice_draw in Hch as [Hnode ->]. cbn in Hnode.
  apply bind_Ok in H as ([] & w1 & Hpl & H).
  unfold place_agent in Hpl.
  apply bind_Ok in Hpl as (? & ? & [= <- <-] & Hpl).
  cbn in Hpl.
  destruct (grid (model w) !! node) as [c|] eqn:Hc; [|done].
  mred Hpl. rewrite lookup_app_r in Hpl by done.
  rewrite Nat.sub_diag in Hpl. mred Hpl. injection Hpl as <-.
  apply bind_Ok in H as (? & ? & [= <- <-] & H). cbn in H.
  apply bind_Ok in H as ([] & w2 & He & H).
  destruct (list_remove node (empty (model w))) as [e|] eqn:Hrm; [|done].
  mred He. injection He as <-.
  mred H. injection H as _ <-. cbn.
  exists node, c, e. split_and!; try done.
  unfold spawned. rewrite insert_app_r_alt by done.
  by rewrite Nat.sub_diag.
Qed.

Lemma draw_nodes_snoc n : ∀ r e nodes e' r' node,
  draw_nodes r e n = (nodes, e', r') →
  length nodes = n →
  e' !! drawn r' (length e') = Some node →
  draw_nodes r e (S n) =
    (nodes ++ [node], default e' (list_remove node e'), advance r').
Proof.
  induction n as [|n IH]; intros r e nodes e' r' node H Hlen Hnode.
  - injection H as <- <- <-. cbn [draw_nodes]. by rewrite Hnode.
  - cbn [draw_nodes] in H.
    destruct (e !! drawn r (length e)) as [x|] eqn:Hx;
      [|by injection H as <- _ _].
    destruct (draw_nodes (advance r) _ n) as [[ns e1] r1] eqn:Hrec.
    injection H as <- <- <-. cbn in Hlen.
    change (draw_nodes r e (S (S n))) with
      (match e !! drawn r (length e) with
       | Some node =>
           let '(nodes, e, r') :=
             draw_nodes (advance r) (default e (list_remove node e)) (S n) in
           (node :: nodes, e, r')
       | None => ([], e, r)
       end).
    rewrite Hx. erewrite IH; [done|exact Hrec|lia|done].
Qed.

Lemma spawn_Drawn r0 e0 ty w u w' :
  spawn ty w = (Ok u, w') → Drawn r0 e0 w → Drawn r0 e0 w'.
Proof.
  intros (node & c & e & Hnode & He & Hm & Hr)%spawn_Ok_draw (nodes & Hd & Hp).
  exists (nodes ++ [node]). rewrite Hm, Hr. cbn.
  rewrite length_app, Nat.add_1_r, !fmap_app, Hp. split; [|done].
  erewrite draw_nodes_snoc; [|exact Hd| |exact Hnode].
  - by rewrite He.
  - apply (f_equal length) in Hp. by rewrite !length_fmap in Hp.
Qed.

Lemma spawn_loop_Drawn r0 e0 fuel cond ty w u w' :
  while fuel cond (spawn ty) w = (Ok u, w') → Drawn r0 e0 w → Drawn r0 e0 w'.
Proof.
  intros H HD.
  eapply (while_ind (Drawn r0 e0)) in H as [H _]; [exact H| |done].
  intros wa v wb _ Hs. by eapply spawn_Drawn.
Qed.

Lemma Schelling_init_Drawn g d mp h seed r u w :
  Schelling_init g d mp h seed r = (Ok u, w) →
  Drawn r g.*1 w.
Proof.
  intros Hinit.
  apply Schelling_init_Ok in Hinit as [Hseed Hinit].
  apply init_body_Ok in Hinit
    as (w1 & w2 & w3 & c0 & tot & H1 & H2 & H3 & H4 & Htot & Hc0).
  assert (Drawn r g.*1 w3) as (nodes & Hd & Hp).
  { eapply spawn_loop_Drawn; [exact H3|].
    eapply spawn_loop_Drawn; [exact H2|].
    cbn in H1.
    destruct (register_loop_run g.*1
                {| global_random := r; model := new_model g d mp h seed |})
      as (adr & Hreg & _); [done|].
    rewrite Hreg in H1. injection H1 as <-. by exists []. }
  pose proof (shuffle_do_count_keys _ _ _ H4) as Hkeys.
  pose proof (shuffle_do_count_frame _ _ _ H4) as [_ [_ He]].
  pose proof (shuffle_do_count_global _ _ _ H4) as Hg.
  assert (∀ l : list SchellingAgent.t,
            SchellingAgent.pos <$> l = snd <$> (key <$> l)) as Hpos
    by (intros l; by rewrite <-list_fmap_compose).
  exists nodes. rewrite He, Hg, Hpos, Hkeys, <-Hpos.
  apply (f_equal length) in Hkeys. rewrite !length_fmap in Hkeys.
  by rewrite Hkeys.
Qed.

(** C6, as the code has it.  On a well-formed topology and with a seed
    that Mesa accepts, construction computes the double
    [total = density * node_count] and [count0 = round(total * minority_pc)]
    on doubles.  When [0 <= count0 <= ceil(total) <= node_count], it returns
    and has placed [ceil(total)] agents, not [round(total)]: first [count0]
    agents of type 0, then agents of type 1.  The agents stand, in the order
    of their creation, on the nodes that [draw_nodes] takes from the list of
    the nodes: each is the entry of [empty] at the index that the
    module-level generator draws, and is removed from [empty]; so every agent
    stands on a node of the graph and no two share a node.  [empty] and the
    module-level generator are left as these draws leave them. *)
Theorem construction_places_ceiling (g : list (nat * list nat))
    (d mp : float) (h : Q) (seed : Seed) (r : Random) (count0 ceiling : Z) :
  graph_ok g →
  seed_ok seed = true →
  wanted g d mp = inr (count0, ceiling) →
  (0 <= count0 <= ceiling)%Z →
  (ceiling <= Z.of_nat (length g))%Z →
  ∃ w, Schelling_init g d mp h seed r = (Ok tt, w) ∧
       n_agents (model w) = ceiling ∧
       SchellingAgent.type <$> agents (model w) =
         replicate (Z.to_nat count0) 0%Z
         ++ replicate (Z.to_nat (ceiling - count0)) 1%Z ∧
       (SchellingAgent.pos <$> agents (model w), empty (model w),
        global_random w) =
         (let '(nodes, e, r') := draw_nodes r g.*1 (Z.to_nat ceiling) in
          (Some <$> nodes, e, r')) ∧
       NoDup (SchellingAgent.pos <$> agents (model w)) ∧
       Forall (λ p, ∃ n, p = Some n ∧ n ∈ g.*1)
              (SchellingAgent.pos <$> agents (model w)).
Proof.
  intros Hg Hseed Hwant Hrange Hroom.
  pose proof (first_rest_count count0 ceiling) as Hsum.
  destruct (Schelling_init_spec g d mp h seed r _ _ Hg Hseed Hwant)
    as [Hok _].
  destruct Hok as (w & Hw & [(Hlen & _) _] & Hn & Hty & Hnd & Hpos); [lia|].
  exists w. split_and!; try done.
  - rewrite Hn, Hsum. lia.
  - rewrite Hty. unfold rest_count, first_count. do 3 f_equal. lia.
  - destruct (Schelling_init_Drawn _ _ _ _ _ _ _ _ Hw) as (nodes & Hd & Hp).
    assert (length (agents (model w)) = Z.to_nat ceiling) as Hl by lia.
    rewrite Hl in Hd. by rewrite Hd, Hp.
Qed.

(** * The similarity fraction *)

Lemma occupant_Some m n b :
  occupant m n = Some b →
  ∃ ag, agents m !! b = Some ag ∧ SchellingAgent.pos ag = Some n.
Proof.
  unfold occupant. destruct (list_find _ _) as [[i ag]|] eqn:E; [|done].
  intros [= <-]. apply list_find_Some in E as (Hi & Hp & _). by exists ag.
Qed.

Lemma cell_occupant m n :
  Sound m → Occupancy m → n ∈ (G m).*1 →
  grid m !! n = Some (option_list (occupant m n)).
Proof.
  intros [_ HL] HO Hn.
  destruct (lo_cells _ HL n Hn) as [c Hc]. rewrite Hc. f_equal.
  pose proof (oc_single _ HO n c Hc) as Hlen.
  destruct (occupant m n) as [b|] eqn:Hocc.
  - apply occupant_Some in Hocc as (ag & Hb & Hpos).
    destruct (lo_agents _ HL b ag Hb) as (p & c' & Hp & _ & Hc' & Hin).
    assert (p = n) as -> by congruence.
    assert (c' = c) as -> by congruence.
    destruct c as [|x [|y c]]; cbn in Hlen; [by apply elem_of_nil in Hin| |lia].
    by apply list_elem_of_singleton in Hin as ->.
  - destruct c as [|b c]; [done|]. exfalso.
    pose proof (lo_grid _ HL n (b :: c) Hc) as [_ Hall].
    apply Forall_cons in Hall as [Hb _]. unfold position in Hb.
    destruct (agents m !! b) as [ag|] eqn:Hag; [|done].
    injection Hb as Hpos.
    unfold occupant in Hocc.
    destruct (list_find _ _) as [?|] eqn:E; [done|].
    apply list_find_None in E. rewrite Forall_forall in E.
    apply (E ag); [by eapply list_elem_of_lookup_2|done].
Qed.

Lemma contents_occupants m l :
  Sound m → Occupancy m → (∀ p, p ∈ l → p ∈ (G m).*1) →
  get_cell_list_contents m l = inr (omap (occupant m) l).
Proof.
  intros HS HO. induction l as [|n l IH]; intros Hl; [done|].
  cbn [get_cell_list_contents omap list_omap].
  rewrite (cell_occupant m n HS HO) by (apply Hl; by left).
  rewrite IH by (intros p Hp; apply Hl; by right).
  by destruct (occupant m n).
Qed.

Lemma get_neighbors_occupied m a self :
  Sound m → Occupancy m → agents m !! a = Some self →
  get_neighbors m (SchellingAgent.pos self) = inr (occupied_neighbors m a).
Proof.
  intros HS HO Hs. pose proof HS as [_ HL].
  destruct (lo_agents _ HL a self Hs) as (p & c & Hpos & Hp & _).
  destruct (graph_ok_neighbors (G m) p (lo_graph _ HL) Hp) as (l & Hl & Hsub).
  unfold get_neighbors, get_neighborhood, G_neighbors, occupied_neighbors.
  rewrite Hs, Hpos, Hl. cbn. by apply contents_occupants.
Qed.

Lemma similar_is_the_fraction m a :
  Sound m → Occupancy m → a < length (agents m) →
  similar m a = inr (similarity_fraction m a).
Proof.
  intros HS HO [self Hs]%lookup_lt_is_Some.
  pose proof (get_neighbors_occupied m a self HS HO Hs) as Hnb.
  unfold similar, deref, similarity_fraction. rewrite Hs, Hnb.
  assert (Forall (λ n, is_Some (agents m !! n)) (occupied_neighbors m a))
    as Hall.
  { unfold occupied_neighbors. rewrite Hs.
    destruct (SchellingAgent.pos self) as [p|]; [|done].
    apply Forall_forall. intros b (n & _ & Hb)%list_elem_of_omap.
    apply occupant_Some in Hb as (ag & Hag & _). by exists ag. }
  destruct (occupied_neighbors m a) as [|n ns] eqn:E; [done|].
  rewrite decide_True by (cbn; lia).
  rewrite similar_total_count by done.
  rewrite decide_False by done. cbn [fmap option_fmap option_map].
  unfold same_type_count. by rewrite Z.add_0_l.
Qed.

(** C3.  In a world reached by construction on a well-formed topology and
    completed steps, the neighbours that [count] and [recount] go through
    are the occupied neighbours of the agent: the agents that stand on the
    nodes adjacent to its node in the graph.  The value [similar] they
    compare with the threshold is 1 when there is none, and otherwise the
    number of occupied neighbours of the agent's own type divided by the
    number of occupied neighbours; both return and leave the flag of the
    agent set exactly when that fraction is at least the threshold.  Hence,
    when the threshold is at most 1, an agent without occupied neighbours
    has its flag set after [count] and after [recount]. *)
Theorem similar_fraction_and_isolation (g : list (nat * list nat))
    (d mp : float) (h : Q) (seed : Seed) (r : Random) (k : nat) (w : world)
    (a : nat) :
  graph_ok g →
  run g d mp h seed r k = (Ok tt, w) →
  a < length (agents (model w)) →
  (∃ self, agents (model w) !! a = Some self ∧
           get_neighbors (model w) (SchellingAgent.pos self)
             = inr (occupied_neighbors (model w) a)) ∧
  similar (model w) a = inr (similarity_fraction (model w) a) ∧
  (∃ w', count a w = (Ok VNone, w') ∧
         flag (model w') a
           = Some (Qle_bool h (similarity_fraction (model w) a))) ∧
  (∃ w', recount a w = (Ok VNone, w') ∧
         flag (model w') a
           = Some (Qle_bool h (similarity_fraction (model w) a))) ∧
  (occupied_neighbors (model w) a = [] → (h <= 1)%Q →
   similarity_fraction (model w) a = 1%Q ∧
   (∃ w', count a w = (Ok VNone, w') ∧ flag (model w') a = Some true) ∧
   (∃ w', recount a w = (Ok VNone, w') ∧ flag (model w') a = Some true)).
Proof.
  intros Hg Hrun Ha.
  destruct (run_Tidy _ _ _ _ _ _ _ _ _ Hg Hrun) as (HS & HO & _).
  pose proof (run_homophily _ _ _ _ _ _ _ _ _ Hrun) as Hh.
  pose proof (similar_is_the_fraction _ a HS HO Ha) as Hsim.
  pose proof Ha as [self Hs]%lookup_lt_is_Some.
  assert (verdict (model w) a
          = inr (Qle_bool h (similarity_fraction (model w) a))) as Hv
    by (unfold verdict; by rewrite Hsim, Hh).
  set (b := Qle_bool h (similarity_fraction (model w) a)) in *.
  assert (∃ w', count a w = (Ok VNone, w') ∧ flag (model w') a = Some b)
    as Hcount.
  { eexists. split; [by apply (count_run a w self b)|].
    unfold flag, counted. destruct b; cbn; by rewrite list_lookup_insert_eq. }
  assert (∃ w', recount a w = (Ok VNone, w') ∧ flag (model w') a = Some b)
    as Hrecount.
  { destruct HS as [Hc _].
    destruct (decide (SchellingAgent.happy self = b)) as [Heq|Hne].
    { exists w. split; [by eapply recount_same_run|].
      unfold flag. by rewrite Hs, <-Heq. }
    destruct b, (SchellingAgent.happy self) eqn:Hhappy; try done.
    - assert (a ∈ unhappy_list (model w)) as Hin.
      { apply unhappy_iff; [done|]. unfold flag. by rewrite Hs, <-Hhappy. }
      apply list_remove_is_Some in Hin as [l Hl].
      eexists. split; [by eapply recount_up_run|].
      unfold flag. cbn. by rewrite list_lookup_insert_eq.
    - eexists. split; [by eapply recount_down_run|].
      unfold flag. cbn. by rewrite list_lookup_insert_eq. }
  split_and!; try done.
  - by exists self; split; [|apply get_neighbors_occupied].
  - intros Hnil Hh1.
    assert (similarity_fraction (model w) a = 1%Q) as H1.
    { unfold similarity_fraction. rewrite Hnil. done. }
    assert (b = true) as Hb.
    { unfold b. rewrite H1. by apply Qle_bool_iff. }
    rewrite Hb in Hcount, Hrecount. done.
Qed.

(** * What [step] does and reports *)

Lemma recount_effect_steps a m m' :
  recount_effect a m m' → Schelling.steps m' = Schelling.steps m.
Proof. by intros [self b Hs _ _|self l Hs _ _ _|self Hs _ _]. Qed.

Lemma for_each_recount_steps l w u w' :
  for_each l recount w = (Ok u, w') →
  Schelling.steps (model w') = Schelling.steps (model w).
Proof.
  intros H.
  eapply (for_each_recount_ind
            (λ m, Schelling.steps m = Schelling.steps (model w)) l);
    [|exact H|done].
  intros a m m' _ He <-. by eapply recount_effect_steps.
Qed.

Lemma relocation_steps a w w' (r : relocation a w w') :
  Schelling.steps (model w') = Schelling.steps (model w).
Proof.
  open_relocation r.
  rewrite (for_each_recount_steps _ _ _ _ Hr3),
    (for_each_recount_steps _ _ _ _ Hr2).
  apply recount_Ok in Hr1 as (_ & _ & ->%recount_effect_steps).
  by subst w1.
Qed.

(** C9, as the code has it.  In a world reached by construction on a
    well-formed topology and any number of completed steps, with an unhappy
    agent to pick and an empty node to go to, [step] completes and returns
    [None], not a boolean.  It has made one move: an agent of
    [unhappy_list] has gone from its node to another node, taken from
    [empty]; nobody else has moved; [number_of_moves] and Mesa's counter
    [steps] have grown by one.  It leaves [running] equal to
    [happy < n_agents], so that [running] is cleared exactly when
    [happy == n_agents]. *)
Theorem step_sets_running (g : list (nat * list nat)) (d mp : float) (h : Q)
    (seed : Seed) (r : Random) (k : nat) (w : world) :
  graph_ok g →
  run g d mp h seed r k = (Ok tt, w) →
  unhappy_list (model w) ≠ [] →
  empty (model w) ≠ [] →
  ∃ w', step w = (Ok VNone, w') ∧
        (∃ a src dst,
           a ∈ unhappy_list (model w) ∧ dst ∈ empty (model w) ∧
           position (model w) a = Some (Some src) ∧ src ≠ dst ∧
           position (model w') a = Some (Some dst) ∧
           (∀ b, b ≠ a → position (model w') b = position (model w) b)) ∧
        number_of_moves (model w') = (number_of_moves (model w) + 1)%Z ∧
        Schelling.steps (model w') = (Schelling.steps (model w) + 1)%Z ∧
        running (model w')
          = bool_decide (happy (model w') < n_agents (model w'))%Z ∧
        (running (model w') = false ↔
         happy (model w') = n_agents (model w')).
Proof.
  intros Hg Hrun Hu He.
  pose proof (run_Tidy _ _ _ _ _ _ _ _ _ Hg Hrun) as HT.
  pose proof HT as (HS & _). pose proof HS as [Hcc _].
  destruct (step_total w HS Hu He) as [w' Hstep].
  exists w'. split; [done|].
  pose proof (step_Sound _ _ _ Hstep HS) as [(_ & Hsum & _) _].
  pose proof (step_ledger _ _ _ Hcc Hstep) as [= Hmoves _ _ _ _].
  destruct (step_relocation _ _ _ Hcc Hstep) as (a & wa & wb & rl & Hch & ->).
  pose proof Hch as [_ Ha]%random_choice_Ok.
  apply random_choice_draw in Hch as [_ ->].
  apply (with_steps_Tidy (Schelling.steps (model w) + 1)) in HT
    as (HS' & HO' & _).
  destruct (relocation_moves _ _ _ rl HS' HO')
    as (src & dst & Hdst & Hsrc & Hne & Hpa & Hpb & _ & _).
  apply list_elem_of_lookup_2 in Hdst.
  pose proof (relocation_steps _ _ _ rl) as Hst.
  split_and!.
  - exists a, src, dst. split_and!; [exact Ha|exact Hdst|exact Hsrc|exact Hne
                                     |exact Hpa|exact Hpb].
  - exact Hmoves.
  - exact Hst.
  - done.
  - cbn in *. rewrite bool_decide_eq_false. lia.
Qed.

(** * Properties of the benchmark scripts *)

Lemma sorted_set_sorted (xs : list Z) :
  StronglySorted Z.lt xs → bench_hitting_time.sorted_set xs = xs.
Proof.
  intros Hs. unfold bench_hitting_time.sorted_set.
  assert (NoDup xs) as Hnd.
  { induction Hs as [|x l _ IH Hall]; [constructor|].
    apply NoDup_cons. split; [|done]. intros Hx.
    rewrite Forall_forall in Hall. specialize (Hall x Hx). lia. }
  apply (StronglySorted_unique Z.le).
  - apply StronglySorted_merge_sort; apply _.
  - clear Hnd. induction Hs as [|x l _ IH Hall]; constructor; [done|].
    eapply Forall_impl; [exact Hall|]. intros; cbn in *; lia.
  - rewrite merge_sort_Permutation. by apply elements_list_to_set.
Qed.

Lemma StronglySorted_filter {A} (R : relation A) (P : A → Prop)
    `{∀ x, Decision (P x)} l :
  StronglySorted R l → StronglySorted R (filter P l).
Proof.
  induction 1 as [|x l _ IH Hall]; [constructor|].
  rewrite filter_cons. case_decide; [|done].
  constructor; [done|]. rewrite Forall_forall in Hall |- *.
  intros y [_ Hy]%list_elem_of_filter. by apply Hall.
Qed.

(** X15.  [compute_sizes(min_total, max_total)] is the table of milestones
    restricted to [[min_total, max_total]], in the order of the table: it is
    strictly increasing and holds exactly the milestones within the
    bounds. *)
Theorem compute_sizes_filters_the_milestones (min_total max_total : Z) :
  bench_hitting_time.compute_sizes min_total max_total =
    filter (λ x, (min_total <= x)%Z ∧ (x <= max_total)%Z)
           bench_hitting_time.milestones ∧
  StronglySorted Z.lt (bench_hitting_time.compute_sizes min_total max_total) ∧
  ∀ x, x ∈ bench_hitting_time.compute_sizes min_total max_total ↔
       x ∈ bench_hitting_time.milestones ∧ (min_total <= x <= max_total)%Z.
Proof.
  assert (StronglySorted Z.lt bench_hitting_time.milestones) as Hs.
  { unfold bench_hitting_time.milestones.
    repeat (constructor; [|repeat (constructor; [lia|]); constructor]).
    constructor. }
  assert (bench_hitting_time.compute_sizes min_total max_total =
          filter (λ x, (min_total <= x)%Z ∧ (x <= max_total)%Z)
                 bench_hitting_time.milestones) as ->.
  { apply sorted_set_sorted. by apply StronglySorted_filter. }
  split_and!; [done|by apply StronglySorted_filter|].
  intros x. rewrite list_elem_of_filter. tauto.
Qed.

(** X16.  [derive_lollipop(total)] returns [(c, p)] with [p = 9 * c] and
    [c >= 1].  From 10 on, [c] is [total // 10], so that [c + p] is [total]
    rounded down to a multiple of 10; below 10 it returns [(1, 9)], ten
    nodes, which is more than [total]. *)
Theorem derive_lollipop_rounds_down_to_ten (total : Z) :
  let (c, p) := bench_hitting_time.derive_lollipop total in
  p = (9 * c)%Z ∧ (1 <= c)%Z ∧
  ((10 <= total)%Z → (c + p <= total < c + p + 10)%Z ∧ c = (total / 10)%Z) ∧
  ((total < 10)%Z → c = 1%Z ∧ (total < c + p)%Z).
Proof.
  unfold bench_hitting_time.derive_lollipop.
  destruct (total <? 10)%Z eqn:E.
  - apply Z.ltb_lt in E. split_and!; [done|done|lia|lia].
  - apply Z.ltb_ge in E. cbv zeta.
    pose proof (Z.div_mod total 10 ltac:(lia)) as Hdm.
    pose proof (Z.mod_pos_bound total 10 ltac:(lia)) as Hm.
    split_and!; [done|lia| |lia].
    intros _. lia.
Qed.

Section mp_runner.

Import py_schelling_mp_runner.

Lemma size_at_sweep args i :
  args_family args = clique_only ∨ den args ≠ 0%Z →
  size_at args (Z.of_nat i) = inr (sweep_size args i).
Proof.
  unfold size_at, sweep_size, floordiv. intros H.
  destruct (args_family args); [|done].
  destruct (Z.eqb_spec (den args) 0) as [E|E]; [|done].
  by destruct H.
Qed.

Lemma gen_sizes_from_sweep args n : ∀ i sizes,
  args_family args = clique_only ∨ den args ≠ 0%Z →
  gen_sizes_from args (Z.of_nat i) n sizes =
    inr (sizes ++ (sweep_size args <$> seq i n)).
Proof.
  induction n as [|n IH]; intros i sizes H; cbn [gen_sizes_from seq fmap list_fmap].
  - by rewrite app_nil_r.
  - rewrite (size_at_sweep _ _ H).
    replace (Z.of_nat i + 1)%Z with (Z.of_nat (S i)) by lia.
    rewrite IH by done. by rewrite <-app_assoc.
Qed.

(** X17.  [gen_sizes] returns [count] sizes (none when [count <= 0]); the
    [i]-th has [cs = cs0 + i * step] and, for the lollipop family,
    [pl = (cs * num) // den + off], else [pl = pl_fixed].  For the lollipop
    family with [den = 0] and [count > 0] it raises [ZeroDivisionError]. *)
Theorem gen_sizes_sweeps_an_arithmetic_progression (args : Namespace) :
  (args_family args = clique_only ∨ den args ≠ 0%Z →
   ∃ sizes, gen_sizes args = inr sizes ∧
            length sizes = Z.to_nat (count args) ∧
            ∀ i, i < Z.to_nat (count args) →
                 sizes !! i = Some (sweep_size args i)) ∧
  (args_family args = lollipop → den args = 0%Z → (0 < count args)%Z →
   gen_sizes args = inl ZeroDivisionError).
Proof.
  split.
  - intros H. eexists. split_and!.
    + apply (gen_sizes_from_sweep args _ 0 [] H).
    + cbn. by rewrite length_fmap, length_seq.
    + intros i Hi. cbn. rewrite list_lookup_fmap, lookup_seq_lt by done.
      done.
  - intros Hf Hd Hc. unfold gen_sizes.
    destruct (Z.to_nat (count args)) as [|n] eqn:E; [lia|].
    cbn. unfold size_at, floordiv. by rewrite Hf, Hd.
Qed.

Lemma chunk_loop_spec args cs pl s fuel : ∀ remaining chunks,
  Z.to_nat remaining ≤ fuel →
  ∃ new, chunk_loop fuel args cs pl s remaining chunks = Some (chunks ++ new) ∧
         total_runs new = Z.max 0 remaining ∧
         Forall (λ ch, (1 <= runs ch <= Z.max 1 (batch args))%Z ∧
                       seed0 ch = s ∧ chunk_cs ch = cs ∧ chunk_pl ch = pl ∧
                       chunk_density ch = density args ∧
                       chunk_homophily ch = homophily args) new.
Proof.
  induction fuel as [|fuel IH]; intros remaining chunks Hfuel;
    cbn [chunk_loop]; destruct (Z.ltb_spec 0 remaining) as [Hpos|Hneg];
    try lia.
  - exists []. rewrite app_nil_r. split_and!; [done|cbn; lia|constructor].
  - set (b := Z.min (Z.max 1 (batch args)) remaining).
    destruct (IH (remaining - b)%Z
                (chunks ++ [{| chunk_cs := cs; chunk_pl := pl; runs := b;
                               chunk_density := density args;
                               chunk_homophily := homophily args;
                               seed0 := s |}]))
      as (new & -> & Hsum & Hall); [lia|].
    eexists (_ :: new). rewrite <-app_assoc. split_and!; [done| |].
    + cbn. fold (total_runs new). rewrite Hsum. lia.
    + constructor; [|done]. cbn. split_and!; try done; lia.
  - exists []. rewrite app_nil_r. split_and!; [done|cbn; lia|constructor].
Qed.

(** X18.  For a size [(cs, pl)], the loop of [main] that builds the chunks
    ends within [iterations] iterations; the chunks it appends have [runs]
    between 1 and [max(1, batch)], their runs add up to
    [max(0, iterations)], and each carries the size, the density, the
    homophily and the same
    [seed0 = seed ^ (cs * 1315423911) ^ (pl * 2654435761)]. *)
Theorem chunks_cover_the_iterations (args : Namespace) (cs pl : Z)
    (fuel : nat) (chunks : list Chunk) :
  Z.to_nat (iterations args) ≤ fuel →
  let s := Z.lxor (Z.lxor (seed args) (cs * 1315423911)) (pl * 2654435761) in
  ∃ new, chunks_of_size fuel args (cs, pl) chunks = Some (chunks ++ new) ∧
         total_runs new = Z.max 0 (iterations args) ∧
         Forall (λ ch, (1 <= runs ch <= Z.max 1 (batch args))%Z ∧
                       seed0 ch = s ∧ chunk_cs ch = cs ∧ chunk_pl ch = pl ∧
                       chunk_density ch = density args ∧
                       chunk_homophily ch = homophily args) new.
Proof. intros Hfuel s. by apply chunk_loop_spec. Qed.

Lemma worker_seeds_range ch s :
  s ∈ worker_seeds ch → (seed0 ch <= s < seed0 ch + runs ch)%Z.
Proof.
  unfold worker_seeds. intros (j & -> & Hj%elem_of_seq)%list_elem_of_fmap. lia.
Qed.

(** X19.  Every chunk of a size starts its seeds at the same [seed0]: the
    seeds [_worker] passes for a chunk start at [seed0] and stay below
    [seed0 + max(1, batch)].  With [batch <= 1] (1 is the default) there is
    one chunk per iteration and every run of the size gets the seed
    [seed0]. *)
Theorem chunks_of_a_size_restart_the_seed (args : Namespace) (cs pl : Z)
    (fuel : nat) (chunks new : list Chunk) :
  chunks_of_size fuel args (cs, pl) chunks = Some (chunks ++ new) →
  let s := Z.lxor (Z.lxor (seed args) (cs * 1315423911)) (pl * 2654435761) in
  Forall (λ ch, head (worker_seeds ch) = Some s ∧
                Forall (λ x, (s <= x < s + Z.max 1 (batch args))%Z)
                       (worker_seeds ch)) new ∧
  ((batch args <= 1)%Z →
   concat (worker_seeds <$> new) = replicate (length new) s ∧
   Z.of_nat (length new) = Z.max 0 (iterations args)).
Proof.
  intros H s.
  assert (∃ fuel', fuel ≤ fuel' ∧ Z.to_nat (iterations args) ≤ fuel')
    as (fuel' & Hle & Hfuel) by (exists (fuel + Z.to_nat (iterations args)); lia).
  assert (∀ f remaining acc out,
            chunk_loop f args cs pl s remaining acc = Some out →
            ∀ f', f ≤ f' → chunk_loop f' args cs pl s remaining acc = Some out)
    as Hmono.
  { induction f as [|f IH]; intros remaining acc out; cbn [chunk_loop].
    - destruct (0 <? remaining)%Z eqn:E; [done|].
      intros [= <-] f' _. destruct f'; cbn [chunk_loop]; by rewrite E.
    - destruct (0 <? remaining)%Z eqn:E.
      + intros Hout [|f'] Hf'; [lia|]. cbn [chunk_loop]. rewrite E.
        apply IH; [done|lia].
      + intros [= <-] f' _. destruct f'; cbn [chunk_loop]; by rewrite E. }
  unfold chunks_of_size in H. apply (Hmono _ _ _ _) with (f' := fuel') in H;
    [|done].
  destruct (chunk_loop_spec args cs pl s fuel' (iterations args) chunks Hfuel)
    as (new' & Hnew' & Hsum & Hall).
  fold s in H. rewrite H in Hnew'. injection Hnew' as Heq%app_inv_head.
  subst new'. clear H Hmono.
  split.
  - eapply Forall_impl; [exact Hall|]. cbn.
    intros ch ([H1 H2] & Hs & _). split.
    + unfold worker_seeds. destruct (Z.to_nat (runs ch)) eqn:E; [lia|].
      cbn. rewrite Hs. f_equal. lia.
    + apply Forall_forall. intros x Hx%worker_seeds_range. lia.
  - intros Hb.
    assert (Forall (λ ch, runs ch = 1%Z ∧ seed0 ch = s) new) as Hone.
    { eapply Forall_impl; [exact Hall|]. cbn. intros ch ([H1 H2] & Hs & _).
      split; [lia|done]. }
    clear Hall. revert Hsum. generalize (Z.max 0 (iterations args)).
    induction Hone as [|ch l [Hr Hs] _ IH]; intros z Hsum.
    + cbn in *. split; [done|lia].
    + cbn in Hsum. fold (total_runs l) in Hsum.
      destruct (IH (z - 1)%Z) as [IH1 IH2]; [lia|].
      cbn [fmap list_fmap concat length replicate].
      unfold worker_seeds at 1. rewrite Hr, Hs.
      change (Z.to_nat 1) with 1. cbn [seq fmap list_fmap app Z.of_nat].
      rewrite Z.add_0_r, IH1. split; [done|lia].
Qed.

End mp_runner.

(** * Worked instances *)


Lemma counters_consistent_after_every_step_witness :
  (happy (model K4_world) + Z.of_nat (length (unhappy_list (model K4_world))))%Z
    = n_agents (model K4_world) ∧
  NoDup (unhappy_list (model K4_world)) ∧
  ∀ a, a ∈ unhappy_list (model K4_world) ↔ flag (model K4_world) a = Some false.
Proof.
  apply (counters_consistent_after_every_step
           K4 (float_of_ratio 3 4) (float_of_ratio 1 3) (1 # 2) (seeded 42 [])
           (Random_seed (draws [0; 1; 2; 3; 4; 5; 6])) 2).
  vm_compute. reflexivity.
Defined.

Lemma move_happy_is_noop_witness :
  move 2 path5_world = (Ok VNone, path5_world).
Proof.
  apply (move_happy_is_noop path5_world 2 (SchellingAgent.mk 1 (Some 3) true)).
  - reflexivity.
  - reflexivity.
Defined.

Lemma similar_fraction_and_isolation_witness :
  (∃ self, agents (model path5_world) !! 0 = Some self ∧
           get_neighbors (model path5_world) (SchellingAgent.pos self)
             = inr (occupied_neighbors (model path5_world) 0)) ∧
  similar (model path5_world) 0
    = inr (similarity_fraction (model path5_world) 0) ∧
  (∃ w', count 0 path5_world = (Ok VNone, w') ∧
         flag (model w') 0
           = Some (Qle_bool (1 # 2)
                     (similarity_fraction (model path5_world) 0))) ∧
  (∃ w', recount 0 path5_world = (Ok VNone, w') ∧
         flag (model w') 0
           = Some (Qle_bool (1 # 2)
                     (similarity_fraction (model path5_world) 0))) ∧
  (occupied_neighbors (model path5_world) 0 = [] → (1 # 2 <= 1)%Q →
   similarity_fraction (model path5_world) 0 = 1%Q ∧
   (∃ w', count 0 path5_world = (Ok VNone, w') ∧
          flag (model w') 0 = Some true) ∧
   (∃ w', recount 0 path5_world = (Ok VNone, w') ∧
          flag (model w') 0 = Some true)).
Proof.
  apply (similar_fraction_and_isolation
           path5 (float_of_ratio 3 5) (float_of_ratio 1 3) (1 # 2)
           (seeded 42 []) (Random_seed (draws [1; 0; 1; 1])) 0
           path5_world 0).
  - compute_done.
  - vm_compute. reflexivity.
  - vm_compute. lia.
Defined.

(** In [path5_world], agent 0, of type 0 on node 1, has one occupied
    neighbour, agent 1 of the other type on node 0, node 2 being empty: its
    fraction is 0 / 1 and [recount] leaves it unhappy.  Agent 2, on node 3,
    has no occupied neighbour: its fraction is 1 and [recount] leaves it
    happy. *)
Example similar_path5_agents :
  occupied_neighbors (model path5_world) 0 = [1%nat] ∧
  get_neighbors (model path5_world) (Some 1%nat) = inr [1%nat] ∧
  similarity_fraction (model path5_world) 0 = (inject_Z 0 / inject_Z 1)%Q ∧
  similar (model path5_world) 0 = inr (inject_Z 0 / inject_Z 1)%Q ∧
  flag (model (recount 0 path5_world).2) 0 = Some false ∧
  flag (model (count 0 path5_world).2) 0 = Some false ∧
  occupied_neighbors (model path5_world) 2 = [] ∧
  similarity_fraction (model path5_world) 2 = 1%Q ∧
  flag (model (recount 2 path5_world).2) 2 = Some true.
Proof. split_and!; vm_compute; reflexivity. Qed.

Lemma recount_idempotent_witness :
  ∃ w', recount 0 relaxed_world = (Ok VNone, w') ∧
        (false = true → w' = relaxed_world) ∧
        recount 0 w' = (Ok VNone, w').
Proof.
  apply (recount_idempotent
           relaxed_world 0 (SchellingAgent.mk 0 (Some 1) false) true).
  - compute_done.
  - reflexivity.
  - vm_compute. reflexivity.
Defined.

(** The first [recount] of the instance above does change the world: the
    flag of agent 0 goes up and the agent leaves [unhappy_list]. *)
Example recount_relaxed_flips :
  flag (model relaxed_world) 0 = Some false ∧
  flag (model (recount 0 relaxed_world).2) 0 = Some true ∧
  unhappy_list (model relaxed_world) = [1; 0]%nat ∧
  unhappy_list (model (recount 0 relaxed_world).2) = [1]%nat.
Proof. split_and!; vm_compute; reflexivity. Qed.

Lemma step_without_unhappy_raises_witness :
  step settled_world =
    (Raise IndexError,
     {| global_random := global_random settled_world;
        model := with_steps (Schelling.steps (model settled_world) + 1)
                   (model settled_world) |}) ∧
  Schelling_step settled_world = (Raise IndexError, settled_world) ∧
  (counters_consistent (model settled_world) →
   ∀ a, a < length (agents (model settled_world)) →
        move a settled_world = (Ok VNone, settled_world)).
Proof.
  apply (step_without_unhappy_raises settled_world). reflexivity.
Defined.

(** C8, as the spec words it, fails: with an empty [unhappy_list] the call
    does not come back, it raises; and it has counted itself in [steps]. *)
Lemma step_without_unhappy_is_not_silent :
  unhappy_list (model settled_world) = [] ∧
  (step settled_world).1 = Raise IndexError ∧
  (step settled_world).1 ≠ Ok VNone ∧
  Schelling.steps (model settled_world) = 1%Z ∧
  Schelling.steps (model (step settled_world).2) = 2%Z.
Proof.
  split_and!; vm_compute;
    [reflexivity|reflexivity|discriminate|reflexivity|reflexivity].
Qed.

Lemma step_sets_running_witness :
  ∃ w', step unsettled_world = (Ok VNone, w') ∧
        (∃ a src dst,
           a ∈ unhappy_list (model unsettled_world) ∧
           dst ∈ empty (model unsettled_world) ∧
           position (model unsettled_world) a = Some (Some src) ∧
           src ≠ dst ∧
           position (model w') a = Some (Some dst) ∧
           (∀ b, b ≠ a →
                 position (model w') b = position (model unsettled_world) b)) ∧
        number_of_moves (model w')
          = (number_of_moves (model unsettled_world) + 1)%Z ∧
        Schelling.steps (model w')
          = (Schelling.steps (model unsettled_world) + 1)%Z ∧
        running (model w')
          = bool_decide (happy (model w') < n_agents (model w'))%Z ∧
        (running (model w') = false ↔
         happy (model w') = n_agents (model w')).
Proof.
  apply (step_sets_running path5 (float_of_ratio 3 5) (float_of_ratio 1 3)
           (1 # 2) (seeded 42 []) (Random_seed (draws [1; 0; 1; 0; 1])) 0
           unsettled_world).
  - compute_done.
  - vm_compute. reflexivity.
  - vm_compute. discriminate.
  - vm_compute. discriminate.
Defined.

(** C9, as the spec words it, fails: the call that reaches convergence
    returns [None], not [True].  It has moved agent 1 from node 0 to
    node 4. *)
Lemma step_returns_None_on_convergence :
  (step unsettled_world).1 = Ok VNone ∧
  happy (model (step unsettled_world).2) =
    n_agents (model (step unsettled_world).2) ∧
  running (model (step unsettled_world).2) = false ∧
  (step unsettled_world).1 ≠ Ok (VBool true) ∧
  moves_between (model unsettled_world) (model (step unsettled_world).2)
    = [(1, Some 4)] ∧
  number_of_moves (model (step unsettled_world).2) = 1%Z ∧
  Schelling.steps (model (step unsettled_world).2) = 1%Z.
Proof. split_and!; vm_compute; try reflexivity; discriminate. Qed.

Lemma construction_places_ceiling_witness :
  ∃ w, Schelling_init isolated25 (float_of_ratio 28 100) (float_of_ratio 1 2)
         (1 # 2) (seeded 42 []) (Random_seed (draws [3; 1; 24; 7]))
       = (Ok tt, w) ∧
       n_agents (model w) = 8%Z ∧
       SchellingAgent.type <$> agents (model w) =
         replicate (Z.to_nat 4) 0%Z ++ replicate (Z.to_nat (8 - 4)) 1%Z ∧
       (SchellingAgent.pos <$> agents (model w), empty (model w),
        global_random w) =
         (let '(nodes, e, r') :=
            draw_nodes (Random_seed (draws [3; 1; 24; 7])) isolated25.*1
              (Z.to_nat 8) in
          (Some <$> nodes, e, r')) ∧
       NoDup (SchellingAgent.pos <$> agents (model w)) ∧
       Forall (λ p, ∃ n, p = Some n ∧ n ∈ isolated25.*1)
              (SchellingAgent.pos <$> agents (model w)).
Proof.
  apply (construction_places_ceiling isolated25 (float_of_ratio 28 100)
           (float_of_ratio 1 2) (1 # 2) (seeded 42 [])
           (Random_seed (draws [3; 1; 24; 7])) 4 8).
  - compute_done.
  - reflexivity.
  - vm_compute. reflexivity.
  - lia.
  - vm_compute. discriminate.
Defined.

(** The instance above, computed.  With 25 nodes and density 0.28 the
    double [0.28 * 25] is just above 7, so 8 agents are placed, 4 of them of
    type 0 since [round(3.5000000000000004)] is 4; the draws 3, 1, 24 mod 23
    and 7 pick the nodes 3, 1, 2 and 10 of the list as it stands, and the
    other draws the node at its head. *)
Example construction_on_25_nodes :
  let w := (Schelling_init isolated25 (float_of_ratio 28 100)
              (float_of_ratio 1 2) (1 # 2) (seeded 42 [])
              (Random_seed (draws [3; 1; 24; 7]))).2 in
  float_mul (float_of_ratio 28 100) (float_of_ratio 25 1)
    = S754_finite false 7881299347898369 (-50) ∧
  wanted isolated25 (float_of_ratio 28 100) (float_of_ratio 1 2)
    = inr (4, 8)%Z ∧
  SchellingAgent.type <$> agents (model w) = [0; 0; 0; 0; 1; 1; 1; 1]%Z ∧
  SchellingAgent.pos <$> agents (model w) =
    [Some 3; Some 1; Some 2; Some 10; Some 0; Some 4; Some 5; Some 6] ∧
  length (empty (model w)) = 17 ∧
  cursor (global_random w) = 8.
Proof. cbv zeta. split_and!; vm_compute; reflexivity. Qed.

(** With 10 nodes and density 0.1 the double [0.1 * 10] is 1, and one agent
    is placed. *)
Example construction_on_10_nodes :
  wanted (firstn 10 isolated25) (float_of_ratio 1 10) (float_of_ratio 1 2)
    = inr (0, 1)%Z ∧
  n_agents (model (Schelling_init (firstn 10 isolated25) (float_of_ratio 1 10)
                     (float_of_ratio 1 2) (1 # 2) (seeded 42 [])
                     (Random_seed (draws []))).2) = 1%Z.
Proof. split; vm_compute; reflexivity. Qed.

(** C6, as the spec words it, fails: with five nodes and density 1/4 the
    constructor places two agents, and [round(1.25)] is one. *)
Lemma construction_does_not_round :
  let w := (Schelling_init isolated5 (float_of_ratio 1 4) (float_of_ratio 1 2)
              (1 # 2) (seeded 42 []) (Random_seed (draws [3; 1]))) in
  w.1 = Ok tt ∧
  n_agents (model w.2) = 2%Z ∧
  length (agents (model w.2)) = 2%nat ∧
  float_round (float_mul (float_of_ratio 1 4) (float_of_ratio 5 1))
    = inr 1%Z ∧
  inr (n_agents (model w.2))
    ≠ float_round (float_mul (float_of_ratio 1 4) (float_of_ratio 5 1)).
Proof. cbv zeta. split_and!; vm_compute; try reflexivity; discriminate. Qed.

Lemma construction_ends_as_computed_witness :
  (Schelling_init path5 (float_of_ratio 6 5) (float_of_ratio 1 2) (1 # 2)
     (seeded 42 []) (Random_seed (draws []))).1
  = construction_outcome path5 (float_of_ratio 6 5) (float_of_ratio 1 2)
      (seeded 42 []).
Proof.
  apply (construction_ends_as_computed path5 (float_of_ratio 6 5)
           (float_of_ratio 1 2) (1 # 2) (seeded 42 [])
           (Random_seed (draws []))).
  compute_done.
Defined.

(** How construction ends on five nodes: with density 6/5 the sixth agent
    finds no empty node; with a negative seed [Model.__init__] raises
    [ValueError]; with an infinite density [round] raises [OverflowError],
    and [ValueError] with a density that is not a number, or with an
    infinite density on a graph without nodes. *)
Example construction_failures :
  construction_outcome path5 (float_of_ratio 6 5) (float_of_ratio 1 2)
    (seeded 42 []) = Raise IndexError ∧
  construction_outcome path5 (float_of_ratio 3 5) (float_of_ratio 1 2)
    (seeded (-7) []) = Raise ValueError ∧
  construction_outcome path5 (S754_infinity false) (float_of_ratio 1 2)
    (seeded 42 []) = Raise OverflowError ∧
  construction_outcome path5 S754_nan (float_of_ratio 1 2)
    (seeded 42 []) = Raise ValueError ∧
  construction_outcome [] (S754_infinity false) (float_of_ratio 1 2)
    (seeded 42 []) = Raise ValueError ∧
  (Schelling_init path5 (float_of_ratio 6 5) (float_of_ratio 1 2) (1 # 2)
     (seeded 42 []) (Random_seed (draws []))).1 = Raise IndexError ∧
  (Schelling_init path5 (float_of_ratio 3 5) (float_of_ratio 1 2) (1 # 2)
     (seeded (-7) []) (Random_seed (draws []))).1 = Raise ValueError ∧
  (Schelling_init path5 (S754_infinity false) (float_of_ratio 1 2) (1 # 2)
     (seeded 42 []) (Random_seed (draws []))).1 = Raise OverflowError.
Proof. split_and!; vm_compute; reflexivity. Qed.

(** C7, as the spec words it, fails: construction returns on a topology
    without nodes, with a threshold of 2, with density 0 and with a minority
    fraction of 3/2. *)
Lemma construction_validates_nothing :
  (Schelling_init [] (float_of_ratio 1 2) (float_of_ratio 1 2) (1 # 2)
     (seeded 42 []) (Random_seed (draws []))).1 = Ok tt ∧
  (Schelling_init path5 (float_of_ratio 3 5) (float_of_ratio 1 3) (2 # 1)
     (seeded 42 []) (Random_seed (draws []))).1 = Ok tt ∧
  (Schelling_init path5 (float_of_ratio 0 1) (float_of_ratio 1 3) (1 # 2)
     (seeded 42 []) (Random_seed (draws []))).1 = Ok tt ∧
  (Schelling_init path5 (float_of_ratio 3 5) (float_of_ratio 3 2) (1 # 2)
     (seeded 42 []) (Random_seed (draws []))).1 = Ok tt.
Proof. split_and!; vm_compute; reflexivity. Qed.

Lemma flags_agree_with_a_full_count_witness :
  (∀ a self, agents (model K4_world) !! a = Some self →
             verdict (model K4_world) a = inr (SchellingAgent.happy self)) ∧
  happy (model K4_world) = Z.of_nat (length (satisfied (model K4_world))) ∧
  (∀ a, a ∈ unhappy_list (model K4_world)
        ↔ verdict (model K4_world) a = inr false).
Proof.
  apply (flags_agree_with_a_full_count
           K4 (float_of_ratio 3 4) (float_of_ratio 1 3) (1 # 2) (seeded 42 [])
           (Random_seed (draws [0; 1; 2; 3; 4; 5; 6])) 2).
  - compute_done.
  - compute_done.
  - vm_compute. reflexivity.
Defined.

Lemma empty_lists_the_free_nodes_witness :
  NoDup (empty (model K4_world)) ∧
  (∀ n, n ∈ empty (model K4_world) ↔
        n ∈ K4.*1 ∧ ∀ a, position (model K4_world) a ≠ Some (Some n)) ∧
  (∀ a b n, position (model K4_world) a = Some (Some n) →
            position (model K4_world) b = Some (Some n) → a = b) ∧
  length (empty (model K4_world)) + length (agents (model K4_world))
    = length K4.
Proof.
  apply (empty_lists_the_free_nodes
           K4 (float_of_ratio 3 4) (float_of_ratio 1 3) (1 # 2) (seeded 42 [])
           (Random_seed (draws [0; 1; 2; 3; 4; 5; 6])) 2).
  - compute_done.
  - vm_compute. reflexivity.
Defined.

Lemma number_of_moves_counts_the_steps_witness :
  number_of_moves (model K4_world) = 2%Z ∧
  agent_list (model K4_world) = seq 0 (length (agents (model K4_world))) ∧
  n_agents (model K4_world) = Z.of_nat (length (agent_list (model K4_world))).
Proof.
  apply (number_of_moves_counts_the_steps
           K4 (float_of_ratio 3 4) (float_of_ratio 1 3) (1 # 2) (seeded 42 [])
           (Random_seed (draws [0; 1; 2; 3; 4; 5; 6])) 2).
  vm_compute. reflexivity.
Defined.

Lemma step_relocates_one_unhappy_agent_witness :
  ∃ a src dst,
    unhappy_list (model unsettled_world)
      !! drawn (global_random unsettled_world)
               (length (unhappy_list (model unsettled_world))) = Some a ∧
    empty (model unsettled_world)
      !! drawn (advance (global_random unsettled_world))
               (length (empty (model unsettled_world))) = Some dst ∧
    position (model unsettled_world) a = Some (Some src) ∧ src ≠ dst ∧
    position (model (step unsettled_world).2) a = Some (Some dst) ∧
    (∀ b, b ≠ a → position (model (step unsettled_world).2) b
                  = position (model unsettled_world) b) ∧
    list_remove dst (empty (model unsettled_world) ++ [src])
      = Some (empty (model (step unsettled_world).2)) ∧
    global_random (step unsettled_world).2
      = advance (advance (global_random unsettled_world)).
Proof.
  apply (step_relocates_one_unhappy_agent path5 (float_of_ratio 3 5)
           (float_of_ratio 1 3) (1 # 2)
           (seeded 42 []) (Random_seed (draws [1; 0; 1; 0; 1])) 0
           unsettled_world VNone).
  - compute_done.
  - vm_compute. reflexivity.
  - vm_compute. reflexivity.
Defined.

Lemma steps_keep_the_population_witness :
  SchellingAgent.type <$> agents (model settled_world)
    = SchellingAgent.type <$> agents (model unsettled_world) ∧
  n_agents (model settled_world) = n_agents (model unsettled_world) ∧
  agent_list (model settled_world) = agent_list (model unsettled_world) ∧
  random (model settled_world) = random (model unsettled_world) ∧
  G (model settled_world) = path5.
Proof.
  apply (steps_keep_the_population path5 (float_of_ratio 3 5)
           (float_of_ratio 1 3) (1 # 2)
           (seeded 42 []) (Random_seed (draws [1; 0; 1; 0; 1])) 1).
  - vm_compute. reflexivity.
  - vm_compute. reflexivity.
Defined.

Lemma step_without_empty_node_raises_witness :
  let w := (Schelling_init K4 (float_of_ratio 1 1) (float_of_ratio 1 2)
              (1 # 2) (seeded 42 []) (Random_seed (draws []))).2 in
  empty (model w) = [] ∧
  step w = (Raise IndexError,
            {| global_random := advance (global_random w);
               model := with_steps (Schelling.steps (model w) + 1)
                          (model w) |}).
Proof.
  apply (step_without_empty_node_raises K4 (float_of_ratio 1 1)
           (float_of_ratio 1 2) (1 # 2) (seeded 42 [])
           (Random_seed (draws [])) 0).
  - compute_done.
  - vm_compute. reflexivity.
  - vm_compute. discriminate.
  - vm_compute. reflexivity.
Defined.

Lemma zero_threshold_converges_at_once_witness :
  let w := (Schelling_init path5 (float_of_ratio 3 5) (float_of_ratio 1 2) 0 (seeded 42 [])
              (Random_seed (draws [1; 0; 1; 1]))).2 in
  unhappy_list (model w) = [] ∧
  happy (model w) = n_agents (model w) ∧
  running (model w) = true ∧
  run_schelling_process_py path5 (float_of_ratio 3 5) 0 (seeded 42 []) 7
    (Random_seed (draws [1; 0; 1; 1])) = (Ok 0%Z, w).
Proof.
  apply (zero_threshold_converges_at_once path5 (float_of_ratio 3 5) 0 (seeded 42 [])
           (Random_seed (draws [1; 0; 1; 1])) _ 7).
  - vm_compute. discriminate.
  - vm_compute. reflexivity.
Defined.

Lemma threshold_above_one_leaves_everyone_unhappy_witness :
  let w := (run path5 (float_of_ratio 3 5) (float_of_ratio 1 3) 2 (seeded 42 [])
              (Random_seed (draws [1; 0; 1; 1; 0; 0])) 1).2 in
  happy (model w) = 0%Z ∧
  unhappy_list (model w) ≡ₚ seq 0 (length (agents (model w))) ∧
  (∀ a self, agents (model w) !! a = Some self →
             SchellingAgent.happy self = false).
Proof.
  apply (threshold_above_one_leaves_everyone_unhappy path5
           (float_of_ratio 3 5) (float_of_ratio 1 3) 2
           (seeded 42 []) (Random_seed (draws [1; 0; 1; 1; 0; 0])) 1).
  - vm_compute. reflexivity.
  - vm_compute. reflexivity.
Defined.

Lemma driver_returns_the_hitting_time_witness :
  let w := (run_schelling_process_py path5 (float_of_ratio 3 5) (1 # 2) (seeded 42 []) 5
              (Random_seed (draws [0; 1; 0; 0; 1]))).2 in
  ∃ k, k ≤ 5 ∧ 3%Z = Z.of_nat k ∧
       run path5 (float_of_ratio 3 5) (float_of_ratio 1 2) (1 # 2) (seeded 42 [])
         (Random_seed (draws [0; 1; 0; 0; 1])) k = (Ok tt, w) ∧
       happy (model w) = n_agents (model w) ∧
       unhappy_list (model w) = [] ∧
       ∀ j, j < k →
            ∃ wj, run path5 (float_of_ratio 3 5) (float_of_ratio 1 2) (1 # 2) (seeded 42 [])
                    (Random_seed (draws [0; 1; 0; 0; 1])) j = (Ok tt, wj) ∧
                  (happy (model wj) < n_agents (model wj))%Z.
Proof.
  apply (driver_returns_the_hitting_time path5 (float_of_ratio 3 5) (1 # 2) (seeded 42 [])
           (Random_seed (draws [0; 1; 0; 0; 1])) 5 3).
  vm_compute. reflexivity.
Defined.

Lemma driver_never_raises_with_a_node_to_spare_witness :
  (∃ n w, run_schelling_process_py path5 (float_of_ratio 3 5) (1 # 2)
            (seeded 42 []) 5 (Random_seed (draws [0; 1; 0; 0; 1]))
          = (Ok n, w)) ∨
  (∃ w, run_schelling_process_py path5 (float_of_ratio 3 5) (1 # 2)
          (seeded 42 []) 5 (Random_seed (draws [0; 1; 0; 0; 1]))
        = (Raise Exhausted, w)).
Proof.
  apply (driver_never_raises_with_a_node_to_spare path5 (float_of_ratio 3 5)
           (1 # 2) (seeded 42 []) (Random_seed (draws [0; 1; 0; 0; 1])) 5
           2 3).
  - compute_done.
  - reflexivity.
  - vm_compute. reflexivity.
  - vm_compute. reflexivity.
Defined.

(** With a negative seed the driver raises [ValueError], from
    [Model.__init__], with two nodes to spare. *)
Example driver_with_a_negative_seed :
  (run_schelling_process_py path5 (float_of_ratio 3 5) (1 # 2)
     (seeded (-7) []) 5 (Random_seed (draws [0; 1; 0; 0; 1]))).1
  = Raise ValueError.
Proof. vm_compute. reflexivity. Qed.

Lemma seed_only_orders_the_unhappy_list_witness :
  ∃ w', Schelling_init path5 (float_of_ratio 3 5) (float_of_ratio 1 3)
          (1 # 2) (seeded 7 [1; 1]) (Random_seed (draws [1; 0; 1; 1]))
        = (Ok tt, w') ∧
        global_random w' = global_random path5_world ∧
        unhappy_list (model w') ≡ₚ unhappy_list (model path5_world) ∧
        with_random (random (model path5_world))
          (with_unhappy_list (unhappy_list (model path5_world)) (model w'))
        = model path5_world.
Proof.
  apply (seed_only_orders_the_unhappy_list path5 (float_of_ratio 3 5)
           (float_of_ratio 1 3) (1 # 2) (seeded 42 []) (seeded 7 [1; 1])
           (Random_seed (draws [1; 0; 1; 1])) path5_world).
  - vm_compute. reflexivity.
  - reflexivity.
Defined.

Lemma driver_with_threshold_above_one_never_returns_witness :
  ∃ w, run_schelling_process_py path5 (float_of_ratio 3 5) 2 (seeded 42 []) 4
         (Random_seed (draws [])) = (Raise Exhausted, w).
Proof.
  apply (driver_with_threshold_above_one_never_returns path5
           (float_of_ratio 3 5) 2 (seeded 42 []) (Random_seed (draws [])) 4
           2 3).
  - compute_done.
  - reflexivity.
  - vm_compute. reflexivity.
  - vm_compute. reflexivity.
  - vm_compute. split; reflexivity.
Defined.

Lemma count_breaks_consistent_counters_witness :
  (happy (model (count 2 path5_world).2)
   + Z.of_nat (length (unhappy_list (model (count 2 path5_world).2))))%Z
    = (n_agents (model (count 2 path5_world).2) + 1)%Z ∧
  ¬ counters_consistent (model (count 2 path5_world).2).
Proof.
  apply (count_breaks_consistent_counters path5_world 2 VNone).
  - compute_done.
  - vm_compute. reflexivity.
Defined.

Lemma driver_returns_a_stable_configuration_witness :
  let w := (run_schelling_process_py path5 (float_of_ratio 3 5) (1 # 2) (seeded 42 []) 5
              (Random_seed (draws [0; 1; 0; 0; 1]))).2 in
  ∃ q, similar (model w) 1 = inr q ∧ (1 # 2 <= q)%Q.
Proof.
  apply (driver_returns_a_stable_configuration path5 (float_of_ratio 3 5) (1 # 2)
           (seeded 42 []) (Random_seed (draws [0; 1; 0; 0; 1])) 5 3).
  - compute_done.
  - compute_done.
  - vm_compute. reflexivity.
  - vm_compute. lia.
Defined.

Lemma derive_lollipop_rounds_down_to_ten_witness :
  bench_hitting_time.derive_lollipop 57 = (5, 45)%Z ∧
  (5 + 45 <= 57 < 5 + 45 + 10)%Z ∧
  bench_hitting_time.derive_lollipop 7 = (1, 9)%Z ∧ (7 < 1 + 9)%Z.
Proof.
  pose proof (derive_lollipop_rounds_down_to_ten 57) as (_ & _ & H57 & _).
  pose proof (derive_lollipop_rounds_down_to_ten 7) as (_ & _ & _ & H7).
  split_and!; [reflexivity|apply H57; lia|apply H57; lia|reflexivity
              |apply H7; lia].
Defined.

Lemma gen_sizes_sweeps_an_arithmetic_progression_witness :
  (∃ sizes,
     py_schelling_mp_runner.gen_sizes py_schelling_mp_runner.defaults
       = inr sizes ∧
     length sizes = 10 ∧
     ∀ i, i < 10 →
          sizes !! i = Some (sweep_size py_schelling_mp_runner.defaults i)) ∧
  py_schelling_mp_runner.gen_sizes
    {| py_schelling_mp_runner.args_family := py_schelling_mp_runner.lollipop;
       py_schelling_mp_runner.cs0 := 50; py_schelling_mp_runner.step := 50;
       py_schelling_mp_runner.count := 10; py_schelling_mp_runner.num := 9;
       py_schelling_mp_runner.den := 0; py_schelling_mp_runner.off := 0;
       py_schelling_mp_runner.pl_fixed := 10000;
       py_schelling_mp_runner.iterations := 10;
       py_schelling_mp_runner.density := 8 # 10;
       py_schelling_mp_runner.homophily := 1 # 2;
       py_schelling_mp_runner.seed := 42; py_schelling_mp_runner.batch := 1 |}
    = inl py_schelling_mp_runner.ZeroDivisionError.
Proof.
  split.
  - apply (proj1 (gen_sizes_sweeps_an_arithmetic_progression
                    py_schelling_mp_runner.defaults)).
    right. vm_compute. discriminate.
  - apply (proj2 (gen_sizes_sweeps_an_arithmetic_progression _));
      [reflexivity|reflexivity|vm_compute; reflexivity].
Defined.

Lemma chunks_cover_the_iterations_witness :
  let s := Z.lxor (Z.lxor 42 (50 * 1315423911)) (450 * 2654435761) in
  ∃ new,
    py_schelling_mp_runner.chunks_of_size 10 py_schelling_mp_runner.defaults
      (50, 450)%Z [] = Some ([] ++ new) ∧
    total_runs new = Z.max 0 10 ∧
    Forall (λ ch, (1 <= py_schelling_mp_runner.runs ch <= Z.max 1 1)%Z ∧
                  py_schelling_mp_runner.seed0 ch = s ∧
                  py_schelling_mp_runner.chunk_cs ch = 50%Z ∧
                  py_schelling_mp_runner.chunk_pl ch = 450%Z ∧
                  py_schelling_mp_runner.chunk_density ch = (8 # 10)%Q ∧
                  py_schelling_mp_runner.chunk_homophily ch = (1 # 2)%Q) new.
Proof.
  apply (chunks_cover_the_iterations py_schelling_mp_runner.defaults 50 450
           10 []).
  cbn. lia.
Defined.

Lemma chunks_of_a_size_restart_the_seed_witness :
  let s := Z.lxor (Z.lxor 42 (50 * 1315423911)) (450 * 2654435761) in
  let new := default [] (py_schelling_mp_runner.chunks_of_size 10
                           py_schelling_mp_runner.defaults (50, 450)%Z []) in
  Forall (λ ch, head (py_schelling_mp_runner.worker_seeds ch) = Some s ∧
                Forall (λ x, (s <= x < s + Z.max 1 1)%Z)
                       (py_schelling_mp_runner.worker_seeds ch)) new ∧
  ((1 <= 1)%Z →
   concat (py_schelling_mp_runner.worker_seeds <$> new)
     = replicate (length new) s ∧
   Z.of_nat (length new) = Z.max 0 10).
Proof.
  apply (chunks_of_a_size_restart_the_seed py_schelling_mp_runner.defaults
           50 450 10 []).
  vm_compute. reflexivity.
Defined.
